(** * rpminspect: the command-line orchestration pipeline

    A shallow embedding of [src/rpminspect/rpminspect.c]: the helpers
    [get_product_release], [check_inspection_options], [check_found],
    [process_inspection_flag] and the [main] function, followed by the
    properties of the pipeline that the specification states.

    Conventions.
    - A C string is the list of its characters before the terminating NUL.
    - [uint64_t] values are [Z] in the range [0, 2^64).
    - The code of librpminspect (the inspection and format tables, the
      build gathering, the drivers, the directory primitives) is not part
      of this file: it is collected in the record [collaborators] and every
      theorem quantifies over it.
    - What the process does is observed as a result (control goes on, the
      process exits with a status, an assertion aborts it, or its behaviour
      is undefined) together with the ordered list of the diagnostics it
      wrote and of the collaborator calls it made.
    - In [main] the allocations ([strdup], [calloc]) are taken to succeed:
      the code does not test the copies, and the assertions on the list of
      architectures (lines 496, 525, 528) are not part of the model. In
      [get_product_release], which tests its copies, [strdup] may return
      NULL. *)

From Stdlib Require Import List String Ascii ZArith Bool Arith Lia Sorted.
Import ListNotations.

Set Implicit Arguments.

(* ================================================================= *)
(** ** C strings *)

Module CString.

Definition cstr := list ascii.

(** Literals: [cs "fc30"] is the C string "fc30". *)
Definition cs (s : string) : cstr := list_ascii_of_string s.

Definition cstr_eq_dec : forall a b : cstr, {a = b} + {a <> b} :=
  list_eq_dec ascii_dec.

(** [strcmp]: zero when the strings are equal, negative or positive as the
    first bytes that differ compare (the terminator is below every byte).
    The C standard fixes the sign of the result only; -1 and 1 are used. *)
Fixpoint strcmp (a b : cstr) : Z :=
  match a, b with
  | [], [] => 0
  | [], _ :: _ => -1
  | _ :: _, [] => 1
  | x :: a', y :: b' =>
      if Ascii.eqb x y then strcmp a' b'
      else if (nat_of_ascii x <? nat_of_ascii y)%nat then -1 else 1
  end.

(** [tolower] in the C locale. *)
Definition tolower (c : ascii) : ascii :=
  let n := nat_of_ascii c in
  if (65 <=? n)%nat && (n <=? 90)%nat then ascii_of_nat (n + 32) else c.

(** [strcasecmp]: [strcmp] on the lower-cased bytes. *)
Definition strcasecmp (a b : cstr) : Z :=
  strcmp (map tolower a) (map tolower b).

(** [rindex s c]: the offset of the last occurrence of [c] in [s]; [None]
    is the NULL pointer. *)
Fixpoint rindex (s : cstr) (c : ascii) : option nat :=
  match s with
  | [] => None
  | x :: s' =>
      match rindex s' c with
      | Some i => Some (S i)
      | None => if Ascii.eqb x c then Some 0%nat else None
      end
  end.

(** [index s c]: the offset of the first occurrence. *)
Fixpoint index (s : cstr) (c : ascii) : option nat :=
  match s with
  | [] => None
  | x :: s' =>
      if Ascii.eqb x c then Some 0%nat
      else option_map S (index s' c)
  end.

(** [strcspn s reject]: the length of the longest prefix of [s] that has no
    byte of [reject]. *)
Fixpoint strcspn (s reject : cstr) : nat :=
  match s with
  | [] => 0
  | x :: s' => if existsb (Ascii.eqb x) reject then 0 else S (strcspn s' reject)
  end.

(** [s[n] = 0]: the string is cut at offset [n]. *)
Definition truncate_at (n : nat) (s : cstr) : cstr := firstn n s.

(** One call [strsep(&walk, delim)] on a non-NULL [walk]: the token, and the
    new value of [walk] ([None] is NULL, when no delimiter was found). *)
Fixpoint strsep (walk delim : cstr) : cstr * option cstr :=
  match walk with
  | [] => ([], None)
  | x :: rest =>
      if existsb (Ascii.eqb x) delim then ([], Some rest)
      else let (tok, walk') := strsep rest delim in (x :: tok, walk')
  end.

(** The tokens that the loop
    [while ((token = strsep(&walk, delim)) != NULL)] sees, in order. *)
Fixpoint strsep_all (walk delim : cstr) : list cstr :=
  match walk with
  | [] => [[]]
  | x :: rest =>
      if existsb (Ascii.eqb x) delim then [] :: strsep_all rest delim
      else
        match strsep_all rest delim with
        | tok :: toks => (x :: tok) :: toks
        | [] => [[x]]
        end
  end.

End CString.
Import CString.

(* ================================================================= *)
(** ** Diagnostics and outcomes *)

(** The messages [main] and its helpers write to [stderr]. *)
Inductive diag : Type :=
| AfterReleaseEmpty (after : cstr)
    (* Product release for after build (%s) is empty *)
| BeforeReleaseEmpty (before : cstr)
    (* Product release for before build (%s) is empty *)
| ReleaseMismatch (before_product after_product : cstr)
    (* Builds have different product releases (%s != %s) *)
| MutuallyExclusive      (* The -T and -E options are mutually exclusive *)
| UnknownTest (inspection : cstr)  (* Unknown test specified: `%s` *)
| SeeHelp                (* See `%s --help` for more information. *)
| InvalidFormat (optarg : cstr)
| WorkdirExpand (optarg : cstr)
| GetoptCode (c : Z)
| ConfigUnreadable (cfgfile : cstr)
| DefaultConfigUnreadable
| ConfigFailed           (* Failed to read configuration file *)
| InvalidBuildSpec       (* Invalid before and after build specification. *)
| FetchOnlySingleBuild   (* Fetch only mode takes a single build ... *)
| RpmConfigUnreadable
| UnsupportedArch (token : cstr)
| MkdirFailed (workdir : cstr)
| GatherFailed           (* Failed to gather specified builds. *)
| RmtreeFailed (workdir : cstr).

(** What [get_product_release] hands back: the product release, NULL after
    a diagnostic, or no defined result at all. *)
Inductive release_result : Type :=
| Release (product : cstr)
| NoRelease (d : diag)
| ReleaseUndefined.

(* ================================================================= *)
(** ** get_product_release (lines 77-134) *)

Section GetProductRelease.

(** [strdup] returns a copy or NULL. *)
Variable strdup : cstr -> option cstr.

Definition get_product_release (before : option cstr) (after : cstr)
  : release_result :=
  match rindex after "." with
  | None => NoRelease (AfterReleaseEmpty after)
  | Some pos =>
      let pos := (pos + 1)%nat in
      match strdup (skipn pos after) with
      | None => NoRelease (AfterReleaseEmpty after)
      | Some after_product =>
          let after_product :=
            truncate_at (strcspn after_product (cs "/")) after_product in
          match before with
          | Some before =>
              (* pos = rindex(before, '.') + 1, with no test for NULL:
                 strdup reads through NULL + 1 when there is no period *)
              match rindex before "." with
              | None => ReleaseUndefined
              | Some pos =>
                  let pos := (pos + 1)%nat in
                  match strdup (skipn pos before) with
                  | None => NoRelease (BeforeReleaseEmpty before)
                  | Some before_product =>
                      let before_product :=
                        truncate_at (strcspn before_product (cs "/"))
                                    before_product in
                      if negb (strcmp before_product after_product =? 0)%Z
                      then NoRelease
                             (ReleaseMismatch before_product after_product)
                      else Release after_product
                  end
              end
          | None => Release after_product
          end
      end
  end.

End GetProductRelease.

(* ================================================================= *)
(** ** The run context and the collaborators *)

Definition EXIT_SUCCESS : Z := 0.
Definition EXIT_FAILURE : Z := 1.
Definition UINT64_MAX : Z := 2 ^ 64 - 1.
Definition CFGFILE : cstr := cs "/etc/rpminspect/rpminspect.conf".
Definition DEFAULT_WORKDIR : cstr := cs "/var/tmp/rpminspect".

(** [~x] on a [uint64_t]. *)
Definition not64 (x : Z) : Z := Z.lxor x UINT64_MAX.

(** The fields of [struct rpminspect] that [main] reads or writes.
    [ri_results] is the accumulated result list; the NULL pointer is the
    empty list. *)
Record rpminspect : Type := mkri {
  ri_verbose : bool;
  ri_product_release : option cstr;
  ri_tests : Z;
  ri_workdir : cstr;
  ri_worksubdir : cstr;
  ri_before : option cstr;
  ri_after : option cstr;
  ri_arches : option (list cstr);
  ri_results : list cstr
}.

Definition set_verbose (ri : rpminspect) (v : bool) : rpminspect :=
  mkri v (ri_product_release ri) (ri_tests ri) (ri_workdir ri)
       (ri_worksubdir ri) (ri_before ri) (ri_after ri) (ri_arches ri)
       (ri_results ri).
Definition set_product_release (ri : rpminspect) (v : option cstr) :=
  mkri (ri_verbose ri) v (ri_tests ri) (ri_workdir ri)
       (ri_worksubdir ri) (ri_before ri) (ri_after ri) (ri_arches ri)
       (ri_results ri).
Definition set_tests (ri : rpminspect) (v : Z) :=
  mkri (ri_verbose ri) (ri_product_release ri) v (ri_workdir ri)
       (ri_worksubdir ri) (ri_before ri) (ri_after ri) (ri_arches ri)
       (ri_results ri).
Definition set_workdir (ri : rpminspect) (v : cstr) :=
  mkri (ri_verbose ri) (ri_product_release ri) (ri_tests ri) v
       (ri_worksubdir ri) (ri_before ri) (ri_after ri) (ri_arches ri)
       (ri_results ri).
Definition set_before (ri : rpminspect) (v : option cstr) :=
  mkri (ri_verbose ri) (ri_product_release ri) (ri_tests ri) (ri_workdir ri)
       (ri_worksubdir ri) v (ri_after ri) (ri_arches ri) (ri_results ri).
Definition set_after (ri : rpminspect) (v : option cstr) :=
  mkri (ri_verbose ri) (ri_product_release ri) (ri_tests ri) (ri_workdir ri)
       (ri_worksubdir ri) (ri_before ri) v (ri_arches ri) (ri_results ri).
Definition set_arches (ri : rpminspect) (v : option (list cstr)) :=
  mkri (ri_verbose ri) (ri_product_release ri) (ri_tests ri) (ri_workdir ri)
       (ri_worksubdir ri) (ri_before ri) (ri_after ri) v (ri_results ri).

(** One entry of the [inspections] table. The driver receives [&ri] and
    may change it. *)
Record inspection : Type := mkinsp {
  insp_flag : Z;
  insp_name : cstr;
  insp_single_build : bool;
  insp_driver : rpminspect -> bool * rpminspect
}.

(** One entry of the [formats] table; its driver only writes output. *)
Record format : Type := mkfmt {
  fmt_type : Z;
  fmt_name : cstr
}.

(** Everything [main] calls and does not define. A table is the list of its
    entries; the loops over a table stop at the terminating entry (flag 0,
    type -1), and the end of the list stands for it too. *)
Record collaborators : Type := mkcollab {
  inspections : list inspection;
  formats : list format;
  strdup : cstr -> option cstr;          (* inside get_product_release *)
  access : cstr -> Z;                    (* access(path, F_OK|R_OK) *)
  glob : cstr -> Z * list cstr;          (* return value and gl_pathv *)
  init_rpminspect : cstr -> Z * rpminspect;
  init_librpm : Z;
  get_all_arches : rpminspect -> list cstr;
  mkdirp : cstr -> Z -> Z;
  gather_builds : rpminspect -> bool -> Z * rpminspect;
  rmtree : cstr -> Z
}.

(** What can be observed of a run, in order. *)
Inductive event : Type :=
| Stderr (d : diag)
| PrintUsage
| PrintVersion
| PrintList
| PrintKeeping (worksubdir : cstr)
| CallInitRpminspect (cfgfile : cstr)
| CallFreeRpminspect
| CallInitLibrpm
| CallGetAllArches
| CallMkdirp (workdir : cstr) (mode : Z)
| CallGatherBuilds (fetch_only : bool)
| CallDriver (i : nat)                   (* inspections[i].driver(&ri) *)
| CallFormat (formatidx : Z) (results : list cstr) (output : option cstr)
| CallRmtree (workdir : cstr).

(** How a piece of [main] ends: control goes on with a value, the process
    exits with a status ([exit] or [return] from [main]), an [assert]
    aborts it, or the behaviour is undefined. *)
Inductive res (A : Type) : Type :=
| Ret (a : A)
| Exit (status : Z)
| Aborted
| Undefined.
Arguments Exit {A} status.
Arguments Aborted {A}.
Arguments Undefined {A}.

Definition M (A : Type) : Type := (res A * list event)%type.

Definition pure {A} (a : A) : M A := (Ret a, []).
Definition exit {A} (status : Z) : M A := (Exit status, []).
Definition abort {A} : M A := (Aborted, []).
Definition undefined {A} : M A := (Undefined, []).
Definition emit (e : event) : M unit := (Ret tt, [e]).

Definition bind {A B} (m : M A) (f : A -> M B) : M B :=
  match m with
  | (Ret a, t) => (fst (f a), t ++ snd (f a))
  | (Exit s, t) => (Exit s, t)
  | (Aborted, t) => (Aborted, t)
  | (Undefined, t) => (Undefined, t)
  end.

Notation "x <- m ;; k" := (bind m (fun x => k))
  (at level 61, m at next level, right associativity).
Notation "m ;; k" := (bind m (fun _ => k))
  (at level 61, right associativity).

(* ================================================================= *)
(** ** check_inspection_options, check_found, process_inspection_flag *)

(** Lines 139-151. *)
Definition check_inspection_options (inspection_opt : bool) : M unit :=
  if inspection_opt then
    emit (Stderr MutuallyExclusive) ;;
    emit (Stderr SeeHelp) ;;
    exit EXIT_FAILURE
  else pure tt.

(** Lines 157-170. *)
Definition check_found (found : bool) (inspection : cstr) : M unit :=
  if negb found then
    emit (Stderr (UnknownTest inspection)) ;;
    emit (Stderr SeeHelp) ;;
    exit EXIT_FAILURE
  else pure tt.

(** The [for] loop of lines 202-215 from entry [i] on: [(found, *selected)]. *)
Fixpoint find_inspection (table : list inspection) (inspection : cstr)
         (exclude : bool) (selected : Z) : bool * Z :=
  match table with
  | [] => (false, selected)
  | e :: rest =>
      if (insp_flag e =? 0)%Z then (false, selected)
      else if (strcasecmp inspection (insp_name e) =? 0)%Z then
        if exclude then (true, Z.land selected (not64 (insp_flag e)))
        else (true, Z.lor selected (insp_flag e))
      else find_inspection rest inspection exclude selected
  end.

(** Lines 183-218: the returned flag and the new value of [*selected]. *)
Definition process_inspection_flag (w : collaborators) (inspection : cstr)
           (exclude : bool) (selected : Z) : bool * Z :=
  if (strcasecmp inspection (cs "ALL") =? 0)%Z then
    if exclude then (true, 0%Z) else (true, UINT64_MAX)
  else find_inspection (inspections w) inspection exclude selected.

(** The loop of lines 292-295 over the tokens of one -T or -E list. *)
Fixpoint selection_loop (w : collaborators) (tokens : list cstr)
         (exclude : bool) (selected : Z) : M Z :=
  match tokens with
  | [] => pure selected
  | inspection :: rest =>
      let r := process_inspection_flag w inspection exclude selected in
      check_found (fst r) inspection ;;
      selection_loop w rest exclude (snd r)
  end.

(* ================================================================= *)
(** ** main: option processing (lines 266-398) *)

(** What [getopt_long] returns for one option, with [optarg]. *)
Inductive getopt_result : Type :=
| Opt_c (optarg : cstr)
| Opt_T (optarg : cstr)
| Opt_E (optarg : cstr)
| Opt_a (optarg : cstr)
| Opt_r (optarg : cstr)
| Opt_o (optarg : cstr)
| Opt_F (optarg : cstr)
| Opt_l
| Opt_w (optarg : cstr)
| Opt_f
| Opt_k
| Opt_v
| Opt_help                 (* '?', also what getopt returns for a bad option *)
| Opt_V
| Opt_other (c : Z).

(** The local variables of [main] that outlive the option loop. *)
Record locals : Type := mklocals {
  cfgfile : option cstr;
  archopt : option cstr;
  workdir : option cstr;
  output : option cstr;
  release : option cstr;
  formatidx : Z;
  fetch_only : bool;
  keep : bool;
  verbose : bool;
  selected : Z;
  inspection_opt : bool;
  exclude : bool
}.

(** Their initial values (lines 244-260). *)
Definition initial_locals : locals :=
  mklocals None None None None None (-1) false false false 0 false false.

Definition set_cfgfile (l : locals) (v : option cstr) : locals :=
  mklocals v (archopt l) (workdir l) (output l) (release l) (formatidx l)
           (fetch_only l) (keep l) (verbose l) (selected l)
           (inspection_opt l) (exclude l).
Definition set_archopt (l : locals) (v : option cstr) : locals :=
  mklocals (cfgfile l) v (workdir l) (output l) (release l) (formatidx l)
           (fetch_only l) (keep l) (verbose l) (selected l)
           (inspection_opt l) (exclude l).
Definition set_workdir_opt (l : locals) (v : option cstr) : locals :=
  mklocals (cfgfile l) (archopt l) v (output l) (release l) (formatidx l)
           (fetch_only l) (keep l) (verbose l) (selected l)
           (inspection_opt l) (exclude l).
Definition set_output (l : locals) (v : option cstr) : locals :=
  mklocals (cfgfile l) (archopt l) (workdir l) v (release l) (formatidx l)
           (fetch_only l) (keep l) (verbose l) (selected l)
           (inspection_opt l) (exclude l).
Definition set_release (l : locals) (v : option cstr) : locals :=
  mklocals (cfgfile l) (archopt l) (workdir l) (output l) v (formatidx l)
           (fetch_only l) (keep l) (verbose l) (selected l)
           (inspection_opt l) (exclude l).
Definition set_formatidx (l : locals) (v : Z) : locals :=
  mklocals (cfgfile l) (archopt l) (workdir l) (output l) (release l) v
           (fetch_only l) (keep l) (verbose l) (selected l)
           (inspection_opt l) (exclude l).
Definition set_fetch_only (l : locals) (v : bool) : locals :=
  mklocals (cfgfile l) (archopt l) (workdir l) (output l) (release l)
           (formatidx l) v (keep l) (verbose l) (selected l)
           (inspection_opt l) (exclude l).
Definition set_keep (l : locals) (v : bool) : locals :=
  mklocals (cfgfile l) (archopt l) (workdir l) (output l) (release l)
           (formatidx l) (fetch_only l) v (verbose l) (selected l)
           (inspection_opt l) (exclude l).
Definition set_verbose_opt (l : locals) (v : bool) : locals :=
  mklocals (cfgfile l) (archopt l) (workdir l) (output l) (release l)
           (formatidx l) (fetch_only l) (keep l) v (selected l)
           (inspection_opt l) (exclude l).
Definition set_selection (l : locals) (sel : Z) (iopt excl : bool) : locals :=
  mklocals (cfgfile l) (archopt l) (workdir l) (output l) (release l)
           (formatidx l) (fetch_only l) (keep l) (verbose l) sel iopt excl.

(** The loop of lines 310-315: the new value of [formatidx]. *)
Fixpoint find_format (table : list format) (optarg : cstr) (formatidx : Z)
  : Z :=
  match table with
  | [] => formatidx
  | f :: rest =>
      if (fmt_type f =? -1)%Z then formatidx
      else if (strcasecmp (fmt_name f) optarg =? 0)%Z then fmt_type f
      else find_format rest optarg formatidx
  end.

(** Cases 'T' and 'E' (lines 279-298); [is_E] tells which. *)
Definition selection_option (w : collaborators) (is_E : bool)
           (optarg : cstr) (l : locals) : M locals :=
  check_inspection_options (inspection_opt l) ;;
  let selected := if is_E then UINT64_MAX else 0%Z in
  let exclude := is_E in
  selected <- selection_loop w (strsep_all optarg (cs ",")) exclude selected ;;
  pure (set_selection l selected true exclude).

(** The body of the [switch] for one option. *)
Definition option_case (w : collaborators) (c : getopt_result) (l : locals)
  : M locals :=
  match c with
  | Opt_c optarg => pure (set_cfgfile l (Some optarg))
  | Opt_T optarg => selection_option w false optarg l
  | Opt_E optarg => selection_option w true optarg l
  | Opt_a optarg => pure (set_archopt l (Some optarg))
  | Opt_r optarg => pure (set_release l (Some optarg))
  | Opt_o optarg => pure (set_output l (Some optarg))
  | Opt_F optarg =>
      let formatidx := find_format (formats w) optarg (formatidx l) in
      if (formatidx <? 0)%Z then
        emit (Stderr (InvalidFormat optarg)) ;;
        exit EXIT_FAILURE
      else pure (set_formatidx l formatidx)
  | Opt_l => emit PrintList ;; exit EXIT_SUCCESS
  | Opt_w optarg =>
      match index optarg "~" with
      | Some _ =>
          let (j, gl_pathv) := glob w optarg in
          if (j =? 0)%Z && (List.length gl_pathv =? 1)%nat then
            pure (set_workdir_opt l (Some (hd [] gl_pathv)))
          else
            emit (Stderr (WorkdirExpand optarg)) ;;
            exit EXIT_FAILURE
      | None => pure (set_workdir_opt l (Some optarg))
      end
  | Opt_f => pure (set_keep (set_fetch_only l true) true)
  | Opt_k => pure (set_keep l true)
  | Opt_v => pure (set_verbose_opt l true)
  | Opt_help => emit PrintUsage ;; exit 0
  | Opt_V => emit PrintVersion ;; exit 0
  | Opt_other c => emit (Stderr (GetoptCode c)) ;; exit EXIT_FAILURE
  end.

(** The [while (1)] loop over the options [getopt_long] delivers; the end
    of the list is its return value -1. *)
Fixpoint getopt_loop (w : collaborators) (opts : list getopt_result)
         (l : locals) : M locals :=
  match opts with
  | [] => pure l
  | c :: rest => l' <- option_case w c l ;; getopt_loop w rest l'
  end.

(* ================================================================= *)
(** ** main: from the configuration file to the working directory *)

(** Lines 407-439. *)
Definition main_config (w : collaborators) (l : locals) : M rpminspect :=
  cfgfile <-
    match cfgfile l with
    | Some f =>
        if (access w f =? -1)%Z then
          emit (Stderr (ConfigUnreadable f)) ;; exit EXIT_FAILURE
        else pure f
    | None =>
        if (access w CFGFILE =? 0)%Z then pure CFGFILE
        else emit (Stderr DefaultConfigUnreadable) ;; exit EXIT_FAILURE
    end ;;
  emit (CallInitRpminspect cfgfile) ;;
  let (rc, ri) := init_rpminspect w cfgfile in
  if negb (rc =? 0)%Z then
    emit (Stderr ConfigFailed) ;; exit EXIT_FAILURE
  else
    let ri := set_verbose ri (verbose l) in
    let ri := set_product_release ri (release l) in
    let ri :=
      if negb (selected l =? 0)%Z || exclude l
      then set_tests ri (selected l) else ri in
    let ri :=
      match workdir l with
      | Some workdir => set_workdir ri workdir
      | None => ri
      end in
    pure ri.

(** Lines 441-470; [args] are [argv[optind]] to [argv[argc - 1]]. *)
Definition main_builds (l : locals) (args : list cstr) (ri : rpminspect)
  : M rpminspect :=
  ri <-
    match args with
    | [a] => pure (set_after ri (Some a))
    | [b; a] => pure (set_after (set_before ri (Some b)) (Some a))
    | _ =>
        emit (Stderr InvalidBuildSpec) ;;
        emit (Stderr SeeHelp) ;;
        emit CallFreeRpminspect ;;
        exit EXIT_FAILURE
    end ;;
  match fetch_only l, ri_before ri with
  | true, Some _ =>
      emit (Stderr FetchOnlySingleBuild) ;;
      emit (Stderr SeeHelp) ;;
      emit CallFreeRpminspect ;;
      exit EXIT_FAILURE
  | _, _ => pure ri
  end.

(** Lines 472-483. *)
Definition main_release (w : collaborators) (ri : rpminspect)
  : M rpminspect :=
  match ri_product_release ri with
  | Some _ => pure ri
  | None =>
      match ri_after ri with
      | None => abort                        (* assert(after != NULL) *)
      | Some after =>
          match get_product_release (strdup w) (ri_before ri) after with
          | Release product => pure (set_product_release ri (Some product))
          | NoRelease d =>
              emit (Stderr d) ;;
              emit CallFreeRpminspect ;;
              exit EXIT_FAILURE
          | ReleaseUndefined => undefined
          end
      end
  end.

(** Lines 485-490. *)
Definition main_librpm (w : collaborators) : M unit :=
  emit CallInitLibrpm ;;
  if negb (init_librpm w =? 0)%Z then
    emit (Stderr RpmConfigUnreadable) ;; exit EXIT_FAILURE
  else pure tt.

(** The [TAILQ_FOREACH] of lines 509-514. *)
Fixpoint arch_found (token : cstr) (valid_arches : list cstr) : bool :=
  match valid_arches with
  | [] => false
  | arch :: rest =>
      if (strcmp token arch =? 0)%Z then true else arch_found token rest
  end.

(** The [while] loop of lines 505-531; [arches] is what [ri.arches] holds
    so far. *)
Fixpoint collect_arches (valid_arches : list cstr) (tokens : list cstr)
         (arches : list cstr) : M (list cstr) :=
  match tokens with
  | [] => pure arches
  | token :: rest =>
      if negb (arch_found token valid_arches) then
        emit (Stderr (UnsupportedArch token)) ;;
        emit (Stderr SeeHelp) ;;
        exit EXIT_FAILURE
      else collect_arches valid_arches rest (arches ++ [token])
  end.

(** Lines 503-531 for one architecture option. *)
Definition validate_arches (valid_arches : list cstr) (archopt : cstr)
  : M (list cstr) :=
  collect_arches valid_arches (strsep_all archopt (cs ",")) [].

(** Lines 492-536. *)
Definition main_arches (w : collaborators) (l : locals) (ri : rpminspect)
  : M rpminspect :=
  match archopt l with
  | Some archopt =>
      let ri := set_arches ri (Some []) in
      emit CallGetAllArches ;;
      let valid_arches := get_all_arches w ri in
      arches <- validate_arches valid_arches archopt ;;
      pure (set_arches ri (Some arches))
  | None => pure ri
  end.

(** [S_IRWXU | S_IRGRP | S_IXGRP | S_IROTH | S_IXOTH] *)
Definition mode : Z := 493.

(** Lines 538-544. *)
Definition main_workdir (w : collaborators) (ri : rpminspect) : M unit :=
  emit (CallMkdirp (ri_workdir ri) mode) ;;
  if negb (mkdirp w (ri_workdir ri) mode =? 0)%Z then
    emit (Stderr (MkdirFailed (ri_workdir ri))) ;;
    emit CallFreeRpminspect ;;
    exit EXIT_FAILURE
  else pure tt.

(* ================================================================= *)
(** ** main: gathering, inspections, output, clean up *)

(** Lines 546-551: [ret] and the context after [gather_builds]. *)
Definition main_gather (w : collaborators) (l : locals) (ri : rpminspect)
  : M (Z * rpminspect) :=
  emit (CallGatherBuilds (fetch_only l)) ;;
  let (ret, ri) := gather_builds w ri (fetch_only l) in
  if negb (ret =? 0)%Z then
    emit (Stderr GatherFailed) ;; exit EXIT_FAILURE
  else pure (ret, ri).

Definition is_null {A} (p : option A) : bool :=
  match p with None => true | Some _ => false end.

(** The [for] loop of lines 555-569 from entry [i] on; [ret] is the local
    variable of [main]. *)
Fixpoint inspection_loop (table : list inspection) (i : nat)
         (ri : rpminspect) (ret : Z) : M (Z * rpminspect) :=
  match table with
  | [] => pure (ret, ri)
  | e :: rest =>
      if (insp_flag e =? 0)%Z then pure (ret, ri)
      else if (Z.land (ri_tests ri) (insp_flag e) =? 0)%Z then
        inspection_loop rest (S i) ri ret
      else if is_null (ri_before ri) && negb (insp_single_build e) then
        inspection_loop rest (S i) ri ret
      else
        emit (CallDriver i) ;;
        let (ok, ri) := insp_driver e ri in
        inspection_loop rest (S i) ri (if negb ok then EXIT_FAILURE else ret)
  end.

(** Lines 553-579. *)
Definition main_inspect (w : collaborators) (l : locals) (ri : rpminspect)
           (ret : Z) : M (Z * rpminspect) :=
  if negb (fetch_only l) then
    r <- inspection_loop (inspections w) 0 ri ret ;;
    let formatidx := if (formatidx l =? -1)%Z then 0%Z else formatidx l in
    match ri_results (snd r) with
    | [] => pure r
    | _ :: _ =>
        emit (CallFormat formatidx (ri_results (snd r)) (output l)) ;;
        pure r
    end
  else pure (ret, ri).

(** Lines 581-593. The value of [ret] is not used. *)
Definition main_cleanup (w : collaborators) (l : locals) (ri : rpminspect)
  : M Empty_set :=
  (if keep l then emit (PrintKeeping (ri_worksubdir ri))
   else
     emit (CallRmtree (ri_workdir ri)) ;;
     if negb (rmtree w (ri_workdir ri) =? 0)%Z
     then emit (Stderr (RmtreeFailed (ri_workdir ri)))
     else pure tt) ;;
  emit CallFreeRpminspect ;;
  exit EXIT_SUCCESS.

(** [main] up to the creation of the working directory (lines 266-544). *)
Definition main_setup (w : collaborators) (opts : list getopt_result)
           (args : list cstr) : M (locals * rpminspect) :=
  l <- getopt_loop w opts initial_locals ;;
  ri <- main_config w l ;;
  ri <- main_builds l args ri ;;
  ri <- main_release w ri ;;
  main_librpm w ;;
  ri <- main_arches w l ri ;;
  main_workdir w ri ;;
  pure (l, ri).

(** [main] once the working directory exists (lines 546-593). *)
Definition main_run (w : collaborators) (l : locals) (ri : rpminspect)
  : M Empty_set :=
  r <- main_gather w l ri ;;
  r <- main_inspect w l (snd r) (fst r) ;;
  main_cleanup w l (snd r).

(** [main], given the options [getopt_long] delivers and the remaining
    arguments. *)
Definition main (w : collaborators) (opts : list getopt_result)
           (args : list cstr) : M Empty_set :=
  x <- main_setup w opts args ;;
  main_run w (fst x) (snd x).

(* ================================================================= *)
(** ** Vocabulary of the properties *)

(** The release of the working directory: its removal, or the message that
    it is kept. *)
Definition is_release_step (e : event) : bool :=
  match e with
  | PrintKeeping _ | CallRmtree _ => true
  | _ => false
  end.

Definition is_mkdirp (e : event) : bool :=
  match e with CallMkdirp _ _ => true | _ => false end.

Definition is_driver_call (e : event) : bool :=
  match e with CallDriver _ => true | _ => false end.

(** The steps that follow the specification of the builds. *)
Definition is_later_step (e : event) : bool :=
  match e with
  | Stderr (AfterReleaseEmpty _) | Stderr (BeforeReleaseEmpty _)
  | Stderr (ReleaseMismatch _ _)
  | CallInitLibrpm | CallGetAllArches | Stderr (UnsupportedArch _)
  | CallMkdirp _ _ | CallGatherBuilds _ | CallDriver _
  | CallFormat _ _ _ | CallRmtree _ | PrintKeeping _ => true
  | _ => false
  end.

Definition is_selection (c : getopt_result) : bool :=
  match c with Opt_T _ | Opt_E _ => true | _ => false end.

Definition is_Opt_T (c : getopt_result) : bool :=
  match c with Opt_T _ => true | _ => false end.

Definition is_Opt_E (c : getopt_result) : bool :=
  match c with Opt_E _ => true | _ => false end.

(** The run failed on the -T/-E conflict. *)
Definition conflicting_selection (r : M Empty_set) : Prop :=
  fst r = Exit EXIT_FAILURE /\ In (Stderr MutuallyExclusive) (snd r).

(** Entry [e] of the table is selected in [ri] and applies to its builds
    (the two tests of lines 557 and 562). *)
Definition runs_in (ri : rpminspect) (e : inspection) : bool :=
  negb (Z.land (ri_tests ri) (insp_flag e) =? 0)%Z
  && negb (is_null (ri_before ri) && negb (insp_single_build e)).

(** The entries of a table before its terminating entry. *)
Fixpoint entries (table : list inspection) : list inspection :=
  match table with
  | [] => []
  | e :: rest => if (insp_flag e =? 0)%Z then [] else e :: entries rest
  end.

(** The indices, from [i] on, of the entries that run in [ri]. *)
Fixpoint running_indices (ri : rpminspect) (es : list inspection) (i : nat)
  : list nat :=
  match es with
  | [] => []
  | e :: rest =>
      if runs_in ri e then i :: running_indices ri rest (S i)
      else running_indices ri rest (S i)
  end.

(** A driver that leaves the selection and the before build alone. *)
Definition driver_keeps_selection (e : inspection) : Prop :=
  forall ri, ri_tests (snd (insp_driver e ri)) = ri_tests ri
             /\ ri_before (snd (insp_driver e ri)) = ri_before ri.

(** The product release of an identifier as [get_product_release] cuts it:
    what follows offset [i], up to the first slash. *)
Definition cut_tag (id : cstr) (i : nat) : cstr :=
  let t := skipn (S i) id in truncate_at (strcspn t (cs "/")) t.

(** [tag] is the product release of the identifier [id]: what stands
    between the last period of [id] and the first slash after it (or the
    end of [id]). *)
Definition tag_of (id tag : cstr) : Prop :=
  exists pre rest,
    id = pre ++ "."%char :: tag ++ rest
    /\ ~ In "."%char (tag ++ rest)
    /\ ~ In "/"%char tag
    /\ (rest = [] \/ exists r, rest = "/"%char :: r).

(** The flag [process_inspection_flag] returns for a token. *)
Definition is_known (w : collaborators) (token : cstr) : bool :=
  fst (process_inspection_flag w token false 0).

(** The tokens of a list joined again by commas. *)
Fixpoint join_commas (tokens : list cstr) : cstr :=
  match tokens with
  | [] => []
  | [t] => t
  | t :: rest => t ++ ","%char :: join_commas rest
  end.

(* ================================================================= *)
(** ** The resolver in the words of the specification *)

Module Spec.

(** "with any trailing '/' characters stripped" *)
Fixpoint strip_trailing_slashes (s : cstr) : cstr :=
  match s with
  | [] => []
  | x :: s' =>
      match strip_trailing_slashes s' with
      | [] => if Ascii.eqb x "/" then [] else [x]
      | t => x :: t
      end
  end.

(** "the substring following the last '.' character in the identifier,
    with any trailing '/' characters stripped"; no '.' or an empty trimmed
    result is a failure. *)
Definition tag (id : cstr) : option cstr :=
  match rindex id "." with
  | None => None
  | Some i =>
      match strip_trailing_slashes (skipn (S i) id) with
      | [] => None
      | t => Some t
      end
  end.

(** [resolve(before, after)] *)
Definition resolve (before : option cstr) (after : cstr) : release_result :=
  match tag after with
  | None => NoRelease (AfterReleaseEmpty after)
  | Some ta =>
      match before with
      | None => Release ta
      | Some b =>
          match tag b with
          | None => NoRelease (BeforeReleaseEmpty b)
          | Some tb =>
              if cstr_eq_dec tb ta then Release ta
              else NoRelease (ReleaseMismatch tb ta)
          end
      end
  end.

End Spec.

(* ================================================================= *)
(** ** Sample collaborators, for the concrete runs below *)

Module Sample.

Definition strdup_ok (s : cstr) : option cstr := Some s.

Definition ri0 : rpminspect :=
  mkri false None UINT64_MAX DEFAULT_WORKDIR
       (cs "/var/tmp/rpminspect/work.1") None None None [].

Definition add_result (ri : rpminspect) (r : cstr) : rpminspect :=
  mkri (ri_verbose ri) (ri_product_release ri) (ri_tests ri) (ri_workdir ri)
       (ri_worksubdir ri) (ri_before ri) (ri_after ri) (ri_arches ri)
       (ri_results ri ++ [r]).

Definition passes (name : cstr) (ri : rpminspect) : bool * rpminspect :=
  (true, add_result ri name).
Definition fails (name : cstr) (ri : rpminspect) : bool * rpminspect :=
  (false, add_result ri name).

Definition table : list inspection :=
  [ mkinsp 1 (cs "license") true (passes (cs "license"));
    mkinsp 2 (cs "emptyrpm") true (fails (cs "emptyrpm"));
    mkinsp 4 (cs "elf") false (fails (cs "elf"));
    mkinsp 8 (cs "manpage") true (passes (cs "manpage"));
    mkinsp 0 [] false (passes []) ].

Definition format_table : list format :=
  [ mkfmt 0 (cs "text"); mkfmt 1 (cs "json"); mkfmt (-1) [] ].

(** Everything succeeds; two of the drivers report failure. *)
Definition world : collaborators :=
  mkcollab table format_table strdup_ok
           (fun _ => 0%Z) (fun p => (0%Z, [p])) (fun _ => (0%Z, ri0)) 0%Z
           (fun _ => [cs "x86_64"; cs "noarch"])
           (fun _ _ => 0%Z) (fun ri _ => (0%Z, ri)) (fun _ => 0%Z).

(** As [world], but the builds cannot be gathered. *)
Definition world_no_builds : collaborators :=
  mkcollab table format_table strdup_ok
           (fun _ => 0%Z) (fun p => (0%Z, [p])) (fun _ => (0%Z, ri0)) 0%Z
           (fun _ => [cs "x86_64"; cs "noarch"])
           (fun _ _ => 0%Z) (fun ri _ => (1%Z, ri)) (fun _ => 0%Z).

(** As [world], with a [glob] that expands to one path. *)
Definition world_tilde : collaborators :=
  mkcollab table format_table strdup_ok
           (fun _ => 0%Z) (fun _ => (0%Z, [cs "/home/user/w"]))
           (fun _ => (0%Z, ri0)) 0%Z
           (fun _ => [cs "x86_64"; cs "noarch"])
           (fun _ _ => 0%Z) (fun ri _ => (0%Z, ri)) (fun _ => 0%Z).

End Sample.

(* ================================================================= *)
(** ** Vocabulary of the further properties *)

(** [strdup] as the C library has it: a copy of its argument, or NULL. *)
Definition copy_or_null (sd : cstr -> option cstr) : Prop :=
  forall s r, sd s = Some r -> r = s.

(** A value of type [uint64_t]. *)
Definition in_uint64 (z : Z) : Prop := (0 <= z <= UINT64_MAX)%Z.

(** The token is the word ALL, in any case. *)
Definition is_ALL (token : cstr) : bool :=
  (strcasecmp token (cs "ALL") =? 0)%Z.

(** The token is the name of the entry, in any case. *)
Definition names (token : cstr) (e : inspection) : bool :=
  (strcasecmp token (insp_name e) =? 0)%Z.

(** [e] is the entry that the loop of [process_inspection_flag] stops at
    for the token: no entry before it has flag 0 or the name. *)
Definition first_named (table : list inspection) (token : cstr)
           (e : inspection) : Prop :=
  exists pre post,
    table = pre ++ e :: post
    /\ Forall (fun x => insp_flag x <> 0%Z /\ names token x = false) pre
    /\ insp_flag e <> 0%Z
    /\ names token e = true.

(** The flag that a token of a -T or -E list stands for: all bits for ALL,
    the flag of the entry it names otherwise. *)
Definition token_flag (table : list inspection) (token : cstr) (f : Z)
  : Prop :=
  (is_ALL token = true /\ f = UINT64_MAX)
  \/ (is_ALL token = false
      /\ exists e, first_named table token e /\ f = insp_flag e).

(** The events of [main] before the builds are gathered. *)
Definition is_setup_event (e : event) : bool :=
  match e with
  | Stderr _ | PrintUsage | PrintVersion | PrintList
  | CallInitRpminspect _ | CallFreeRpminspect | CallInitLibrpm
  | CallGetAllArches | CallMkdirp _ _ => true
  | _ => false
  end.

Definition is_rmtree (e : event) : bool :=
  match e with CallRmtree _ => true | _ => false end.

Definition is_format_call (e : event) : bool :=
  match e with CallFormat _ _ _ => true | _ => false end.

(** How a part of the set-up may end: it goes on, or the process exits
    with status 0 or 1; [undefined_allowed] tells whether undefined
    behaviour is among the ends. All it does are set-up events. *)
Definition setup_outcome {A} (undefined_allowed : bool) (m : M A) : Prop :=
  Forall (fun e => is_setup_event e = true) (snd m)
  /\ match fst m with
     | Ret _ => True
     | Exit s => s = EXIT_SUCCESS \/ s = EXIT_FAILURE
     | Aborted => False
     | Undefined => undefined_allowed = true
     end.

(** The entries of the formats table before its terminating entry. *)
Fixpoint format_entries (table : list format) : list format :=
  match table with
  | [] => []
  | f :: rest => if (fmt_type f =? -1)%Z then [] else f :: format_entries rest
  end.

(** Closes a goal [setup_outcome] on a part of [main] that is evaluated. *)
Ltac outcome_done :=
  unfold setup_outcome; simpl;
  split; [repeat constructor
         |first [exact I | now left | now right | reflexivity]].

(** Membership in a list that is written out. *)
Ltac in_list := simpl; repeat (first [left; reflexivity | right]).
Ltac not_in_list := simpl; intuition discriminate.

(* ================================================================= *)
(** * Properties *)

(* ================================================================= *)
(** ** Sequencing *)

Lemma bind_Ret {A B} (a : A) (t : list event) (f : A -> M B) :
  bind (Ret a, t) f = (fst (f a), t ++ snd (f a)).
Proof. reflexivity. Qed.

Lemma bind_pure {A B} (a : A) (f : A -> M B) : bind (pure a) f = f a.
Proof. unfold pure. rewrite bind_Ret. simpl. now destruct (f a). Qed.

Lemma bind_Exit {A B} (s : Z) (t : list event) (f : A -> M B) :
  bind (Exit s, t) f = (Exit s, t).
Proof. reflexivity. Qed.

Lemma bind_is {A B} (m : M A) (f : A -> M B) a t :
  m = (Ret a, t) -> bind m f = (fst (f a), t ++ snd (f a)).
Proof. now intros ->. Qed.

Lemma bind_exits {A B} (m : M A) (f : A -> M B) s t :
  m = (Exit s, t) -> bind m f = (Exit s, t).
Proof. now intros ->. Qed.

(** When a sequence goes on, both halves did. *)
Lemma bind_Ret_inv {A B} (m : M A) (f : A -> M B) b t :
  bind m f = (Ret b, t) ->
  exists a t1 t2, m = (Ret a, t1) /\ f a = (Ret b, t2) /\ t = t1 ++ t2.
Proof.
  destruct m as [[a| s | |] t1]; simpl; try discriminate.
  destruct (f a) as [r t2] eqn:E. simpl. intros H.
  injection H as -> <-. now exists a, t1, t2.
Qed.

Lemma bind_assoc {A B C} (m : M A) (f : A -> M B) (g : B -> M C) :
  bind (bind m f) g = bind m (fun a => bind (f a) g).
Proof.
  destruct m as [[a| s | |] t]; simpl; try reflexivity.
  destruct (f a) as [[b| s | |] t2]; simpl; try reflexivity.
  now rewrite app_assoc.
Qed.

(* ================================================================= *)
(** ** C strings *)

Lemma strcmp_refl a : strcmp a a = 0%Z.
Proof. induction a as [|x a IH]; simpl; [easy|]. now rewrite Ascii.eqb_refl. Qed.

Lemma strcmp_eq a b : strcmp a b = 0%Z <-> a = b.
Proof.
  split; [|intros ->; apply strcmp_refl].
  revert b. induction a as [|x a IH]; intros [|y b]; simpl; try easy.
  destruct (Ascii.eqb x y) eqn:E.
  - apply Ascii.eqb_eq in E. subst y. intros H. f_equal. now apply IH.
  - now destruct (nat_of_ascii x <? nat_of_ascii y)%nat.
Qed.

Lemma strcmp_eqb a b : (strcmp a b =? 0)%Z = true <-> a = b.
Proof. rewrite Z.eqb_eq. apply strcmp_eq. Qed.

Lemma strcmp_neq a b : (strcmp a b =? 0)%Z = false <-> a <> b.
Proof. rewrite Z.eqb_neq. now rewrite strcmp_eq. Qed.

Lemma existsb_eqb_single x c : existsb (Ascii.eqb x) [c] = Ascii.eqb x c.
Proof. simpl. apply orb_false_r. Qed.

Lemma rindex_None s c : rindex s c = None <-> ~ In c s.
Proof.
  induction s as [|x s IH]; simpl; [tauto|].
  destruct (rindex s c) as [i|].
  - split; [discriminate|]. intros H. exfalso.
    assert (N : ~ In c s) by tauto. apply IH in N. discriminate.
  - destruct (Ascii.eqb x c) eqn:E.
    + apply Ascii.eqb_eq in E. split; [discriminate|]. tauto.
    + apply Ascii.eqb_neq in E. split; [|easy]. intros _ [H|H]; [easy|].
      now apply IH.
Qed.

(** [rindex] finds the last occurrence: nothing after it is [c]. *)
Lemma rindex_Some s c i :
  rindex s c = Some i ->
  s = firstn i s ++ c :: skipn (S i) s /\ ~ In c (skipn (S i) s).
Proof.
  revert i. induction s as [|x s IH]; simpl; [discriminate|]. intros i.
  destruct (rindex s c) as [j|] eqn:R.
  - intros H. injection H as <-. destruct (IH j eq_refl) as [E N].
    split; [|exact N]. simpl. f_equal. exact E.
  - destruct (Ascii.eqb x c) eqn:E; [|discriminate].
    apply Ascii.eqb_eq in E. subst x. intros H. injection H as <-.
    simpl. split; [reflexivity|]. now apply rindex_None.
Qed.

(** The last occurrence, from a decomposition of the string. *)
Lemma rindex_app s c pre post :
  s = pre ++ c :: post -> ~ In c post ->
  rindex s c = Some (List.length pre).
Proof.
  intros -> N. induction pre as [|x pre IH]; simpl.
  - apply rindex_None in N. rewrite N. now rewrite Ascii.eqb_refl.
  - now rewrite IH.
Qed.

Lemma skipn_app_cons {A} (pre : list A) x post :
  skipn (S (List.length pre)) (pre ++ x :: post) = post.
Proof. induction pre; simpl; auto. Qed.

(** [strcspn] stops at the first byte of [reject], and not before. *)
Lemma strcspn_app t rest reject :
  (forall x, In x t -> existsb (Ascii.eqb x) reject = false) ->
  (rest = [] \/ exists y r, rest = y :: r /\ existsb (Ascii.eqb y) reject = true) ->
  truncate_at (strcspn (t ++ rest) reject) (t ++ rest) = t.
Proof.
  unfold truncate_at. intros Ht Hrest. induction t as [|x t IH]; simpl.
  - destruct Hrest as [->|(y & r & -> & E)]; simpl; [reflexivity|].
    now rewrite E.
  - rewrite (Ht x) by now left. simpl. f_equal. apply IH.
    intros z Hz. apply Ht. now right.
Qed.

Lemma strcspn_split s reject :
  let n := strcspn s reject in
  (forall x, In x (firstn n s) -> existsb (Ascii.eqb x) reject = false)
  /\ (skipn n s = []
      \/ exists y r, skipn n s = y :: r /\ existsb (Ascii.eqb y) reject = true).
Proof.
  induction s as [|x s IH]; simpl.
  - split; [easy|now left].
  - destruct (existsb (Ascii.eqb x) reject) eqn:E; simpl.
    + split; [easy|]. right. now exists x, s.
    + destruct IH as [IH1 IH2]. split; [|exact IH2].
      intros z [<-|Hz]; [exact E|now apply IH1].
Qed.

(* ================================================================= *)
(** ** get_product_release *)

Lemma slash_reject x : existsb (Ascii.eqb x) (cs "/") = Ascii.eqb x "/".
Proof. apply existsb_eqb_single. Qed.

(** [tag_of] names the value [get_product_release] computes from the offset
    of the last period. *)
Lemma tag_of_cut id t :
  tag_of id t ->
  exists i, rindex id "." = Some i /\ cut_tag id i = t.
Proof.
  intros (pre & rest & E & Ndot & Nslash & Hrest).
  exists (List.length pre). split.
  - now apply rindex_app with (post := t ++ rest).
  - unfold cut_tag. rewrite E, skipn_app_cons. apply strcspn_app.
    + intros x Hx. rewrite slash_reject. apply Ascii.eqb_neq.
      intros ->. contradiction.
    + destruct Hrest as [->|[r ->]]; [now left|right].
      exists "/"%char, r. split; [reflexivity|].
      rewrite slash_reject. apply Ascii.eqb_refl.
Qed.

(** Every identifier with a period has a product release in this sense. *)
Lemma cut_tag_of id i : rindex id "." = Some i -> tag_of id (cut_tag id i).
Proof.
  intros R. destruct (rindex_Some _ _ R) as [E N].
  unfold cut_tag, truncate_at.
  set (t := skipn (S i) id) in *.
  destruct (strcspn_split t (cs "/")) as [H1 H2].
  exists (firstn i id), (skipn (strcspn t (cs "/")) t).
  rewrite firstn_skipn. repeat split; try assumption.
  - intros H. apply H1 in H. rewrite slash_reject, Ascii.eqb_refl in H.
    discriminate.
  - destruct H2 as [->|(y & r & -> & Hy)]; [now left|right].
    rewrite slash_reject in Hy. apply Ascii.eqb_eq in Hy. subst y.
    now exists r.
Qed.

Lemma tag_of_unique id t1 t2 : tag_of id t1 -> tag_of id t2 -> t1 = t2.
Proof.
  intros H1 H2. apply tag_of_cut in H1, H2.
  destruct H1 as (i & R1 & <-), H2 as (j & R2 & <-). congruence.
Qed.

Section ReleaseFacts.

Variable sd : cstr -> option cstr.

Lemma release_no_period before after :
  ~ In "."%char after ->
  get_product_release sd before after = NoRelease (AfterReleaseEmpty after).
Proof.
  intros N. apply rindex_None in N. unfold get_product_release.
  now rewrite N.
Qed.

(** The diagnostic for the before build is written only when [strdup]
    fails. *)
Lemma release_before_empty_only_without_memory before after b :
  get_product_release sd before after = NoRelease (BeforeReleaseEmpty b) ->
  exists s, sd s = None.
Proof.
  unfold get_product_release.
  destruct (rindex after ".") as [i|]; [|discriminate].
  destruct (sd (skipn (i + 1) after)) as [ap|] eqn:Ea; [|discriminate].
  destruct before as [bf|]; [|discriminate].
  destruct (rindex bf ".") as [j|]; [|discriminate].
  destruct (sd (skipn (j + 1) bf)) as [bp|] eqn:Eb.
  - destruct (negb _); discriminate.
  - intros _. now exists (skipn (j + 1) bf).
Qed.

(** A before identifier without a period: no diagnostic names it. *)
Lemma release_before_no_period before after :
  ~ In "."%char before ->
  get_product_release sd (Some before) after
    = NoRelease (AfterReleaseEmpty after)
  \/ get_product_release sd (Some before) after = ReleaseUndefined.
Proof.
  intros N. apply rindex_None in N. unfold get_product_release.
  destruct (rindex after ".") as [i|]; [|now left].
  destruct (sd (skipn (i + 1) after)) as [ap|]; [|now left].
  rewrite N. now right.
Qed.

Hypothesis sd_copies : forall s, sd s = Some s.

Lemma release_single after i :
  rindex after "." = Some i ->
  get_product_release sd None after = Release (cut_tag after i).
Proof.
  intros R. unfold get_product_release. rewrite R, sd_copies.
  unfold cut_tag. now rewrite Nat.add_1_r.
Qed.

Lemma release_pair before after i j :
  rindex after "." = Some i -> rindex before "." = Some j ->
  get_product_release sd (Some before) after
  = if cstr_eq_dec (cut_tag before j) (cut_tag after i)
    then Release (cut_tag after i)
    else NoRelease (ReleaseMismatch (cut_tag before j) (cut_tag after i)).
Proof.
  intros Ra Rb. unfold get_product_release.
  rewrite Ra, sd_copies, Rb, sd_copies. rewrite !Nat.add_1_r.
  fold (cut_tag after i). fold (cut_tag before j).
  destruct (cstr_eq_dec (cut_tag before j) (cut_tag after i)) as [E|E].
  - apply strcmp_eqb in E. now rewrite E.
  - apply strcmp_neq in E. now rewrite E.
Qed.

End ReleaseFacts.

(** Where every slash after the last period is a trailing one, the cut at
    the first slash is the stripping of the trailing slashes. *)
Lemma strip_trailing_slashes_all rest :
  Forall (eq "/"%char) rest -> Spec.strip_trailing_slashes rest = [].
Proof.
  induction 1 as [|x rest <- _ IH]; simpl; [reflexivity|]. now rewrite IH.
Qed.

Lemma strip_trailing_slashes_tag t rest :
  ~ In "/"%char t -> Forall (eq "/"%char) rest ->
  Spec.strip_trailing_slashes (t ++ rest) = t.
Proof.
  intros N F. induction t as [|x t IH]; simpl.
  - now apply strip_trailing_slashes_all.
  - rewrite IH by (intros H; apply N; now right).
    destruct t; [|reflexivity].
    destruct (Ascii.eqb x "/") eqn:E; [|reflexivity].
    apply Ascii.eqb_eq in E. exfalso. apply N. now left.
Qed.

Lemma spec_tag_agrees pre t rest :
  ~ In "."%char (t ++ rest) -> ~ In "/"%char t -> t <> [] ->
  Forall (eq "/"%char) rest ->
  Spec.tag (pre ++ "."%char :: t ++ rest) = Some t
  /\ tag_of (pre ++ "."%char :: t ++ rest) t.
Proof.
  intros Nd Ns Ne F. split.
  - unfold Spec.tag.
    rewrite (@rindex_app _ "."%char pre (t ++ rest) eq_refl Nd).
    rewrite skipn_app_cons, strip_trailing_slashes_tag by assumption.
    destruct t; [contradiction|reflexivity].
  - exists pre, rest. repeat split; try assumption.
    destruct F as [|x r <- _]; [now left|right; now exists r].
Qed.

Lemma rindex_In s c i : rindex s c = Some i -> In c s.
Proof.
  intros R. destruct (in_dec ascii_dec c s) as [H|H]; [exact H|].
  apply rindex_None in H. congruence.
Qed.

Lemma In_rindex s c : In c s -> exists i, rindex s c = Some i.
Proof.
  intros H. destruct (rindex s c) as [i|] eqn:R; [now exists i|].
  apply rindex_None in R. contradiction.
Qed.

(** C10. For every identifier with a period, the product release that
    [get_product_release] extracts is the text between the last period and
    the first slash after it: everything from that slash on is dropped,
    whether or not the slash is a trailing one. This holds for the after
    build, and for the before build, whose release is the one compared and
    named in the mismatch diagnostic. *)
Theorem C10_release_cut_at_first_slash
        (sd : cstr -> option cstr) (after : cstr) :
  (forall s, sd s = Some s) ->
  In "."%char after ->
  exists ta,
    tag_of after ta
    /\ get_product_release sd None after = Release ta
    /\ forall before, In "."%char before ->
         exists tb,
           tag_of before tb
           /\ get_product_release sd (Some before) after
              = if cstr_eq_dec tb ta then Release ta
                else NoRelease (ReleaseMismatch tb ta).
Proof.
  intros Hsd Hin. destruct (In_rindex _ _ Hin) as [i R].
  exists (cut_tag after i). split; [now apply cut_tag_of|].
  split; [now apply release_single|].
  intros before Hb. destruct (In_rindex _ _ Hb) as [j Rb].
  exists (cut_tag before j). split; [now apply cut_tag_of|].
  now apply release_pair.
Qed.

Lemma C10_release_cut_at_first_slash_witness :
  exists ta,
    tag_of (cs "pkg-1.2.fc30/rest") ta
    /\ get_product_release Sample.strdup_ok None (cs "pkg-1.2.fc30/rest")
       = Release ta
    /\ forall before, In "."%char before ->
         exists tb,
           tag_of before tb
           /\ get_product_release Sample.strdup_ok (Some before)
                                  (cs "pkg-1.2.fc30/rest")
              = if cstr_eq_dec tb ta then Release ta
                else NoRelease (ReleaseMismatch tb ta).
Proof.
  apply (@C10_release_cut_at_first_slash Sample.strdup_ok
           (cs "pkg-1.2.fc30/rest")).
  - reflexivity.
  - in_list.
Defined.

(** The identifier of the claim's example. *)
Example release_inner_slash :
  get_product_release Sample.strdup_ok None (cs "pkg-1.2.fc30/rest")
  = Release (cs "fc30")
  /\ tag_of (cs "pkg-1.2.fc30/rest") (cs "fc30").
Proof.
  split; [reflexivity|].
  exists (cs "pkg-1.2"), (cs "/rest"). repeat split.
  - not_in_list.
  - not_in_list.
  - right. now exists (cs "rest").
Qed.

(** What [get_product_release] gives on identifiers with releases that
    are not empty. When the after identifier has no period, it fails and
    names the after build. When it has one (and so has the before
    identifier, when supplied) and the copies succeed, each release is the
    text between the last period and the first slash after it; with no
    before build the after release is returned; with a before build the
    after release is returned when the two are the same string, and the
    mismatch diagnostic names both otherwise. *)
Lemma release_of_tagged_identifiers
        (sd : cstr -> option cstr) (before : option cstr) (after : cstr) :
  (~ In "."%char after ->
   get_product_release sd before after = NoRelease (AfterReleaseEmpty after))
  /\ ((forall s, sd s = Some s) ->
      forall ta, tag_of after ta -> ta <> [] ->
        (before = None ->
         get_product_release sd before after = Release ta)
        /\ (forall b tb, before = Some b -> tag_of b tb -> tb <> [] ->
              (tb = ta ->
               get_product_release sd before after = Release ta)
              /\ (tb <> ta ->
                  get_product_release sd before after
                  = NoRelease (ReleaseMismatch tb ta)))).
Proof.
  split; [apply release_no_period|].
  intros Hsd ta Ha _. destruct (tag_of_cut Ha) as (i & Ra & Ea).
  split.
  - intros ->. rewrite (release_single sd Hsd _ Ra). now rewrite Ea.
  - intros b tb -> Hb _. destruct (tag_of_cut Hb) as (j & Rb & Eb).
    rewrite (release_pair sd Hsd _ _ Ra Rb), Ea, Eb.
    destruct (cstr_eq_dec tb ta); split; intros; congruence.
Qed.

Lemma tag_of_fc30_slash : tag_of (cs "pkg-1.3.0.fc30/") (cs "fc30").
Proof.
  exists (cs "pkg-1.3.0"), (cs "/"). repeat split.
  - not_in_list.
  - not_in_list.
  - right. now exists [].
Qed.

Lemma tag_of_fc30 : tag_of (cs "pkg-1.2.3.fc30") (cs "fc30").
Proof.
  exists (cs "pkg-1.2.3"), []. repeat split.
  - not_in_list.
  - not_in_list.
  - now left.
Qed.

Lemma release_of_tagged_identifiers_example :
  get_product_release Sample.strdup_ok (Some (cs "pkg-1.2.3.fc30"))
                      (cs "pkg-1.3.0.fc30/")
  = Release (cs "fc30")
  /\ get_product_release Sample.strdup_ok None (cs "pkg")
     = NoRelease (AfterReleaseEmpty (cs "pkg")).
Proof.
  split.
  - refine (proj1 (proj2 (proj2 (@release_of_tagged_identifiers Sample.strdup_ok
              (Some (cs "pkg-1.2.3.fc30")) (cs "pkg-1.3.0.fc30/"))
              (fun s => eq_refl) (cs "fc30") tag_of_fc30_slash _)
              (cs "pkg-1.2.3.fc30") (cs "fc30") eq_refl tag_of_fc30 _) _).
    + discriminate.
    + discriminate.
    + reflexivity.
  - apply (proj1 (@release_of_tagged_identifiers Sample.strdup_ok None (cs "pkg"))).
    not_in_list.
Defined.

(** C5 on the code. The comments of [get_product_release] say that
    trailing slashes are trimmed, and its diagnostic for the after build
    says that the release is empty. The code cuts the release at the first
    slash, trailing or not, and does not look whether what is left is
    empty: for the after identifier "pkg-1.2.fc30/rest" it returns "fc30"
    where trimming the trailing slashes leaves "fc30/rest", and for "pkg."
    it returns the empty release where the resolver of the specification
    fails. *)
Theorem C5_release_not_as_documented :
  get_product_release Sample.strdup_ok None (cs "pkg-1.2.fc30/rest")
    = Release (cs "fc30")
  /\ Spec.resolve None (cs "pkg-1.2.fc30/rest") = Release (cs "fc30/rest")
  /\ get_product_release Sample.strdup_ok None (cs "pkg.") = Release []
  /\ Spec.resolve None (cs "pkg.") = NoRelease (AfterReleaseEmpty (cs "pkg."))
  /\ ~ (forall before after,
          get_product_release Sample.strdup_ok before after
          = Spec.resolve before after).
Proof.
  repeat split.
  intros H. specialize (H None (cs "pkg-1.2.fc30/rest")). discriminate H.
Qed.

(** The two agree where the specification's examples live: a release that
    is not empty, followed by trailing slashes only. *)
Lemma resolve_agrees_single pre t rest :
  ~ In "."%char (t ++ rest) -> ~ In "/"%char t -> t <> [] ->
  Forall (eq "/"%char) rest ->
  get_product_release Sample.strdup_ok None (pre ++ "."%char :: t ++ rest)
  = Spec.resolve None (pre ++ "."%char :: t ++ rest).
Proof.
  intros Nd Ns Ne F. destruct (spec_tag_agrees pre Nd Ns Ne F) as [E T].
  unfold Spec.resolve. rewrite E.
  destruct (tag_of_cut T) as (i & R & C).
  rewrite (release_single Sample.strdup_ok (fun s => eq_refl) _ R).
  now rewrite C.
Qed.

(** C2 on the code. A before identifier without a period is handed to
    [strdup] as NULL + 1: no error result comes back. A before identifier
    that ends in a period gives an empty release, which is compared like
    any other. Neither is attributed to the before build. *)
Theorem C2_before_release_not_checked :
  get_product_release Sample.strdup_ok (Some (cs "pkg")) (cs "pkg-1.0-1.fc30")
    = ReleaseUndefined
  /\ fst (main Sample.world [] [cs "pkg"; cs "pkg-1.0-1.fc30"]) = Undefined
  /\ get_product_release Sample.strdup_ok (Some (cs "pkg."))
                         (cs "pkg-1.0-1.fc30")
     = NoRelease (ReleaseMismatch [] (cs "fc30"))
  /\ get_product_release Sample.strdup_ok (Some (cs "old.")) (cs "new.")
     = Release [].
Proof. repeat split. Qed.

(* ================================================================= *)
(** ** Comma-separated lists *)

Lemma strsep_all_nonempty s d : strsep_all s d <> [].
Proof.
  destruct s as [|x s]; simpl; [discriminate|].
  destruct (existsb (Ascii.eqb x) d); [discriminate|].
  destruct (strsep_all s d); discriminate.
Qed.

(** The list of tokens is what repeated calls of [strsep] deliver. *)
Lemma strsep_all_step s d :
  strsep_all s d
  = fst (strsep s d)
    :: match snd (strsep s d) with
       | None => []
       | Some walk => strsep_all walk d
       end.
Proof.
  induction s as [|x s IH]; simpl; [reflexivity|].
  destruct (existsb (Ascii.eqb x) d); [reflexivity|].
  rewrite IH. now destruct (strsep s d).
Qed.

Lemma join_commas_cons t u rest :
  join_commas (t :: u :: rest) = t ++ ","%char :: join_commas (u :: rest).
Proof. reflexivity. Qed.

Lemma comma_reject x : existsb (Ascii.eqb x) (cs ",") = Ascii.eqb x ",".
Proof. apply existsb_eqb_single. Qed.

(** The tokens are the pieces of the option between its commas. *)
Lemma strsep_all_join s : join_commas (strsep_all s (cs ",")) = s.
Proof.
  induction s as [|x s IH]; [reflexivity|].
  cbn [strsep_all]. rewrite comma_reject.
  destruct (Ascii.eqb x ",") eqn:E.
  - apply Ascii.eqb_eq in E. subst x.
    destruct (strsep_all s (cs ",")) as [|u rest] eqn:S.
    + now apply strsep_all_nonempty in S.
    + rewrite join_commas_cons, IH. reflexivity.
  - destruct (strsep_all s (cs ",")) as [|u rest] eqn:S.
    + now apply strsep_all_nonempty in S.
    + destruct rest as [|v rest].
      * simpl in *. now rewrite IH.
      * rewrite join_commas_cons in *. rewrite <- app_comm_cons.
        now rewrite IH.
Qed.

Lemma strsep_all_no_comma s :
  Forall (fun t => ~ In ","%char t) (strsep_all s (cs ",")).
Proof.
  induction s as [|x s IH]; cbn [strsep_all].
  - constructor; [easy|constructor].
  - rewrite comma_reject. destruct (Ascii.eqb x ",") eqn:E.
    + constructor; [easy|exact IH].
    + apply Ascii.eqb_neq in E.
      destruct (strsep_all s (cs ",")) as [|u rest].
      * constructor; [|constructor]. intros [H|[]]. congruence.
      * inversion IH as [|? ? Hu Hrest]; subst. constructor; [|exact Hrest].
        intros [H|H]; [congruence|contradiction].
Qed.

(* ================================================================= *)
(** ** The architecture list *)

Lemma arch_found_In token valid_arches :
  arch_found token valid_arches = true <-> In token valid_arches.
Proof.
  induction valid_arches as [|a rest IH]; simpl; [easy|].
  destruct (strcmp token a =? 0)%Z eqn:E.
  - apply strcmp_eqb in E. subst a. tauto.
  - apply strcmp_neq in E. rewrite IH. split; [tauto|].
    intros [H|H]; [congruence|exact H].
Qed.

Lemma collect_arches_all valid_arches tokens arches :
  (forall t, In t tokens -> In t valid_arches) ->
  collect_arches valid_arches tokens arches = (Ret (arches ++ tokens), []).
Proof.
  revert arches. induction tokens as [|tok rest IH]; intros arches H; simpl.
  - now rewrite app_nil_r.
  - assert (F : arch_found tok valid_arches = true)
      by (apply arch_found_In, H; now left).
    rewrite F. simpl. rewrite IH by (intros t Ht; apply H; now right).
    now rewrite <- app_assoc.
Qed.

Lemma collect_arches_first_unsupported valid_arches pre tok post arches :
  (forall t, In t pre -> In t valid_arches) ->
  ~ In tok valid_arches ->
  collect_arches valid_arches (pre ++ tok :: post) arches
  = (Exit EXIT_FAILURE, [Stderr (UnsupportedArch tok); Stderr SeeHelp]).
Proof.
  revert arches. induction pre as [|p pre IH]; intros arches H N; simpl.
  - destruct (arch_found tok valid_arches) eqn:F; [|reflexivity].
    apply arch_found_In in F. contradiction.
  - assert (F : arch_found p valid_arches = true)
      by (apply arch_found_In, H; now left).
    rewrite F. simpl. apply IH; [|exact N].
    intros t Ht. apply H. now right.
Qed.

(** C7. The architecture option is cut into its comma-separated tokens,
    which are looked up in order in the supported architectures. When all
    are supported, the validated list is the list of tokens, in their order
    and with their duplicates. Otherwise the first unsupported token is
    reported and the process exits with failure: there is no list. *)
Theorem C7_validate_arches (valid_arches : list cstr) (archopt : cstr) :
  let tokens := strsep_all archopt (cs ",") in
  join_commas tokens = archopt
  /\ ((forall t, In t tokens -> In t valid_arches) ->
      validate_arches valid_arches archopt = (Ret tokens, []))
  /\ (forall pre tok post,
        tokens = pre ++ tok :: post ->
        (forall t, In t pre -> In t valid_arches) ->
        ~ In tok valid_arches ->
        validate_arches valid_arches archopt
        = (Exit EXIT_FAILURE, [Stderr (UnsupportedArch tok); Stderr SeeHelp])).
Proof.
  intros tokens. split; [apply strsep_all_join|]. split.
  - intros H. unfold validate_arches. fold tokens.
    now rewrite collect_arches_all.
  - intros pre tok post E H N. unfold validate_arches. fold tokens.
    rewrite E. now apply collect_arches_first_unsupported.
Qed.

Lemma C7_validate_arches_witness :
  validate_arches [cs "x86_64"; cs "noarch"] (cs "x86_64,bogus,noarch")
  = (Exit EXIT_FAILURE, [Stderr (UnsupportedArch (cs "bogus")); Stderr SeeHelp])
  /\ validate_arches [cs "x86_64"; cs "noarch"] (cs "noarch,x86_64,noarch")
     = (Ret [cs "noarch"; cs "x86_64"; cs "noarch"], []).
Proof.
  split.
  - apply (proj2 (proj2 (C7_validate_arches [cs "x86_64"; cs "noarch"]
                           (cs "x86_64,bogus,noarch")))
             [cs "x86_64"] (cs "bogus") [cs "noarch"]).
    + reflexivity.
    + intros t [<-|[]]. in_list.
    + not_in_list.
  - apply (proj1 (proj2 (C7_validate_arches [cs "x86_64"; cs "noarch"]
                           (cs "noarch,x86_64,noarch")))).
    intros t [<-|[<-|[<-|[]]]]; in_list.
Defined.

(** In [main]: an unsupported architecture ends the run before the working
    directory is made. *)
Lemma main_arches_unsupported w l ri archopt0 pre tok post :
  archopt l = Some archopt0 ->
  strsep_all archopt0 (cs ",") = pre ++ tok :: post ->
  (forall t, In t pre -> In t (get_all_arches w (set_arches ri (Some [])))) ->
  ~ In tok (get_all_arches w (set_arches ri (Some []))) ->
  main_arches w l ri
  = (Exit EXIT_FAILURE,
     [CallGetAllArches; Stderr (UnsupportedArch tok); Stderr SeeHelp]).
Proof.
  intros A E H N. unfold main_arches. rewrite A.
  unfold validate_arches. rewrite E.
  rewrite (@collect_arches_first_unsupported _ _ _ post [] H N). reflexivity.
Qed.

(* ================================================================= *)
(** ** The inspection loop *)

Lemma runs_in_ext ri ri' e :
  ri_tests ri' = ri_tests ri -> ri_before ri' = ri_before ri ->
  runs_in ri' e = runs_in ri e.
Proof. unfold runs_in. now intros -> ->. Qed.

Lemma running_indices_ext ri ri' es i :
  ri_tests ri' = ri_tests ri -> ri_before ri' = ri_before ri ->
  running_indices ri' es i = running_indices ri es i.
Proof.
  intros T B. revert i. induction es as [|e es IH]; intros i; simpl.
  - reflexivity.
  - now rewrite (@runs_in_ext ri ri' e T B), IH.
Qed.

Lemma running_indices_ge ri es i j :
  In j (running_indices ri es i) -> (i <= j)%nat.
Proof.
  revert i. induction es as [|e es IH]; intros i; simpl; [easy|].
  destruct (runs_in ri e); simpl.
  - intros [<-|H]; [lia|]. apply IH in H. lia.
  - intros H. apply IH in H. lia.
Qed.

(** Indices come in the order of the table, none twice. *)
Lemma running_indices_sorted ri es i :
  StronglySorted lt (running_indices ri es i).
Proof.
  revert i. induction es as [|e es IH]; intros i; simpl; [constructor|].
  destruct (runs_in ri e); [|apply IH].
  constructor; [apply IH|]. apply Forall_forall. intros j H.
  apply running_indices_ge in H. lia.
Qed.

Lemma running_indices_In ri es i j :
  In j (running_indices ri es i) <->
  exists e, (i <= j)%nat /\ nth_error es (j - i) = Some e
            /\ runs_in ri e = true.
Proof.
  revert i. induction es as [|e es IH]; intros i; simpl.
  - split; [easy|]. intros (e & _ & H & _). now destruct (j - i)%nat.
  - assert (Tail : In j (running_indices ri es (S i)) ->
                   exists e0, (i <= j)%nat
                              /\ nth_error (e :: es) (j - i) = Some e0
                              /\ runs_in ri e0 = true).
    { intros H. apply IH in H. destruct H as (e0 & L & N & R).
      exists e0. split; [lia|]. split; [|exact R].
      replace (j - i)%nat with (S (j - S i)) by lia. exact N. }
    split.
    + destruct (runs_in ri e) eqn:R; [|exact Tail].
      intros [<-|H]; [|now apply Tail].
      exists e. rewrite Nat.sub_diag. now repeat split.
    + intros (e0 & L & N & R0).
      destruct (Nat.eq_dec i j) as [<-|Ne].
      * rewrite Nat.sub_diag in N. simpl in N. injection N as ->.
        rewrite R0. now left.
      * assert (H : In j (running_indices ri es (S i))).
        { apply IH. exists e0. split; [lia|]. split; [|exact R0].
          replace (j - i)%nat with (S (j - S i)) in N by lia. exact N. }
        destruct (runs_in ri e); [now right|exact H].
Qed.

Lemma StronglySorted_lt_NoDup l : StronglySorted lt l -> NoDup l.
Proof.
  induction 1 as [|x l S IH F]; constructor; [|exact IH].
  intros H. rewrite Forall_forall in F. apply F in H. lia.
Qed.

(** The loop, when the drivers leave the selection alone: it comes to its
    end, and calls the drivers of the entries that run, in order. *)
Lemma inspection_loop_calls table : forall i ri ret,
  Forall driver_keeps_selection (entries table) ->
  exists ret' ri',
    inspection_loop table i ri ret
    = (Ret (ret', ri'), map CallDriver (running_indices ri (entries table) i))
    /\ ri_tests ri' = ri_tests ri /\ ri_before ri' = ri_before ri.
Proof.
  induction table as [|e rest IH]; intros i ri ret F; simpl.
  - now exists ret, ri.
  - simpl in F. destruct (insp_flag e =? 0)%Z eqn:Z0.
    + now exists ret, ri.
    + inversion F as [|? ? Fe Frest]; subst. simpl. unfold runs_in.
      destruct (Z.land (ri_tests ri) (insp_flag e) =? 0)%Z eqn:Sel; simpl.
      * now apply IH.
      * destruct (is_null (ri_before ri) && negb (insp_single_build e))
          eqn:App; simpl.
        -- now apply IH.
        -- destruct (Fe ri) as [Kt Kb].
           destruct (insp_driver e ri) as [ok ri1] eqn:D. simpl in Kt, Kb.
           destruct (IH (S i) ri1 (if negb ok then EXIT_FAILURE else ret)
                        Frest) as (ret' & ri' & E & T & B).
           exists ret', ri'. rewrite E. simpl.
           rewrite (@running_indices_ext ri ri1 (entries rest) (S i) Kt Kb).
           split; [reflexivity|]. split; congruence.
Qed.

(** Whatever the drivers do, the loop comes to its end and nothing but
    driver calls happens in it. *)
Lemma inspection_loop_returns table : forall i ri ret,
  exists r t,
    inspection_loop table i ri ret = (Ret r, t)
    /\ Forall (fun e => is_driver_call e = true) t.
Proof.
  induction table as [|e rest IH]; intros i ri ret; simpl.
  - exists (ret, ri), []. now split.
  - destruct (insp_flag e =? 0)%Z; [exists (ret, ri), []; now split|].
    destruct (Z.land (ri_tests ri) (insp_flag e) =? 0)%Z; [apply IH|].
    destruct (is_null (ri_before ri) && negb (insp_single_build e));
      [apply IH|].
    destruct (insp_driver e ri) as [ok ri1].
    destruct (IH (S i) ri1 (if negb ok then EXIT_FAILURE else ret))
      as (r & t & E & F).
    exists r, (CallDriver i :: t). rewrite E. simpl. split; [reflexivity|].
    now constructor.
Qed.

(** Once [ret] is EXIT_FAILURE it stays so to the end of the loop. *)
Lemma inspection_loop_failure_sticks table : forall i ri r t,
  inspection_loop table i ri EXIT_FAILURE = (Ret r, t) ->
  fst r = EXIT_FAILURE.
Proof.
  induction table as [|e rest IH]; intros i ri r t; simpl.
  - intros H. now injection H as <- _.
  - destruct (insp_flag e =? 0)%Z; [intros H; now injection H as <- _|].
    destruct (Z.land (ri_tests ri) (insp_flag e) =? 0)%Z; [apply IH|].
    destruct (is_null (ri_before ri) && negb (insp_single_build e));
      [apply IH|].
    destruct (insp_driver e ri) as [ok ri1].
    replace (if negb ok then EXIT_FAILURE else EXIT_FAILURE)
      with EXIT_FAILURE by now destruct ok.
    destruct (inspection_loop rest (S i) ri1 EXIT_FAILURE) as [r1 t1] eqn:E.
    simpl. intros H. injection H as -> _. now apply IH in E.
Qed.

(** A driver that is called and reports failure sets [ret]. *)
Lemma inspection_loop_records_failure e rest i ri ret r t :
  insp_flag e <> 0%Z -> runs_in ri e = true ->
  fst (insp_driver e ri) = false ->
  inspection_loop (e :: rest) i ri ret = (Ret r, t) ->
  fst r = EXIT_FAILURE.
Proof.
  intros Z0 R D. apply Z.eqb_neq in Z0. unfold runs_in in R.
  apply andb_true_iff in R. destruct R as [R1 R2].
  apply negb_true_iff in R1, R2. simpl. rewrite Z0, R1, R2.
  destruct (insp_driver e ri) as [ok ri1]. simpl in D. subst ok. simpl.
  destruct (inspection_loop rest (S i) ri1 EXIT_FAILURE) as [r1 t1] eqn:E.
  simpl. intros H. injection H as -> _.
  now apply inspection_loop_failure_sticks in E.
Qed.

Lemma filter_driver_calls l :
  filter is_driver_call (map CallDriver l) = map CallDriver l.
Proof. induction l; simpl; [reflexivity|]. now f_equal. Qed.

(** C6. On a run that is not fetch-only, with drivers that leave the
    selection bitmap and the before build alone, the inspection step comes
    to its end whatever the drivers return, and the drivers it calls are
    those of the table entries whose flag is in the bitmap and which apply
    (a before build is there, or the entry is for single builds too): each
    of them once, in the order of the table. *)
Theorem C6_inspections_run
        (w : collaborators) (l : locals) (ri : rpminspect) (ret : Z) :
  fetch_only l = false ->
  Forall driver_keeps_selection (entries (inspections w)) ->
  let ran := running_indices ri (entries (inspections w)) 0 in
  (exists r, fst (main_inspect w l ri ret) = Ret r)
  /\ filter is_driver_call (snd (main_inspect w l ri ret))
     = map CallDriver ran
  /\ StronglySorted lt ran
  /\ NoDup ran
  /\ (forall i, In i ran <->
                exists e, nth_error (entries (inspections w)) i = Some e
                          /\ runs_in ri e = true).
Proof.
  intros Fo F ran.
  destruct (inspection_loop_calls (inspections w) 0 ri ret F)
    as (ret' & ri' & E & _ & _).
  fold ran in E.
  assert (S : StronglySorted lt ran) by apply running_indices_sorted.
  unfold main_inspect. rewrite Fo, E. simpl.
  repeat split.
  - destruct (ri_results ri'); simpl; eauto.
  - destruct (ri_results ri'); simpl; rewrite filter_app; simpl;
      now rewrite !app_nil_r, filter_driver_calls.
  - exact S.
  - now apply StronglySorted_lt_NoDup.
  - intros H. apply running_indices_In in H.
    destruct H as (e & _ & N & R). rewrite Nat.sub_0_r in N. eauto.
  - intros (e & N & R). apply running_indices_In. exists e.
    rewrite Nat.sub_0_r. repeat split; [lia|assumption|assumption].
Qed.

Lemma sample_drivers_keep_selection :
  Forall driver_keeps_selection (entries (inspections Sample.world)).
Proof. repeat constructor. Qed.

Lemma C6_inspections_run_witness :
  running_indices Sample.ri0 (entries (inspections Sample.world)) 0
  = [0; 1; 3]%nat
  /\ filter is_driver_call
            (snd (main_inspect Sample.world initial_locals Sample.ri0 0))
     = [CallDriver 0; CallDriver 1; CallDriver 3]
  /\ fetch_only initial_locals = false.
Proof.
  split; [reflexivity|]. split; [|reflexivity].
  exact (proj1 (proj2 (@C6_inspections_run Sample.world initial_locals
                         Sample.ri0 0 eq_refl
                         sample_drivers_keep_selection))).
Defined.

(* ================================================================= *)
(** ** After the working directory is made *)

Lemma main_inspect_returns w l ri ret :
  exists r t,
    main_inspect w l ri ret = (Ret r, t)
    /\ Forall (fun e => is_release_step e = false) t.
Proof.
  unfold main_inspect. destruct (fetch_only l); simpl.
  - exists (ret, ri), []. now split.
  - destruct (inspection_loop_returns (inspections w) 0 ri ret)
      as (r & t & E & F).
    assert (F' : Forall (fun e => is_release_step e = false) t).
    { eapply Forall_impl; [|exact F]. now intros [ ]. }
    rewrite E. simpl. destruct (ri_results (snd r)); simpl.
    + exists r, (t ++ []). split; [reflexivity|]. now rewrite app_nil_r.
    + eexists r, _. split; [reflexivity|].
      apply Forall_app. split; [exact F'|]. now repeat constructor.
Qed.

(** The clean up releases the working directory, once, and the status
    that [main] returns after it is success. *)
Lemma main_cleanup_exits w l ri :
  exists t,
    main_cleanup w l ri = (Exit EXIT_SUCCESS, t)
    /\ List.length (filter is_release_step t) = 1%nat.
Proof.
  unfold main_cleanup. destruct (keep l); simpl.
  - eexists. split; reflexivity.
  - destruct (rmtree w (ri_workdir ri) =? 0)%Z; simpl;
      eexists; split; reflexivity.
Qed.

(** The builds were gathered: the run goes to its end through the clean
    up. *)
Lemma main_run_completes w l ri :
  fst (gather_builds w ri (fetch_only l)) = 0%Z ->
  exists t,
    main_run w l ri = (Exit EXIT_SUCCESS, t)
    /\ List.length (filter is_release_step t) = 1%nat.
Proof.
  intros G. unfold main_run, main_gather.
  destruct (gather_builds w ri (fetch_only l)) as [ret ri1]. simpl in G.
  subst ret. simpl.
  destruct (main_inspect_returns w l ri1 0) as (r & t & E & F).
  destruct (main_cleanup_exits w l (snd r)) as (t' & E' & L).
  rewrite E. simpl. rewrite E'. simpl.
  eexists. split; [reflexivity|].
  simpl. rewrite filter_app.
  replace (filter is_release_step t) with (@nil event); [exact L|].
  symmetry. clear E. induction F as [|e t He _ IH]; simpl; [reflexivity|].
  now rewrite He.
Qed.

(** The builds were not gathered: the process exits at once. *)
Lemma main_run_gather_failed w l ri :
  fst (gather_builds w ri (fetch_only l)) <> 0%Z ->
  main_run w l ri
  = (Exit EXIT_FAILURE, [CallGatherBuilds (fetch_only l); Stderr GatherFailed]).
Proof.
  intros G. unfold main_run, main_gather.
  destruct (gather_builds w ri (fetch_only l)) as [ret ri1]. simpl in G.
  apply Z.eqb_neq in G. simpl. now rewrite G.
Qed.

(** C3. A run that made its working directory and gathered its builds
    exits with status 0, whatever the inspection drivers returned: the
    value of [ret] that records their failures is not the value [main]
    returns. *)
Theorem C3_exit_status_ignores_failures
        (w : collaborators) (opts : list getopt_result) (args : list cstr)
        (l : locals) (ri : rpminspect) (t : list event) :
  main_setup w opts args = (Ret (l, ri), t) ->
  fst (gather_builds w ri (fetch_only l)) = 0%Z ->
  fst (main w opts args) = Exit EXIT_SUCCESS.
Proof.
  intros S G. unfold main. rewrite S. simpl.
  destruct (main_run_completes w l ri G) as (t' & E & _).
  now rewrite E.
Qed.

Lemma C3_exit_status_ignores_failures_witness :
  fst (main Sample.world [] [cs "pkg-1.0-1.fc30"]) = Exit EXIT_SUCCESS
  /\ exists l ri t,
       main_setup Sample.world [] [cs "pkg-1.0-1.fc30"] = (Ret (l, ri), t)
       /\ fst (gather_builds Sample.world ri (fetch_only l)) = 0%Z
       /\ exists ri',
            fst (main_inspect Sample.world l
                   (snd (gather_builds Sample.world ri (fetch_only l))) 0)
            = Ret (EXIT_FAILURE, ri').
Proof.
  split.
  - eapply (@C3_exit_status_ignores_failures Sample.world []
              [cs "pkg-1.0-1.fc30"]).
    + reflexivity.
    + reflexivity.
  - do 3 eexists. split; [reflexivity|]. split; [reflexivity|].
    eexists. reflexivity.
Defined.

(** C1 on the code. When [gather_builds] fails, the working directory has
    been made and the process exits without removing it and without the
    message that it is kept. *)
Theorem C1_gather_failure_skips_release :
  main Sample.world_no_builds [] [cs "pkg-1.0-1.fc30"]
  = (Exit EXIT_FAILURE,
     [CallInitRpminspect CFGFILE; CallInitLibrpm;
      CallMkdirp DEFAULT_WORKDIR mode; CallGatherBuilds false;
      Stderr GatherFailed])
  /\ existsb is_mkdirp (snd (main Sample.world_no_builds [] [cs "pkg-1.0-1.fc30"]))
     = true
  /\ existsb is_release_step
             (snd (main Sample.world_no_builds [] [cs "pkg-1.0-1.fc30"]))
     = false.
Proof. repeat split. Qed.

(* ================================================================= *)
(** ** Option processing *)

Lemma find_inspection_found table inspection exclude selected :
  fst (find_inspection table inspection exclude selected)
  = fst (find_inspection table inspection false 0).
Proof.
  induction table as [|e rest IH]; simpl; [reflexivity|].
  destruct (insp_flag e =? 0)%Z; [reflexivity|].
  destruct (strcasecmp inspection (insp_name e) =? 0)%Z; [|exact IH].
  now destruct exclude.
Qed.

(** Whether a token is found does not depend on the mode or the bitmap. *)
Lemma found_is_known w token exclude selected :
  fst (process_inspection_flag w token exclude selected) = is_known w token.
Proof.
  unfold is_known, process_inspection_flag.
  destruct (strcasecmp token (cs "ALL") =? 0)%Z.
  - now destruct exclude.
  - apply find_inspection_found.
Qed.

Lemma selection_loop_Ret w tokens exclude selected s t :
  selection_loop w tokens exclude selected = (Ret s, t) -> t = [].
Proof.
  revert selected. induction tokens as [|tok rest IH]; intros selected; simpl.
  - intros H. now injection H.
  - destruct (fst (process_inspection_flag w tok exclude selected)); simpl.
    + destruct (selection_loop w rest exclude
                  (snd (process_inspection_flag w tok exclude selected)))
        as [r t'] eqn:E.
      simpl. intros H. injection H as -> <-. now apply IH in E.
    + discriminate.
Qed.

Lemma selection_loop_known w tokens exclude selected :
  (forall t, In t tokens -> is_known w t = true) ->
  exists s, selection_loop w tokens exclude selected = (Ret s, []).
Proof.
  revert selected. induction tokens as [|tok rest IH]; intros selected K; simpl.
  - now exists selected.
  - rewrite found_is_known, K by now left. simpl.
    destruct (IH (snd (process_inspection_flag w tok exclude selected)))
      as [s E]; [intros t Ht; apply K; now right|].
    exists s. now rewrite E.
Qed.

Lemma selection_loop_unknown w pre tok post exclude selected :
  (forall t, In t pre -> is_known w t = true) ->
  is_known w tok = false ->
  selection_loop w (pre ++ tok :: post) exclude selected
  = (Exit EXIT_FAILURE, [Stderr (UnknownTest tok); Stderr SeeHelp]).
Proof.
  revert selected. induction pre as [|p pre IH]; intros selected K U; simpl.
  - now rewrite found_is_known, U.
  - rewrite found_is_known, K by now left. simpl.
    rewrite IH; [reflexivity| |exact U].
    intros t Ht. apply K. now right.
Qed.

(** A second -T or -E ends the run, whichever of the two it is. *)
Lemma selection_conflict w c l :
  inspection_opt l = true -> is_selection c = true ->
  option_case w c l
  = (Exit EXIT_FAILURE, [Stderr MutuallyExclusive; Stderr SeeHelp]).
Proof.
  intros I S. destruct c; try discriminate; simpl;
    unfold selection_option; now rewrite I.
Qed.

Lemma selection_option_Ret w is_E optarg l l' t :
  selection_option w is_E optarg l = (Ret l', t) ->
  t = [] /\ inspection_opt l' = true /\ fetch_only l' = fetch_only l.
Proof.
  unfold selection_option. destruct (inspection_opt l).
  - simpl. discriminate.
  - unfold check_inspection_options. rewrite bind_pure. intros H.
    apply bind_Ret_inv in H. destruct H as (s & t1 & t2 & E & P & ->).
    apply selection_loop_Ret in E. subst t1.
    unfold pure in P. injection P as <- <-. now repeat split.
Qed.

(** An option after which the loop goes on has written nothing; the flags
    [fetch_only] and [inspection_opt] are never cleared. *)
Lemma option_case_Ret w c l l' t :
  option_case w c l = (Ret l', t) ->
  t = []
  /\ (fetch_only l = true \/ c = Opt_f -> fetch_only l' = true)
  /\ (inspection_opt l = true \/ is_selection c = true ->
      inspection_opt l' = true).
Proof.
  destruct c; simpl;
    try (intros H; injection H as <- <-; simpl;
         repeat split; intros [?|?]; (assumption || discriminate || reflexivity));
    try discriminate.
  - intros H. apply selection_option_Ret in H. destruct H as (-> & I & F).
    repeat split; [|now rewrite I]. rewrite F. now intros [?|?].
  - intros H. apply selection_option_Ret in H. destruct H as (-> & I & F).
    repeat split; [|now rewrite I]. rewrite F. now intros [?|?].
  - destruct (find_format (formats w) optarg (formatidx l) <? 0)%Z;
      [discriminate|].
    intros H; injection H as <- <-; simpl.
    repeat split; intros [?|?]; (assumption || discriminate).
  - destruct (index optarg "~").
    + destruct (glob w optarg) as [j pv].
      destruct ((j =? 0)%Z && (List.length pv =? 1)%nat); [|discriminate].
      intros H; injection H as <- <-; simpl.
      repeat split; intros [?|?]; (assumption || discriminate).
    + intros H; injection H as <- <-; simpl.
      repeat split; intros [?|?]; (assumption || discriminate).
Qed.

Lemma getopt_loop_Ret w opts : forall l l' t,
  getopt_loop w opts l = (Ret l', t) ->
  t = []
  /\ (fetch_only l = true \/ In Opt_f opts -> fetch_only l' = true)
  /\ (inspection_opt l = true \/ existsb is_selection opts = true ->
      inspection_opt l' = true).
Proof.
  induction opts as [|c rest IH]; intros l l' t; simpl.
  - intros H. injection H as <- <-. repeat split.
    + now intros [?|[]].
    + now intros [?|?].
  - intros H. apply bind_Ret_inv in H.
    destruct H as (l1 & t1 & t2 & C & R & ->).
    apply option_case_Ret in C. destruct C as (-> & F1 & I1).
    apply IH in R. destruct R as (-> & F2 & I2).
    repeat split.
    + intros [H|[H|H]]; apply F2; auto.
    + intros [H|H]; apply I2; auto.
      apply orb_true_iff in H. destruct H; auto.
Qed.

Lemma getopt_loop_app w pre post : forall l,
  getopt_loop w (pre ++ post) l
  = bind (getopt_loop w pre l) (getopt_loop w post).
Proof.
  induction pre as [|c pre IH]; intros l; cbn [app getopt_loop].
  - now rewrite bind_pure.
  - rewrite bind_assoc.
    destruct (option_case w c l) as [[l1|s| |] t]; simpl; try reflexivity.
    now rewrite IH.
Qed.

(** A run that ends in the option loop ends there. *)
Lemma main_exits_in_options w opts args s t :
  getopt_loop w opts initial_locals = (Exit s, t) ->
  main w opts args = (Exit s, t).
Proof. intros H. unfold main, main_setup. now rewrite H. Qed.

(** The options before a second -T or -E went through: the second one is
    the end of the run. *)
Lemma second_selection_ends_run w pre c post args l t :
  existsb is_selection pre = true ->
  is_selection c = true ->
  getopt_loop w pre initial_locals = (Ret l, t) ->
  main w (pre ++ c :: post) args
  = (Exit EXIT_FAILURE, [Stderr MutuallyExclusive; Stderr SeeHelp]).
Proof.
  intros P S G. apply main_exits_in_options.
  rewrite getopt_loop_app, G.
  apply getopt_loop_Ret in G. destruct G as (-> & _ & I).
  simpl. rewrite (@selection_conflict w c l) by auto. reflexivity.
Qed.

Lemma bind_then_exits {A B} (m : M A) (f : A -> M B) a t1 s t2 :
  m = (Ret a, t1) -> f a = (Exit s, t2) -> bind m f = (Exit s, t1 ++ t2).
Proof. intros -> E. simpl. now rewrite E. Qed.

(** Only -T and -E set [inspection_opt]. *)
Lemma option_case_keeps_opt w c l l' t :
  option_case w c l = (Ret l', t) -> is_selection c = false ->
  inspection_opt l' = inspection_opt l.
Proof.
  destruct c; simpl; try discriminate;
    try (intros H _; injection H as <- <-; reflexivity).
  - destruct (find_format (formats w) optarg (formatidx l) <? 0)%Z;
      [discriminate|].
    intros H _; injection H as <- <-; reflexivity.
  - destruct (index optarg "~").
    + destruct (glob w optarg) as [j pv].
      destruct ((j =? 0)%Z && (List.length pv =? 1)%nat); [|discriminate].
      intros H _; injection H as <- <-; reflexivity.
    + intros H _; injection H as <- <-; reflexivity.
Qed.

Lemma getopt_loop_keeps_opt w opts : forall l l' t,
  getopt_loop w opts l = (Ret l', t) -> existsb is_selection opts = false ->
  inspection_opt l' = inspection_opt l.
Proof.
  induction opts as [|c rest IH]; intros l l' t; simpl.
  - intros H _. now injection H as <- <-.
  - intros H N. apply orb_false_iff in N. destruct N as [Nc Nr].
    apply bind_Ret_inv in H. destruct H as (l1 & t1 & t2 & C & R & ->).
    rewrite (IH _ _ _ R Nr). now apply (option_case_keeps_opt _ _ _ C).
Qed.

(** The first -T or -E with a token that is not known: the run ends on
    that token. *)
Lemma first_selection_unknown w pre c post args l t optarg tp tok tq :
  getopt_loop w pre initial_locals = (Ret l, t) ->
  existsb is_selection pre = false ->
  c = Opt_T optarg \/ c = Opt_E optarg ->
  strsep_all optarg (cs ",") = tp ++ tok :: tq ->
  (forall x, In x tp -> is_known w x = true) ->
  is_known w tok = false ->
  main w (pre ++ c :: post) args
  = (Exit EXIT_FAILURE, [Stderr (UnknownTest tok); Stderr SeeHelp]).
Proof.
  intros G N C E K U. apply main_exits_in_options.
  pose proof (getopt_loop_keeps_opt _ _ _ G N) as I. simpl in I.
  pose proof (getopt_loop_Ret _ _ _ G) as (-> & _ & _).
  assert (X : getopt_loop w (c :: post) l
              = (Exit EXIT_FAILURE,
                 [Stderr (UnknownTest tok); Stderr SeeHelp])).
  { cbn [getopt_loop]. apply bind_exits.
    destruct C as [-> | ->]; cbn [option_case]; unfold selection_option;
      rewrite I; unfold check_inspection_options; rewrite bind_pure;
      apply bind_exits; rewrite E; now apply selection_loop_unknown. }
  rewrite getopt_loop_app, G, bind_Ret, X. reflexivity.
Qed.

(** C9. When the option loop comes to a -T or -E option after an earlier
    -T or -E option, whichever of the two each of them is, that option
    fails on the check of [inspection_opt]: the conflict is reported and
    the process exits with failure. *)
Theorem C9_second_selection_rejected
        (w : collaborators) (pre : list getopt_result) (c : getopt_result)
        (post : list getopt_result) (args : list cstr)
        (l : locals) (t : list event) :
  existsb is_selection pre = true ->
  is_selection c = true ->
  getopt_loop w pre initial_locals = (Ret l, t) ->
  option_case w c l
  = (Exit EXIT_FAILURE, [Stderr MutuallyExclusive; Stderr SeeHelp])
  /\ main w (pre ++ c :: post) args
     = (Exit EXIT_FAILURE, [Stderr MutuallyExclusive; Stderr SeeHelp]).
Proof.
  intros P S G. split.
  - apply selection_conflict; [|exact S].
    apply getopt_loop_Ret in G. destruct G as (_ & _ & I). auto.
  - now apply second_selection_ends_run with (l := l) (t := t).
Qed.

Lemma C9_second_selection_rejected_witness :
  main Sample.world [Opt_T (cs "license"); Opt_k; Opt_T (cs "manpage")]
       [cs "pkg-1.0-1.fc30"]
  = (Exit EXIT_FAILURE, [Stderr MutuallyExclusive; Stderr SeeHelp])
  /\ main Sample.world [Opt_E (cs "elf"); Opt_E (cs "ALL")]
          [cs "pkg-1.0-1.fc30"]
     = (Exit EXIT_FAILURE, [Stderr MutuallyExclusive; Stderr SeeHelp]).
Proof.
  split.
  - refine (proj2 (@C9_second_selection_rejected Sample.world
                     [Opt_T (cs "license"); Opt_k] (Opt_T (cs "manpage")) []
                     [cs "pkg-1.0-1.fc30"] _ _ _ _ _)).
    + reflexivity.
    + reflexivity.
    + reflexivity.
  - refine (proj2 (@C9_second_selection_rejected Sample.world
                     [Opt_E (cs "elf")] (Opt_E (cs "ALL")) []
                     [cs "pkg-1.0-1.fc30"] _ _ _ _ _)).
    + reflexivity.
    + reflexivity.
    + reflexivity.
Defined.

(** C4, as the code has it. Take a run with a -T and a -E option, in
    either order. When the option loop comes to the later of the two, the
    run fails on the conflict, whatever the tokens of the later list, and
    no inspection has run. The loop does not come to it when a token of the
    earlier list is not known: the run then fails on that token, and no
    inspection has run either. *)
Theorem C4_conflicting_selection_amended
        (w : collaborators) (pre : list getopt_result) (c1 : getopt_result)
        (mid : list getopt_result) (c2 : getopt_result)
        (post : list getopt_result) (args : list cstr) :
  is_selection c1 = true -> is_selection c2 = true ->
  is_Opt_T c1 = is_Opt_E c2 ->
  let run := main w (pre ++ c1 :: mid ++ c2 :: post) args in
  (forall l t,
      getopt_loop w (pre ++ c1 :: mid) initial_locals = (Ret l, t) ->
      conflicting_selection run
      /\ existsb is_driver_call (snd run) = false)
  /\ (forall l t optarg tp tok tq,
        getopt_loop w pre initial_locals = (Ret l, t) ->
        existsb is_selection pre = false ->
        c1 = Opt_T optarg \/ c1 = Opt_E optarg ->
        strsep_all optarg (cs ",") = tp ++ tok :: tq ->
        (forall x, In x tp -> is_known w x = true) ->
        is_known w tok = false ->
        run = (Exit EXIT_FAILURE, [Stderr (UnknownTest tok); Stderr SeeHelp])).
Proof.
  intros S1 S2 _ run. split.
  - intros l t G.
    assert (E : run = (Exit EXIT_FAILURE,
                       [Stderr MutuallyExclusive; Stderr SeeHelp])).
    { unfold run.
      replace (pre ++ c1 :: mid ++ c2 :: post)
        with ((pre ++ c1 :: mid) ++ c2 :: post)
        by (now rewrite <- app_assoc).
      apply second_selection_ends_run with (l := l) (t := t); auto.
      rewrite existsb_app. simpl. rewrite S1. apply orb_true_r. }
    rewrite E. split; [|reflexivity]. split; [reflexivity|]. now left.
  - intros l t optarg tp tok tq G N C E K U. unfold run.
    now apply first_selection_unknown
      with (l := l) (t := t) (optarg := optarg) (tp := tp) (tq := tq).
Qed.

Lemma C4_conflicting_selection_amended_witness :
  conflicting_selection
    (main Sample.world [Opt_T (cs "license,ELF"); Opt_E (cs "bar")]
          [cs "pkg-1.0-1.fc30"])
  /\ main Sample.world [Opt_E (cs "license,foo"); Opt_T (cs "elf")]
          [cs "pkg-1.0-1.fc30"]
     = (Exit EXIT_FAILURE, [Stderr (UnknownTest (cs "foo")); Stderr SeeHelp]).
Proof.
  split.
  - refine (proj1 (proj1 (@C4_conflicting_selection_amended Sample.world
              [] (Opt_T (cs "license,ELF")) [] (Opt_E (cs "bar")) []
              [cs "pkg-1.0-1.fc30"] eq_refl eq_refl eq_refl) _ _ _)).
    reflexivity.
  - refine (proj2 (@C4_conflicting_selection_amended Sample.world
              [] (Opt_E (cs "license,foo")) [] (Opt_T (cs "elf")) []
              [cs "pkg-1.0-1.fc30"] eq_refl eq_refl eq_refl)
              initial_locals [] (cs "license,foo") [cs "license"] (cs "foo")
              [] eq_refl eq_refl _ eq_refl _ eq_refl).
    + now right.
    + intros x [<-|[]]. reflexivity.
Defined.

(** C4 as the specification words it fails on the code: with an unknown
    token in the first list, the run ends on that token and the conflict is
    never reported. *)
Lemma C4_conflicting_selection_counterexample :
  existsb is_Opt_T [Opt_T (cs "foo"); Opt_E (cs "bar")] = true
  /\ existsb is_Opt_E [Opt_T (cs "foo"); Opt_E (cs "bar")] = true
  /\ main Sample.world [Opt_T (cs "foo"); Opt_E (cs "bar")]
          [cs "pkg-1.0-1.fc30"]
     = (Exit EXIT_FAILURE, [Stderr (UnknownTest (cs "foo")); Stderr SeeHelp])
  /\ ~ conflicting_selection
         (main Sample.world [Opt_T (cs "foo"); Opt_E (cs "bar")]
               [cs "pkg-1.0-1.fc30"]).
Proof.
  repeat split. intros [_ H]. simpl in H.
  destruct H as [H|[H|[]]]; discriminate.
Qed.

(* ================================================================= *)
(** ** Fetch-only mode *)

(** Reading the configuration writes nothing but the call that reads it. *)
Lemma main_config_Ret w l ri t :
  main_config w l = (Ret ri, t) ->
  exists cfgfile0, t = [CallInitRpminspect cfgfile0].
Proof.
  unfold main_config. intros H. apply bind_Ret_inv in H.
  destruct H as (f & t1 & t2 & C & R & ->).
  assert (T1 : t1 = []).
  { destruct (cfgfile l) as [f0|].
    - destruct (access w f0 =? -1)%Z; [discriminate|]. now injection C.
    - destruct (access w CFGFILE =? 0)%Z; [|discriminate]. now injection C. }
  subst t1. exists f.
  destruct (init_rpminspect w f) as [rc ri1].
  destruct (rc =? 0)%Z; simpl in R; [|discriminate].
  now injection R.
Qed.

Lemma main_builds_fetch_only_pair l before after ri :
  fetch_only l = true ->
  main_builds l [before; after] ri
  = (Exit EXIT_FAILURE,
     [Stderr FetchOnlySingleBuild; Stderr SeeHelp; CallFreeRpminspect]).
Proof.
  intros F. unfold main_builds. rewrite bind_pure. simpl. now rewrite F.
Qed.

(** C8. Fetch-only mode was asked for, the options and the configuration
    went through, and there are two builds: the run fails on the
    fetch-only diagnostic. Nothing of the later steps has happened: no
    product release was resolved, librpm was not set up, no architecture
    was looked at, no directory was made and no build was gathered. *)
Theorem C8_fetch_only_two_builds
        (w : collaborators) (opts : list getopt_result)
        (before after : cstr) (l : locals) (t1 : list event)
        (ri : rpminspect) (t2 : list event) :
  In Opt_f opts ->
  getopt_loop w opts initial_locals = (Ret l, t1) ->
  main_config w l = (Ret ri, t2) ->
  main w opts [before; after]
  = (Exit EXIT_FAILURE,
     t1 ++ t2
     ++ [Stderr FetchOnlySingleBuild; Stderr SeeHelp; CallFreeRpminspect])
  /\ existsb is_later_step (snd (main w opts [before; after])) = false.
Proof.
  intros Hf G C.
  pose proof (getopt_loop_Ret _ _ _ G) as (T1 & F & _).
  destruct (main_config_Ret _ _ C) as [f T2].
  assert (E : main w opts [before; after]
              = (Exit EXIT_FAILURE,
                 t1 ++ t2
                 ++ [Stderr FetchOnlySingleBuild; Stderr SeeHelp;
                     CallFreeRpminspect])).
  { unfold main, main_setup. rewrite G, bind_Ret, C, bind_Ret.
    rewrite main_builds_fetch_only_pair by auto. reflexivity. }
  split; [exact E|]. rewrite E, T1, T2. reflexivity.
Qed.

Lemma C8_fetch_only_two_builds_witness :
  main Sample.world [Opt_v; Opt_f] [cs "pkg-1.0-1.fc30"; cs "pkg-1.0-2.fc31"]
  = (Exit EXIT_FAILURE,
     [CallInitRpminspect CFGFILE;
      Stderr FetchOnlySingleBuild; Stderr SeeHelp; CallFreeRpminspect]).
Proof.
  refine (proj1 (@C8_fetch_only_two_builds Sample.world [Opt_v; Opt_f]
                   (cs "pkg-1.0-1.fc30") (cs "pkg-1.0-2.fc31")
                   _ [] _ [CallInitRpminspect CFGFILE] _ _ _)).
  - in_list.
  - reflexivity.
  - reflexivity.
Defined.

(* ================================================================= *)
(** * Further properties of the code *)

(* ================================================================= *)
(** ** get_product_release: what a result tells *)

Lemma tag_of_plain id t : tag_of id t -> ~ In "."%char t /\ ~ In "/"%char t.
Proof.
  intros (pre & rest & _ & Nd & Ns & _). split; [|exact Ns].
  intros H. apply Nd, in_or_app. now left.
Qed.

(** X1. With a [strdup] that copies or returns NULL, a product release
    that [get_product_release] returns is the release of the after build
    and, when a before build is given, of the before build too; it holds
    no period and no slash. *)
Theorem X1_release_sound
        (sd : cstr -> option cstr) (before : option cstr) (after p : cstr) :
  copy_or_null sd ->
  get_product_release sd before after = Release p ->
  tag_of after p
  /\ (forall b, before = Some b -> tag_of b p)
  /\ ~ In "."%char p /\ ~ In "/"%char p.
Proof.
  intros Hsd. unfold get_product_release.
  destruct (rindex after ".") as [i|] eqn:Ra; [|discriminate].
  destruct (sd (skipn (i + 1) after)) as [ap|] eqn:Ea; [|discriminate].
  apply Hsd in Ea. subst ap. rewrite Nat.add_1_r. fold (cut_tag after i).
  pose proof (cut_tag_of _ Ra) as Ta.
  destruct before as [b|].
  - destruct (rindex b ".") as [j|] eqn:Rb; [|discriminate].
    destruct (sd (skipn (j + 1) b)) as [bp|] eqn:Eb; [|discriminate].
    apply Hsd in Eb. subst bp. rewrite Nat.add_1_r. fold (cut_tag b j).
    destruct (strcmp (cut_tag b j) (cut_tag after i) =? 0)%Z eqn:C;
      simpl; [|discriminate].
    apply strcmp_eqb in C. intros H. injection H as <-.
    split; [exact Ta|]. split; [|now apply tag_of_plain with (id := after)].
    intros b' Hb. injection Hb as <-. rewrite <- C. now apply cut_tag_of.
  - intros H. injection H as <-.
    split; [exact Ta|]. split; [discriminate|].
    now apply tag_of_plain with (id := after).
Qed.

Lemma strdup_ok_copies : copy_or_null Sample.strdup_ok.
Proof. intros s r H. now injection H. Qed.

Lemma X1_release_sound_witness :
  tag_of (cs "pkg-1.3.0.fc30/") (cs "fc30")
  /\ (forall b, Some (cs "pkg-1.2.3.fc30") = Some b -> tag_of b (cs "fc30"))
  /\ ~ In "."%char (cs "fc30") /\ ~ In "/"%char (cs "fc30").
Proof.
  apply (@X1_release_sound Sample.strdup_ok (Some (cs "pkg-1.2.3.fc30"))
           (cs "pkg-1.3.0.fc30/") (cs "fc30")).
  - exact strdup_ok_copies.
  - reflexivity.
Defined.

(** X2. The result of [get_product_release] is undefined in one case and
    no other: a before build is given whose identifier has no period, while
    the after identifier has one and its copy was made. *)
Theorem X2_release_undefined_iff
        (sd : cstr -> option cstr) (before : option cstr) (after : cstr) :
  get_product_release sd before after = ReleaseUndefined <->
  exists b i,
    before = Some b /\ ~ In "."%char b
    /\ rindex after "." = Some i /\ sd (skipn (S i) after) <> None.
Proof.
  unfold get_product_release. split.
  - destruct (rindex after ".") as [i|] eqn:Ra; [|discriminate].
    rewrite Nat.add_1_r.
    destruct (sd (skipn (S i) after)) as [ap|] eqn:Ea; [|discriminate].
    destruct before as [b|]; [|discriminate].
    destruct (rindex b ".") as [j|] eqn:Rb.
    + destruct (sd (skipn (j + 1) b)); [|discriminate].
      destruct (negb _); discriminate.
    + intros _. exists b, i. apply rindex_None in Rb.
      repeat split; try assumption. congruence.
  - intros (b & i & -> & N & Ra & Ea). rewrite Ra, Nat.add_1_r.
    destruct (sd (skipn (S i) after)); [|contradiction].
    apply rindex_None in N. now rewrite N.
Qed.

(** X3. With a [strdup] that copies or returns NULL, the mismatch
    diagnostic is written only for two builds whose product releases
    differ, and it names the release of the before build, then that of the
    after build. *)
Theorem X3_release_mismatch_sound
        (sd : cstr -> option cstr) (before : option cstr) (after x y : cstr) :
  copy_or_null sd ->
  get_product_release sd before after = NoRelease (ReleaseMismatch x y) ->
  x <> y /\ tag_of after y /\ exists b, before = Some b /\ tag_of b x.
Proof.
  intros Hsd. unfold get_product_release.
  destruct (rindex after ".") as [i|] eqn:Ra; [|discriminate].
  destruct (sd (skipn (i + 1) after)) as [ap|] eqn:Ea; [|discriminate].
  apply Hsd in Ea. subst ap. rewrite Nat.add_1_r. fold (cut_tag after i).
  destruct before as [b|]; [|discriminate].
  destruct (rindex b ".") as [j|] eqn:Rb; [|discriminate].
  destruct (sd (skipn (j + 1) b)) as [bp|] eqn:Eb; [|discriminate].
  apply Hsd in Eb. subst bp. rewrite Nat.add_1_r. fold (cut_tag b j).
  destruct (strcmp (cut_tag b j) (cut_tag after i) =? 0)%Z eqn:C;
    simpl; [discriminate|].
  apply strcmp_neq in C. intros H. injection H as <- <-.
  split; [exact C|]. split; [now apply cut_tag_of|].
  exists b. split; [reflexivity|now apply cut_tag_of].
Qed.

Lemma X3_release_mismatch_sound_witness :
  cs "fc30" <> cs "fc31"
  /\ tag_of (cs "pkg-1.3.0.fc31") (cs "fc31")
  /\ exists b, Some (cs "pkg-1.2.3.fc30") = Some b /\ tag_of b (cs "fc30").
Proof.
  apply (@X3_release_mismatch_sound Sample.strdup_ok
           (Some (cs "pkg-1.2.3.fc30")) (cs "pkg-1.3.0.fc31")).
  - exact strdup_ok_copies.
  - reflexivity.
Defined.

(* ================================================================= *)
(** ** The selection bitmap *)

Lemma UINT64_MAX_ones : UINT64_MAX = Z.ones 64.
Proof. reflexivity. Qed.

Lemma in_uint64_mask z : in_uint64 z <-> Z.land z UINT64_MAX = z.
Proof.
  unfold in_uint64. rewrite UINT64_MAX_ones, Z.land_ones by lia.
  change (Z.ones 64) with (2 ^ 64 - 1)%Z. split.
  - intros H. apply Z.mod_small. lia.
  - intros H. pose proof (Z.mod_pos_bound z (2 ^ 64)) as B. lia.
Qed.

Lemma in_uint64_max : in_uint64 UINT64_MAX.
Proof. unfold in_uint64, UINT64_MAX. lia. Qed.

Lemma in_uint64_lor a b : in_uint64 a -> in_uint64 b -> in_uint64 (Z.lor a b).
Proof.
  rewrite !in_uint64_mask. intros Ha Hb.
  now rewrite Z.land_lor_distr_l, Ha, Hb.
Qed.

Lemma in_uint64_land a b : in_uint64 a -> in_uint64 (Z.land a b).
Proof.
  rewrite !in_uint64_mask. intros Ha.
  now rewrite <- Z.land_assoc, (Z.land_comm b), Z.land_assoc, Ha.
Qed.

Lemma lor_max a : in_uint64 a -> Z.lor a UINT64_MAX = UINT64_MAX.
Proof.
  intros H. apply in_uint64_mask in H. rewrite <- H at 1.
  apply Z.bits_inj'. intros n _.
  rewrite Z.lor_spec, Z.land_spec. now destruct (Z.testbit UINT64_MAX n), (Z.testbit a n).
Qed.

Lemma not64_max : not64 UINT64_MAX = 0%Z.
Proof. unfold not64. apply Z.lxor_nilpotent. Qed.

Lemma land_lor_same s f : Z.land (Z.lor s f) f = f.
Proof.
  apply Z.bits_inj'. intros n _. rewrite Z.land_spec, Z.lor_spec.
  now destruct (Z.testbit s n), (Z.testbit f n).
Qed.

Lemma land_lor_keeps s g f : Z.land s f = f -> Z.land (Z.lor s g) f = f.
Proof.
  intros H. rewrite Z.land_lor_distr_l, H.
  apply Z.bits_inj'. intros n _. rewrite Z.lor_spec, Z.land_spec.
  now destruct (Z.testbit g n), (Z.testbit f n).
Qed.

Lemma land_not64_same s f : in_uint64 s -> Z.land (Z.land s (not64 f)) f = 0%Z.
Proof.
  intros H. apply in_uint64_mask in H. rewrite <- H. unfold not64.
  apply Z.bits_inj'. intros n _.
  rewrite !Z.land_spec, Z.lxor_spec, Z.bits_0.
  now destruct (Z.testbit UINT64_MAX n), (Z.testbit s n), (Z.testbit f n).
Qed.

Lemma land_keeps_clear s x f : Z.land s f = 0%Z -> Z.land (Z.land s x) f = 0%Z.
Proof.
  intros H.
  now rewrite <- Z.land_assoc, (Z.land_comm x), Z.land_assoc, H, Z.land_0_l.
Qed.

(** The loop stops at the first entry with the name. *)
Lemma find_inspection_first_named table tok e exclude selected :
  first_named table tok e ->
  find_inspection table tok exclude selected
  = (true, if exclude then Z.land selected (not64 (insp_flag e))
           else Z.lor selected (insp_flag e)).
Proof.
  intros (pre & post & -> & F & Z0 & N). unfold names in *.
  induction pre as [|x pre IH]; simpl.
  - apply Z.eqb_neq in Z0. rewrite Z0, N. now destruct exclude.
  - inversion F as [|? ? [Zx Nx] F']; subst. apply Z.eqb_neq in Zx.
    rewrite Zx, Nx. now apply IH.
Qed.

Lemma find_inspection_found_named table tok :
  fst (find_inspection table tok false 0) = true ->
  exists e, first_named table tok e.
Proof.
  induction table as [|x rest IH]; simpl; [discriminate|].
  destruct (insp_flag x =? 0)%Z eqn:Zx; [discriminate|].
  apply Z.eqb_neq in Zx.
  destruct (strcasecmp tok (insp_name x) =? 0)%Z eqn:N.
  - intros _. exists x, [], rest. now repeat split.
  - intros H. destruct (IH H) as (e & pre & post & -> & F & Z0 & Ne).
    exists e, (x :: pre), post. repeat split; try assumption.
    constructor; [now split|exact F].
Qed.

Lemma first_named_In table tok e : first_named table tok e -> In e table.
Proof. intros (pre & post & -> & _). apply in_or_app. right. now left. Qed.

(** A token that is found stands for a flag. *)
Lemma is_known_token_flag w tok :
  is_known w tok = true -> exists f, token_flag (inspections w) tok f.
Proof.
  unfold is_known, process_inspection_flag, token_flag. fold (is_ALL tok).
  destruct (is_ALL tok).
  - intros _. exists UINT64_MAX. now left.
  - intros H. apply find_inspection_found_named in H. destruct H as [e H].
    exists (insp_flag e). right. split; [reflexivity|]. now exists e.
Qed.

Lemma token_flag_in_uint64 w tok f :
  Forall (fun e => in_uint64 (insp_flag e)) (inspections w) ->
  token_flag (inspections w) tok f -> in_uint64 f.
Proof.
  intros R [[_ ->]|[_ (e & H & ->)]]; [apply in_uint64_max|].
  rewrite Forall_forall in R. now apply R, first_named_In with (tok := tok).
Qed.

Lemma process_flag_inclusion w tok f selected :
  token_flag (inspections w) tok f -> in_uint64 selected ->
  process_inspection_flag w tok false selected = (true, Z.lor selected f).
Proof.
  unfold process_inspection_flag. fold (is_ALL tok).
  intros [[-> ->]|[-> (e & H & ->)]] S.
  - now rewrite lor_max.
  - now rewrite (find_inspection_first_named false selected H).
Qed.

Lemma process_flag_exclusion w tok f selected :
  token_flag (inspections w) tok f ->
  process_inspection_flag w tok true selected
  = (true, Z.land selected (not64 f)).
Proof.
  unfold process_inspection_flag. fold (is_ALL tok).
  intros [[-> ->]|[-> (e & H & ->)]].
  - now rewrite not64_max, Z.land_0_r.
  - now rewrite (find_inspection_first_named true selected H).
Qed.

Lemma selection_loop_cons_Ret w tok rest exclude selected s t :
  selection_loop w (tok :: rest) exclude selected = (Ret s, t) ->
  is_known w tok = true
  /\ selection_loop w rest exclude
       (snd (process_inspection_flag w tok exclude selected)) = (Ret s, t).
Proof.
  simpl. rewrite found_is_known. destruct (is_known w tok); simpl;
    [|discriminate].
  destruct (selection_loop w rest exclude _) as [r t']. simpl.
  intros H. now injection H as -> ->.
Qed.

Lemma inclusion_loop w tokens : forall selected s t,
  Forall (fun e => in_uint64 (insp_flag e)) (inspections w) ->
  in_uint64 selected ->
  selection_loop w tokens false selected = (Ret s, t) ->
  exists flags,
    Forall2 (token_flag (inspections w)) tokens flags
    /\ s = fold_left Z.lor flags selected
    /\ in_uint64 s
    /\ (forall g, Z.land selected g = g -> Z.land s g = g)
    /\ Forall (fun f => Z.land s f = f) flags.
Proof.
  induction tokens as [|tok rest IH]; intros selected s t R S H.
  - simpl in H. injection H as <- _. exists [].
    split; [constructor|]. split; [reflexivity|]. split; [exact S|].
    split; [auto|constructor].
  - apply selection_loop_cons_Ret in H. destruct H as [K H].
    destruct (is_known_token_flag _ _ K) as [f Tf].
    assert (Rf : in_uint64 f) by (eapply token_flag_in_uint64; eauto).
    erewrite process_flag_inclusion in H by eauto. simpl in H.
    destruct (IH _ _ _ R (in_uint64_lor S Rf) H)
      as (flags & F2 & E & Rs & Mono & All).
    exists (f :: flags).
    split; [now constructor|]. split; [exact E|]. split; [exact Rs|].
    split.
    + intros g Hg. apply Mono. now apply land_lor_keeps.
    + constructor; [|exact All]. apply Mono, land_lor_same.
Qed.

Lemma exclusion_loop w tokens : forall selected s t,
  in_uint64 selected ->
  selection_loop w tokens true selected = (Ret s, t) ->
  exists flags,
    Forall2 (token_flag (inspections w)) tokens flags
    /\ s = fold_left (fun a f => Z.land a (not64 f)) flags selected
    /\ in_uint64 s
    /\ (forall g, Z.land selected g = 0%Z -> Z.land s g = 0%Z)
    /\ Forall (fun f => Z.land s f = 0%Z) flags.
Proof.
  induction tokens as [|tok rest IH]; intros selected s t S H.
  - simpl in H. injection H as <- _. exists [].
    split; [constructor|]. split; [reflexivity|]. split; [exact S|].
    split; [auto|constructor].
  - apply selection_loop_cons_Ret in H. destruct H as [K H].
    destruct (is_known_token_flag _ _ K) as [f Tf].
    erewrite process_flag_exclusion in H by eauto. simpl in H.
    destruct (IH _ _ _ (in_uint64_land (not64 f) S) H)
      as (flags & F2 & E & Rs & Mono & All).
    exists (f :: flags).
    split; [now constructor|]. split; [exact E|]. split; [exact Rs|].
    split.
    + intros g Hg. apply Mono. now apply land_keeps_clear.
    + constructor; [|exact All]. apply Mono. now apply land_not64_same.
Qed.

(** What a -T or -E option that goes through leaves in the locals. *)
Lemma selection_option_result w is_E optarg l l' t :
  selection_option w is_E optarg l = (Ret l', t) ->
  inspection_opt l = false
  /\ exists s,
       selection_loop w (strsep_all optarg (cs ",")) is_E
                      (if is_E then UINT64_MAX else 0%Z) = (Ret s, [])
       /\ l' = set_selection l s true is_E.
Proof.
  unfold selection_option. destruct (inspection_opt l).
  - simpl. discriminate.
  - unfold check_inspection_options. rewrite bind_pure. intros H.
    apply bind_Ret_inv in H. destruct H as (s & t1 & t2 & E & P & ->).
    assert (t1 = []) as -> by (eapply selection_loop_Ret; eauto).
    unfold pure in P. injection P as <- <-. split; [reflexivity|].
    now exists s.
Qed.

(** X4. With flags that are 64-bit values, a -T option that goes through
    leaves in [selected] the bitwise OR of the flags its tokens stand for
    (all 64 bits for ALL, the flag of the first entry with that name
    otherwise): every one of these flags is set in it, whatever the order
    of the tokens. The run is marked as not excluding. *)
Theorem X4_inclusion_bitmap
        (w : collaborators) (optarg : cstr) (l l' : locals)
        (t : list event) :
  Forall (fun e => in_uint64 (insp_flag e)) (inspections w) ->
  option_case w (Opt_T optarg) l = (Ret l', t) ->
  exists flags,
    Forall2 (token_flag (inspections w)) (strsep_all optarg (cs ",")) flags
    /\ selected l' = fold_left Z.lor flags 0%Z
    /\ Forall (fun f => Z.land (selected l') f = f) flags
    /\ in_uint64 (selected l')
    /\ exclude l' = false /\ inspection_opt l' = true.
Proof.
  intros R H. cbn [option_case] in H.
  apply selection_option_result in H. destruct H as (_ & s & L & ->).
  assert (Z0 : in_uint64 0) by (unfold in_uint64, UINT64_MAX; lia).
  destruct (inclusion_loop _ _ R Z0 L) as (flags & F2 & E & Rs & _ & All).
  exists flags. simpl.
  split; [exact F2|]. split; [exact E|]. split; [exact All|].
  split; [exact Rs|]. split; reflexivity.
Qed.

Lemma sample_flags_in_uint64 :
  Forall (fun e => in_uint64 (insp_flag e)) (inspections Sample.world).
Proof.
  repeat (constructor; [unfold in_uint64, UINT64_MAX; simpl; lia|]).
  constructor.
Qed.

Lemma X4_inclusion_bitmap_witness :
  exists flags,
    Forall2 (token_flag (inspections Sample.world))
            (strsep_all (cs "elf,LICENSE") (cs ",")) flags
    /\ selected (set_selection initial_locals 5 true false)
       = fold_left Z.lor flags 0%Z
    /\ Forall (fun f =>
                 Z.land (selected (set_selection initial_locals 5 true false)) f
                 = f) flags
    /\ in_uint64 (selected (set_selection initial_locals 5 true false))
    /\ exclude (set_selection initial_locals 5 true false) = false
    /\ inspection_opt (set_selection initial_locals 5 true false) = true.
Proof.
  apply (@X4_inclusion_bitmap Sample.world (cs "elf,LICENSE")
           initial_locals _ []).
  - exact sample_flags_in_uint64.
  - reflexivity.
Defined.

(** X5. A -E option that goes through leaves in [selected] the 64 bits
    with the flags its tokens stand for cleared, one after the other: none
    of these flags has a bit left in it (with ALL among the tokens it is
    0), and it is a 64-bit value. The run is marked as excluding. *)
Theorem X5_exclusion_bitmap
        (w : collaborators) (optarg : cstr) (l l' : locals)
        (t : list event) :
  option_case w (Opt_E optarg) l = (Ret l', t) ->
  exists flags,
    Forall2 (token_flag (inspections w)) (strsep_all optarg (cs ",")) flags
    /\ selected l'
       = fold_left (fun a f => Z.land a (not64 f)) flags UINT64_MAX
    /\ Forall (fun f => Z.land (selected l') f = 0%Z) flags
    /\ (In UINT64_MAX flags -> selected l' = 0%Z)
    /\ in_uint64 (selected l')
    /\ exclude l' = true /\ inspection_opt l' = true.
Proof.
  intros H. cbn [option_case] in H.
  apply selection_option_result in H. destruct H as (_ & s & L & ->).
  destruct (exclusion_loop _ _ in_uint64_max L)
    as (flags & F2 & E & Rs & _ & All).
  exists flags. simpl.
  split; [exact F2|]. split; [exact E|]. split; [exact All|].
  split; [|split; [exact Rs|split; reflexivity]].
  intros I. rewrite Forall_forall in All. apply All in I.
  apply in_uint64_mask in Rs. congruence.
Qed.

Lemma X5_exclusion_bitmap_witness :
  exists flags,
    Forall2 (token_flag (inspections Sample.world))
            (strsep_all (cs "Elf,manpage") (cs ",")) flags
    /\ selected (set_selection initial_locals (UINT64_MAX - 12) true true)
       = fold_left (fun a f => Z.land a (not64 f)) flags UINT64_MAX
    /\ Forall (fun f =>
                 Z.land (selected (set_selection initial_locals
                                     (UINT64_MAX - 12) true true)) f
                 = 0%Z) flags
    /\ (In UINT64_MAX flags ->
        selected (set_selection initial_locals (UINT64_MAX - 12) true true)
        = 0%Z)
    /\ in_uint64 (selected (set_selection initial_locals
                              (UINT64_MAX - 12) true true))
    /\ exclude (set_selection initial_locals (UINT64_MAX - 12) true true)
       = true
    /\ inspection_opt (set_selection initial_locals
                         (UINT64_MAX - 12) true true) = true.
Proof.
  apply (@X5_exclusion_bitmap Sample.world (cs "Elf,manpage")
           initial_locals _ []).
  reflexivity.
Defined.

(* ================================================================= *)
(** ** Names in any case *)

Lemma tolower_idem c : tolower (tolower c) = tolower c.
Proof. destruct c as [[] [] [] [] [] [] [] []]; reflexivity. Qed.

Lemma tolower_comma c : Ascii.eqb (tolower c) "," = Ascii.eqb c ",".
Proof. destruct c as [[] [] [] [] [] [] [] []]; reflexivity. Qed.

Lemma map_tolower_idem s : map tolower (map tolower s) = map tolower s.
Proof.
  rewrite map_map. apply map_ext. intros c. apply tolower_idem.
Qed.

Lemma strcasecmp_lower a b : strcasecmp (map tolower a) b = strcasecmp a b.
Proof. unfold strcasecmp. now rewrite map_tolower_idem. Qed.

Lemma strsep_all_lower s :
  strsep_all (map tolower s) (cs ",")
  = map (map tolower) (strsep_all s (cs ",")).
Proof.
  induction s as [|x s IH]; [reflexivity|].
  cbn [map strsep_all]. rewrite !comma_reject, tolower_comma, IH.
  destruct (Ascii.eqb x ","); [reflexivity|].
  now destruct (strsep_all s (cs ",")).
Qed.

Lemma find_inspection_lower table tok exclude selected :
  find_inspection table (map tolower tok) exclude selected
  = find_inspection table tok exclude selected.
Proof.
  induction table as [|e rest IH]; simpl; [reflexivity|].
  now rewrite strcasecmp_lower, IH.
Qed.

Lemma process_inspection_flag_lower w tok exclude selected :
  process_inspection_flag w (map tolower tok) exclude selected
  = process_inspection_flag w tok exclude selected.
Proof.
  unfold process_inspection_flag.
  now rewrite strcasecmp_lower, find_inspection_lower.
Qed.

Lemma selection_loop_lower w tokens exclude : forall selected,
  fst (selection_loop w (map (map tolower) tokens) exclude selected)
  = fst (selection_loop w tokens exclude selected).
Proof.
  induction tokens as [|tok rest IH]; intros selected; [reflexivity|].
  cbn [map selection_loop]. rewrite process_inspection_flag_lower.
  destruct (fst (process_inspection_flag w tok exclude selected));
    simpl; [apply IH|reflexivity].
Qed.

Lemma selection_option_lower w is_E optarg l :
  fst (selection_option w is_E (map tolower optarg) l)
  = fst (selection_option w is_E optarg l).
Proof.
  unfold selection_option. destruct (inspection_opt l); [reflexivity|].
  unfold check_inspection_options. rewrite !bind_pure, strsep_all_lower.
  pose proof (selection_loop_lower w (strsep_all optarg (cs ",")) is_E
                (if is_E then UINT64_MAX else 0%Z)) as E.
  destruct (selection_loop w (map (map tolower) _) is_E _) as [r1 t1].
  destruct (selection_loop w (strsep_all optarg (cs ",")) is_E _)
    as [r2 t2].
  simpl in E. subst r2. now destruct r1.
Qed.

(** X6. The lists of -T and -E are read without regard to case: two
    options that differ only in the case of their letters are accepted
    together, and leave the same locals. *)
Theorem X6_selection_ignores_case
        (w : collaborators) (is_E : bool) (optarg optarg' : cstr)
        (l l' : locals) (t : list event) :
  map tolower optarg = map tolower optarg' ->
  selection_option w is_E optarg l = (Ret l', t) ->
  selection_option w is_E optarg' l = (Ret l', t).
Proof.
  intros C H.
  assert (T : t = [])
    by (apply selection_option_Ret in H; now destruct H).
  assert (F : fst (selection_option w is_E optarg' l) = Ret l').
  { rewrite <- selection_option_lower, <- C, selection_option_lower.
    now rewrite H. }
  destruct (selection_option w is_E optarg' l) as [r t'] eqn:E.
  simpl in F. subst r t.
  apply selection_option_Ret in E. now destruct E as (-> & _).
Qed.

Lemma X6_selection_ignores_case_witness :
  selection_option Sample.world false (cs "License,ELF") initial_locals
  = (Ret (set_selection initial_locals 5 true false), []).
Proof.
  apply (@X6_selection_ignores_case Sample.world false (cs "license,elf")
           (cs "License,ELF")).
  - reflexivity.
  - reflexivity.
Defined.

(* ================================================================= *)
(** ** What the option loop leaves in the locals *)

(** The options after which the loop goes on, and what each one changes. *)
Lemma option_case_Ret_cases w c l l' t :
  option_case w c l = (Ret l', t) ->
  (exists a, c = Opt_c a /\ l' = set_cfgfile l (Some a))
  \/ (exists a, c = Opt_T a /\ selection_option w false a l = (Ret l', t))
  \/ (exists a, c = Opt_E a /\ selection_option w true a l = (Ret l', t))
  \/ (exists a, c = Opt_a a /\ l' = set_archopt l (Some a))
  \/ (exists a, c = Opt_r a /\ l' = set_release l (Some a))
  \/ (exists a, c = Opt_o a /\ l' = set_output l (Some a))
  \/ (exists a, c = Opt_F a
                /\ (0 <= find_format (formats w) a (formatidx l))%Z
                /\ l' = set_formatidx l
                          (find_format (formats w) a (formatidx l)))
  \/ (exists a v, c = Opt_w a /\ l' = set_workdir_opt l (Some v))
  \/ (c = Opt_f /\ l' = set_keep (set_fetch_only l true) true)
  \/ (c = Opt_k /\ l' = set_keep l true)
  \/ (c = Opt_v /\ l' = set_verbose_opt l true).
Proof.
  destruct c; cbn [option_case]; try discriminate.
  - intros H. injection H as <- _. left. eauto.
  - intros H. right. left. eauto.
  - intros H. do 2 right. left. eauto.
  - intros H. injection H as <- _. do 3 right. left. eauto.
  - intros H. injection H as <- _. do 4 right. left. eauto.
  - intros H. injection H as <- _. do 5 right. left. eauto.
  - destruct (find_format (formats w) optarg (formatidx l) <? 0)%Z eqn:N;
      [discriminate|].
    intros H. injection H as <- _. apply Z.ltb_ge in N.
    do 6 right. left. eauto.
  - destruct (index optarg "~").
    + destruct (glob w optarg) as [j pv].
      destruct ((j =? 0)%Z && (List.length pv =? 1)%nat); [|discriminate].
      intros H. injection H as <- _. do 7 right. left. eauto.
    + intros H. injection H as <- _. do 7 right. left. eauto.
  - intros H. injection H as <- _. do 8 right. left. eauto.
  - intros H. injection H as <- _. do 9 right. left. eauto.
  - intros H. injection H as <- _. do 10 right. eauto.
Qed.

(** A property of the locals that every option keeps is kept by the
    loop. *)
Lemma getopt_loop_keeps w (P : locals -> Prop) :
  (forall c l l' t, option_case w c l = (Ret l', t) -> P l -> P l') ->
  forall opts l l' t, getopt_loop w opts l = (Ret l', t) -> P l -> P l'.
Proof.
  intros Step. induction opts as [|c rest IH]; intros l l' t; simpl.
  - intros H. now injection H as <- _.
  - intros H Pl. apply bind_Ret_inv in H.
    destruct H as (l1 & t1 & t2 & C & R & _). eauto.
Qed.

(** A property that every option keeps and one option brings about holds
    after a loop with that option. *)
Lemma getopt_loop_brings w (P : locals -> Prop) (c0 : getopt_result) :
  (forall c l l' t, option_case w c l = (Ret l', t) -> P l -> P l') ->
  (forall l l' t, option_case w c0 l = (Ret l', t) -> P l') ->
  forall opts l l' t,
    getopt_loop w opts l = (Ret l', t) -> In c0 opts -> P l'.
Proof.
  intros Step Brings. induction opts as [|c rest IH]; intros l l' t; simpl.
  - intros _ [].
  - intros H I. apply bind_Ret_inv in H.
    destruct H as (l1 & t1 & t2 & C & R & _).
    destruct I as [->|I]; [|eauto].
    eapply getopt_loop_keeps; eauto.
Qed.

Lemma selection_option_fields w is_E a l l' t :
  selection_option w is_E a l = (Ret l', t) ->
  cfgfile l' = cfgfile l /\ archopt l' = archopt l
  /\ workdir l' = workdir l /\ output l' = output l
  /\ release l' = release l /\ formatidx l' = formatidx l
  /\ fetch_only l' = fetch_only l /\ keep l' = keep l
  /\ verbose l' = verbose l /\ exclude l' = is_E.
Proof.
  intros H. apply selection_option_result in H.
  destruct H as (_ & s & _ & ->). now repeat split.
Qed.

(** -f sets [keep] with [fetch_only]; nothing clears either. *)
Lemma option_case_keep w c l l' t :
  option_case w c l = (Ret l', t) ->
  (keep l = true -> keep l' = true)
  /\ ((fetch_only l = true -> keep l = true) ->
      fetch_only l' = true -> keep l' = true).
Proof.
  intros H. (apply option_case_Ret_cases in H;
   destruct H as [(? & -> & ->)|[(? & -> & H)|[(? & -> & H)|[(? & -> & ->)|
                 [(? & -> & ->)|[(? & -> & ->)|[(? & -> & ? & ->)|
                 [(? & ? & -> & ->)|[(-> & ->)|[(-> & ->)|(-> & ->)]]]]]]]]]];
   [ | apply selection_option_fields in H
     | apply selection_option_fields in H | | | | | | | | ]); simpl; try tauto;
    destruct H as (_ & _ & _ & _ & _ & _ & -> & -> & _); tauto.
Qed.

Lemma option_case_release w c l l' t :
  option_case w c l = (Ret l', t) ->
  (release l <> None -> release l' <> None)
  /\ (forall r, c = Opt_r r -> release l' <> None).
Proof.
  intros H. (apply option_case_Ret_cases in H;
   destruct H as [(? & -> & ->)|[(? & -> & H)|[(? & -> & H)|[(? & -> & ->)|
                 [(? & -> & ->)|[(? & -> & ->)|[(? & -> & ? & ->)|
                 [(? & ? & -> & ->)|[(-> & ->)|[(-> & ->)|(-> & ->)]]]]]]]]]];
   [ | apply selection_option_fields in H
     | apply selection_option_fields in H | | | | | | | | ]); simpl;
    try (destruct H as (_ & _ & _ & _ & R & _); rewrite R);
    (split; [intros N; first [exact N | discriminate]
            |intros r E; first [discriminate E | discriminate]]).
Qed.

(** After a -T that goes through, [selected] is not 0. *)
Lemma inclusion_step_nonzero w tok selected :
  is_known w tok = true ->
  snd (process_inspection_flag w tok false selected) <> 0%Z.
Proof.
  intros K. destruct (is_known_token_flag _ _ K) as [f Tf].
  unfold process_inspection_flag. fold (is_ALL tok).
  destruct Tf as [[-> ->]|[-> (e & H & ->)]]; simpl; [discriminate|].
  erewrite find_inspection_first_named by eauto. simpl.
  destruct H as (_ & _ & _ & _ & Z0 & _).
  intros E. apply Z.lor_eq_0_iff in E. tauto.
Qed.

Lemma inclusion_loop_nonzero w tokens : forall selected s t,
  selection_loop w tokens false selected = (Ret s, t) ->
  selected <> 0%Z \/ tokens <> [] -> s <> 0%Z.
Proof.
  induction tokens as [|tok rest IH]; intros selected s t H N.
  - simpl in H. injection H as <- _. destruct N; congruence.
  - apply selection_loop_cons_Ret in H. destruct H as [K H].
    eapply IH; [exact H|]. left. now apply inclusion_step_nonzero.
Qed.

(** The test of line 431 tells whether a -T or -E option was seen. *)
Lemma option_case_selected w c l l' t :
  option_case w c l = (Ret l', t) ->
  (if inspection_opt l then selected l <> 0%Z \/ exclude l = true
   else selected l = 0%Z /\ exclude l = false) ->
  (if inspection_opt l' then selected l' <> 0%Z \/ exclude l' = true
   else selected l' = 0%Z /\ exclude l' = false).
Proof.
  intros H.
  apply option_case_Ret_cases in H.
  destruct H as [(? & -> & ->)|[(a & -> & H)|[(a & -> & H)|[(? & -> & ->)|
                [(? & -> & ->)|[(? & -> & ->)|[(? & -> & ? & ->)|
                [(? & ? & -> & ->)|[(-> & ->)|[(-> & ->)|(-> & ->)]]]]]]]]]];
    simpl; try tauto.
  - apply selection_option_result in H. destruct H as (_ & s & L & ->).
    simpl. intros _. left. eapply inclusion_loop_nonzero; [exact L|].
    right. apply strsep_all_nonempty.
  - apply selection_option_result in H. destruct H as (_ & s & L & ->).
    simpl. tauto.
Qed.

(** What [main_config] leaves in the run context. *)
Lemma main_config_result w l ri t :
  main_config w l = (Ret ri, t) ->
  exists cfg,
    cfg = match cfgfile l with Some f => f | None => CFGFILE end
    /\ t = [CallInitRpminspect cfg]
    /\ fst (init_rpminspect w cfg) = 0%Z
    /\ ri_tests ri
       = (if negb (selected l =? 0)%Z || exclude l then selected l
          else ri_tests (snd (init_rpminspect w cfg)))
    /\ ri_product_release ri = release l
    /\ ri_verbose ri = verbose l
    /\ ri_workdir ri
       = match workdir l with
         | Some d => d
         | None => ri_workdir (snd (init_rpminspect w cfg))
         end
    /\ ri_before ri = ri_before (snd (init_rpminspect w cfg))
    /\ ri_after ri = ri_after (snd (init_rpminspect w cfg)).
Proof.
  unfold main_config. intros H. apply bind_Ret_inv in H.
  destruct H as (f & t1 & t2 & C & R & ->).
  assert (T1 : t1 = []
               /\ f = match cfgfile l with Some f => f | None => CFGFILE end).
  { destruct (cfgfile l) as [f0|].
    - destruct (access w f0 =? -1)%Z; [discriminate|]. now injection C.
    - destruct (access w CFGFILE =? 0)%Z; [|discriminate]. now injection C. }
  destruct T1 as [-> Ef]. exists f. split; [exact Ef|]. clear C Ef.
  destruct (init_rpminspect w f) as [rc ri1].
  destruct (rc =? 0)%Z eqn:Rc; simpl in R; [|discriminate].
  apply Z.eqb_eq in Rc. injection R as <- <-. simpl.
  repeat split; try assumption.
  - destruct (negb (selected l =? 0)%Z || exclude l), (workdir l);
      reflexivity.
  - destruct (negb (selected l =? 0)%Z || exclude l), (workdir l);
      reflexivity.
  - destruct (negb (selected l =? 0)%Z || exclude l), (workdir l);
      reflexivity.
  - destruct (negb (selected l =? 0)%Z || exclude l), (workdir l);
      reflexivity.
  - destruct (negb (selected l =? 0)%Z || exclude l), (workdir l);
      reflexivity.
  - destruct (negb (selected l =? 0)%Z || exclude l), (workdir l);
      reflexivity.
Qed.

(** X7. A run with a -T or -E option inspects with the bitmap built from
    that option, whatever the configuration says; a run without one
    inspects with the bitmap that [init_rpminspect] left in the context. *)
Theorem X7_selection_replaces_tests
        (w : collaborators) (opts : list getopt_result) (l : locals)
        (t : list event) (ri : rpminspect) (t' : list event) :
  getopt_loop w opts initial_locals = (Ret l, t) ->
  main_config w l = (Ret ri, t') ->
  (existsb is_selection opts = true -> ri_tests ri = selected l)
  /\ (existsb is_selection opts = false ->
      exists cfg,
        t' = [CallInitRpminspect cfg]
        /\ ri_tests ri = ri_tests (snd (init_rpminspect w cfg))).
Proof.
  intros G C.
  assert (Inv : if inspection_opt l then selected l <> 0%Z \/ exclude l = true
                else selected l = 0%Z /\ exclude l = false).
  { eapply (getopt_loop_keeps w
              (fun l => if inspection_opt l
                        then selected l <> 0%Z \/ exclude l = true
                        else selected l = 0%Z /\ exclude l = false)).
    - intros c l0 l1 t0. apply option_case_selected.
    - exact G.
    - simpl. now split. }
  destruct (main_config_result _ _ C) as (cfg & _ & T & _ & Te & _).
  split.
  - intros S. apply getopt_loop_Ret in G. destruct G as (_ & _ & I).
    rewrite I in Inv by auto. rewrite Te.
    destruct Inv as [N| ->]; [|now rewrite orb_true_r].
    apply Z.eqb_neq in N. now rewrite N.
  - intros S. exists cfg. split; [exact T|].
    rewrite (getopt_loop_keeps_opt _ _ _ G S) in Inv. simpl in Inv.
    destruct Inv as [E1 E2]. rewrite Te, E1, E2. reflexivity.
Qed.

Lemma X7_selection_replaces_tests_witness :
  (existsb is_selection [Opt_v; Opt_E (cs "ALL")] = true ->
   ri_tests (set_verbose (set_tests Sample.ri0 0) true) = 0%Z)
  /\ (existsb is_selection [Opt_v; Opt_E (cs "ALL")] = false ->
      exists cfg,
        [CallInitRpminspect CFGFILE] = [CallInitRpminspect cfg]
        /\ ri_tests (set_verbose (set_tests Sample.ri0 0) true)
           = ri_tests (snd (init_rpminspect Sample.world cfg))).
Proof.
  apply (@X7_selection_replaces_tests Sample.world
           [Opt_v; Opt_E (cs "ALL")]
           (set_selection (set_verbose_opt initial_locals true) 0 true true)
           []).
  - reflexivity.
  - reflexivity.
Defined.

(* ================================================================= *)
(** ** The output format *)

Lemma find_format_cases table a idx :
  find_format table a idx = idx
  \/ exists f,
       In f (format_entries table)
       /\ strcasecmp (fmt_name f) a = 0%Z
       /\ find_format table a idx = fmt_type f.
Proof.
  induction table as [|f rest IH]; simpl; [now left|].
  destruct (fmt_type f =? -1)%Z; [now left|].
  destruct (strcasecmp (fmt_name f) a =? 0)%Z eqn:N.
  - apply Z.eqb_eq in N. right. exists f. repeat split; auto. now left.
  - destruct IH as [E|(g & I & Ng & E)]; [now left|].
    right. exists g. repeat split; auto. now right.
Qed.

Lemma find_format_unknown table a idx :
  (forall f, In f (format_entries table) -> strcasecmp (fmt_name f) a <> 0%Z) ->
  find_format table a idx = idx.
Proof.
  induction table as [|f rest IH]; simpl; [reflexivity|].
  destruct (fmt_type f =? -1)%Z; [reflexivity|]. intros U.
  destruct (strcasecmp (fmt_name f) a =? 0)%Z eqn:N.
  - apply Z.eqb_eq in N. exfalso. apply (U f); [now left|exact N].
  - apply IH. intros g I. apply U. now right.
Qed.

Lemma option_case_formatidx w c l l' t :
  option_case w c l = (Ret l', t) ->
  ((forall a, c <> Opt_F a) -> formatidx l' = formatidx l)
  /\ (forall a, c = Opt_F a ->
        (0 <= formatidx l')%Z
        /\ formatidx l' = find_format (formats w) a (formatidx l))
  /\ ((0 <= formatidx l)%Z -> (0 <= formatidx l')%Z).
Proof.
  intros H. apply option_case_Ret_cases in H.
  destruct H as [(? & -> & ->)|[(? & -> & H)|[(? & -> & H)|[(? & -> & ->)|
                [(? & -> & ->)|[(? & -> & ->)|[(a0 & -> & P & ->)|
                [(? & ? & -> & ->)|[(-> & ->)|[(-> & ->)|(-> & ->)]]]]]]]]]];
    try apply selection_option_fields in H;
    try (destruct H as (_ & _ & _ & _ & _ & R & _); rewrite R);
    simpl;
    try (split; [reflexivity|split; [discriminate|tauto]]).
  split; [intros N; now destruct (N a0)|]. split; [|intros _; exact P].
  intros a E. injection E as <-. now split.
Qed.

Lemma getopt_loop_formatidx w opts : forall l0 l t,
  getopt_loop w opts l0 = (Ret l, t) ->
  ((forall a, ~ In (Opt_F a) opts) -> formatidx l = formatidx l0)
  /\ ((0 <= formatidx l0)%Z \/ (exists a, In (Opt_F a) opts) ->
      (0 <= formatidx l)%Z)
  /\ (formatidx l = formatidx l0
      \/ exists f a,
           In (Opt_F a) opts
           /\ In f (format_entries (formats w))
           /\ strcasecmp (fmt_name f) a = 0%Z
           /\ fmt_type f = formatidx l).
Proof.
  induction opts as [|c rest IH]; intros l0 l t; simpl.
  - intros H. injection H as <- _. repeat split; auto.
    intros [P|[a []]]. exact P.
  - intros H. apply bind_Ret_inv in H.
    destruct H as (l1 & t1 & t2 & C & R & _).
    apply option_case_formatidx in C. destruct C as (C1 & C2 & C3).
    destruct (IH _ _ _ R) as (I1 & I2 & I3).
    split; [|split].
    + intros N. rewrite I1, C1; [reflexivity| |].
      * intros a ->. apply (N a). now left.
      * intros a I. apply (N a). now right.
    + intros [P|(a & [->|I])]; apply I2; eauto.
      left. now apply (C2 a).
    + destruct I3 as [E|(f & a & I & If & N & E)].
      * rewrite E.
        assert (D : (exists a, c = Opt_F a) \/ forall a, c <> Opt_F a)
          by (destruct c; try (right; discriminate); left; eauto).
        destruct D as [[a ->]|D]; [|left; now apply C1].
        destruct (C2 a eq_refl) as [_ F].
        destruct (find_format_cases (formats w) a (formatidx l0))
          as [E'|(f & If & N & E')].
        -- left. congruence.
        -- right. exists f, a. repeat split; auto. congruence.
      * right. exists f, a. repeat split; auto.
Qed.

(** X8. After the option loop, [formatidx] is -1 exactly when there was no
    -F option; otherwise it is not negative, and it is the type of an entry
    of the formats table whose name, in any case, is the argument of one
    of the -F options. *)
Theorem X8_format_index
        (w : collaborators) (opts : list getopt_result) (l : locals)
        (t : list event) :
  getopt_loop w opts initial_locals = (Ret l, t) ->
  ((forall a, ~ In (Opt_F a) opts) -> formatidx l = (-1)%Z)
  /\ ((exists a, In (Opt_F a) opts) ->
      (0 <= formatidx l)%Z
      /\ exists f a,
           In (Opt_F a) opts
           /\ In f (format_entries (formats w))
           /\ strcasecmp (fmt_name f) a = 0%Z
           /\ fmt_type f = formatidx l).
Proof.
  intros G. destruct (getopt_loop_formatidx _ _ _ G) as (I1 & I2 & I3).
  split; [exact I1|]. intros F.
  assert (P : (0 <= formatidx l)%Z) by auto.
  split; [exact P|]. destruct I3 as [E|I3]; [|exact I3].
  simpl in E. lia.
Qed.

Lemma X8_format_index_witness :
  ((forall a, ~ In (Opt_F a) [Opt_F (cs "JSON"); Opt_k]) ->
   formatidx (set_keep (set_formatidx initial_locals 1) true) = (-1)%Z)
  /\ ((exists a, In (Opt_F a) [Opt_F (cs "JSON"); Opt_k]) ->
      (0 <= formatidx (set_keep (set_formatidx initial_locals 1) true))%Z
      /\ exists f a,
           In (Opt_F a) [Opt_F (cs "JSON"); Opt_k]
           /\ In f (format_entries (formats Sample.world))
           /\ strcasecmp (fmt_name f) a = 0%Z
           /\ fmt_type f
              = formatidx (set_keep (set_formatidx initial_locals 1) true)).
Proof.
  apply (@X8_format_index Sample.world [Opt_F (cs "JSON"); Opt_k] _ []).
  reflexivity.
Defined.

(** X9. A -F option whose argument is the name of no format is refused
    only while no earlier -F option was accepted: after one, [formatidx] is
    not negative any more, the test of line 317 passes and the earlier
    format stays. *)
Theorem X9_unknown_format_name
        (w : collaborators) (a : cstr) (l : locals) :
  (forall f, In f (format_entries (formats w)) ->
             strcasecmp (fmt_name f) a <> 0%Z) ->
  option_case w (Opt_F a) l
  = if (formatidx l <? 0)%Z
    then (Exit EXIT_FAILURE, [Stderr (InvalidFormat a)])
    else (Ret (set_formatidx l (formatidx l)), []).
Proof.
  intros U. cbn [option_case]. rewrite (find_format_unknown _ _ _ U).
  now destruct (formatidx l <? 0)%Z.
Qed.

Lemma sample_no_format_bogus f :
  In f (format_entries (formats Sample.world)) ->
  strcasecmp (fmt_name f) (cs "bogus") <> 0%Z.
Proof. intros [<-|[<-|[]]]; discriminate. Qed.

Lemma X9_unknown_format_name_witness :
  option_case Sample.world (Opt_F (cs "bogus")) initial_locals
  = (Exit EXIT_FAILURE, [Stderr (InvalidFormat (cs "bogus"))])
  /\ option_case Sample.world (Opt_F (cs "bogus"))
                 (set_formatidx initial_locals 1)
     = (Ret (set_formatidx (set_formatidx initial_locals 1) 1), []).
Proof.
  split.
  - exact (@X9_unknown_format_name Sample.world (cs "bogus") initial_locals
             sample_no_format_bogus).
  - exact (@X9_unknown_format_name Sample.world (cs "bogus")
             (set_formatidx initial_locals 1) sample_no_format_bogus).
Defined.

(* ================================================================= *)
(** ** The builds on the command line *)

(** X10. When the options and the configuration went through, a command
    line with no build, or with three builds or more, ends the run with
    the diagnostic for the build specification, before anything else is
    looked at. *)
Theorem X10_build_count
        (w : collaborators) (opts : list getopt_result) (args : list cstr)
        (l : locals) (t1 : list event) (ri : rpminspect) (t2 : list event) :
  getopt_loop w opts initial_locals = (Ret l, t1) ->
  main_config w l = (Ret ri, t2) ->
  List.length args <> 1%nat -> List.length args <> 2%nat ->
  main w opts args
  = (Exit EXIT_FAILURE,
     t1 ++ t2
     ++ [Stderr InvalidBuildSpec; Stderr SeeHelp; CallFreeRpminspect]).
Proof.
  intros G C N1 N2. unfold main, main_setup.
  rewrite G, bind_Ret, C, bind_Ret.
  destruct args as [|a [|b [|c rest]]]; simpl in N1, N2;
    try contradiction; reflexivity.
Qed.

Lemma X10_build_count_witness :
  main Sample.world [Opt_k] []
  = (Exit EXIT_FAILURE,
     [CallInitRpminspect CFGFILE;
      Stderr InvalidBuildSpec; Stderr SeeHelp; CallFreeRpminspect])
  /\ main Sample.world [] [cs "a.fc30"; cs "b.fc30"; cs "c.fc30"]
     = (Exit EXIT_FAILURE,
        [CallInitRpminspect CFGFILE;
         Stderr InvalidBuildSpec; Stderr SeeHelp; CallFreeRpminspect]).
Proof.
  split.
  - refine (@X10_build_count Sample.world [Opt_k] [] _ []
              _ [CallInitRpminspect CFGFILE] _ _ _ _).
    + reflexivity.
    + reflexivity.
    + discriminate.
    + discriminate.
  - refine (@X10_build_count Sample.world []
              [cs "a.fc30"; cs "b.fc30"; cs "c.fc30"] _ []
              _ [CallInitRpminspect CFGFILE] _ _ _ _).
    + reflexivity.
    + reflexivity.
    + discriminate.
    + discriminate.
Defined.

(* ================================================================= *)
(** ** How the set-up may end *)

Lemma setup_outcome_bind {A B} u (m : M A) (f : A -> M B) :
  setup_outcome u m ->
  (forall a t, m = (Ret a, t) -> setup_outcome u (f a)) ->
  setup_outcome u (bind m f).
Proof.
  destruct m as [[a|s| |] t]; intros [F O] K; simpl in *;
    try (split; assumption).
  destruct (K a t eq_refl) as [F' O'].
  split; [now apply Forall_app|exact O'].
Qed.

Lemma setup_outcome_weaken {A} (m : M A) :
  setup_outcome false m -> setup_outcome true m.
Proof.
  intros [F O]. split; [exact F|]. destruct (fst m); auto.
Qed.

Lemma selection_loop_outcome w tokens exclude : forall selected,
  setup_outcome false (selection_loop w tokens exclude selected).
Proof.
  induction tokens as [|tok rest IH]; intros selected; simpl.
  - outcome_done.
  - apply setup_outcome_bind; [|intros; apply IH].
    destruct (fst (process_inspection_flag w tok exclude selected));
      outcome_done.
Qed.

Lemma selection_option_outcome w is_E a l :
  setup_outcome false (selection_option w is_E a l).
Proof.
  unfold selection_option. apply setup_outcome_bind.
  - destruct (inspection_opt l); outcome_done.
  - intros _ _ _. apply setup_outcome_bind.
    + apply selection_loop_outcome.
    + intros. outcome_done.
Qed.

Lemma option_case_outcome w c l : setup_outcome false (option_case w c l).
Proof.
  destruct c; cbn [option_case];
    try apply selection_option_outcome; try outcome_done.
  - destruct (find_format (formats w) optarg (formatidx l) <? 0)%Z;
      outcome_done.
  - destruct (index optarg "~"); [|outcome_done].
    destruct (glob w optarg) as [j pv].
    destruct ((j =? 0)%Z && (List.length pv =? 1)%nat); outcome_done.
Qed.

Lemma getopt_loop_outcome w opts : forall l,
  setup_outcome false (getopt_loop w opts l).
Proof.
  induction opts as [|c rest IH]; intros l; simpl; [outcome_done|].
  apply setup_outcome_bind; [apply option_case_outcome|].
  intros. apply IH.
Qed.

Lemma main_config_outcome w l : setup_outcome false (main_config w l).
Proof.
  unfold main_config. apply setup_outcome_bind.
  - destruct (cfgfile l) as [f|].
    + destruct (access w f =? -1)%Z; outcome_done.
    + destruct (access w CFGFILE =? 0)%Z; outcome_done.
  - intros f _ _. apply setup_outcome_bind; [outcome_done|]. intros _ _ _.
    destruct (init_rpminspect w f) as [rc ri].
    destruct (rc =? 0)%Z; outcome_done.
Qed.

Lemma main_builds_outcome l args ri :
  setup_outcome false (main_builds l args ri).
Proof.
  unfold main_builds. apply setup_outcome_bind.
  - destruct args as [|a [|b [|c rest]]]; outcome_done.
  - intros ri' _ _. destruct (fetch_only l), (ri_before ri'); outcome_done.
Qed.

(** The builds that [main_builds] lets through have an after build (the
    copies of the arguments are taken to succeed). *)
Lemma main_builds_Ret l args ri ri' t :
  main_builds l args ri = (Ret ri', t) ->
  t = []
  /\ ri_after ri' <> None
  /\ ri_product_release ri' = ri_product_release ri
  /\ ((exists a, args = [a] /\ ri_before ri' = ri_before ri)
      \/ (exists b a, args = [b; a] /\ ri_before ri' = Some b))
  /\ (fetch_only l = true -> ri_before ri' = None).
Proof.
  unfold main_builds. intros H. apply bind_Ret_inv in H.
  destruct H as (r & t1 & t2 & B & F & ->).
  assert (R : t1 = []
              /\ ri_after r <> None
              /\ ri_product_release r = ri_product_release ri
              /\ ((exists a, args = [a] /\ ri_before r = ri_before ri)
                  \/ (exists b a, args = [b; a] /\ ri_before r = Some b))).
  { destruct args as [|a [|b [|c rest]]]; try discriminate;
      injection B as <- <-; simpl.
    - repeat split; [discriminate|]. left. now exists a.
    - repeat split; [discriminate|]. right. now exists a, b. }
  destruct R as (-> & A & P & Bf).
  destruct (fetch_only l) eqn:Fo, (ri_before r) eqn:Rb; try discriminate;
    injection F as <- <-; rewrite ?Rb; repeat split; auto; discriminate.
Qed.

Lemma main_release_outcome w ri :
  ri_after ri <> None -> setup_outcome true (main_release w ri).
Proof.
  intros A. unfold main_release.
  destruct (ri_product_release ri); [outcome_done|].
  destruct (ri_after ri) as [after|]; [|contradiction].
  destruct (get_product_release (strdup w) (ri_before ri) after);
    outcome_done.
Qed.

(** With a product release in the context, nothing is resolved. *)
Lemma main_release_given w ri :
  ri_product_release ri <> None -> main_release w ri = (Ret ri, []).
Proof.
  unfold main_release. now destruct (ri_product_release ri).
Qed.

Lemma release_undefined_before sd before after :
  get_product_release sd before after = ReleaseUndefined ->
  exists b, before = Some b /\ ~ In "."%char b.
Proof.
  unfold get_product_release.
  destruct (rindex after ".") as [i|]; [|discriminate].
  destruct (sd (skipn (i + 1) after)); [|discriminate].
  destruct before as [b|]; [|discriminate].
  destruct (rindex b ".") as [j|] eqn:Rb.
  - destruct (sd (skipn (j + 1) b)); [|discriminate].
    destruct (negb _); discriminate.
  - intros _. exists b. split; [reflexivity|]. now apply rindex_None.
Qed.

Lemma main_release_undefined w ri t :
  main_release w ri = (Undefined, t) ->
  ri_product_release ri = None
  /\ exists b, ri_before ri = Some b /\ ~ In "."%char b.
Proof.
  unfold main_release.
  destruct (ri_product_release ri); [discriminate|].
  destruct (ri_after ri) as [after|]; [|discriminate].
  destruct (get_product_release (strdup w) (ri_before ri) after) eqn:G;
    try discriminate.
  intros _. split; [reflexivity|].
  apply release_undefined_before in G.
  destruct G as (b & -> & N). now exists b.
Qed.

Lemma main_librpm_outcome w : setup_outcome false (main_librpm w).
Proof.
  unfold main_librpm. destruct (init_librpm w =? 0)%Z; outcome_done.
Qed.

Lemma collect_arches_outcome valid tokens : forall arches,
  setup_outcome false (collect_arches valid tokens arches).
Proof.
  induction tokens as [|tok rest IH]; intros arches; simpl; [outcome_done|].
  destruct (arch_found tok valid); simpl; [apply IH|outcome_done].
Qed.

Lemma main_arches_outcome w l ri : setup_outcome false (main_arches w l ri).
Proof.
  unfold main_arches. destruct (archopt l) as [a|]; [|outcome_done].
  apply setup_outcome_bind; [outcome_done|]. intros _ _ _.
  apply setup_outcome_bind; [apply collect_arches_outcome|].
  intros. outcome_done.
Qed.

Lemma main_arches_Ret w l ri ri' t :
  main_arches w l ri = (Ret ri', t) ->
  ri_workdir ri' = ri_workdir ri /\ ri_tests ri' = ri_tests ri
  /\ ri_before ri' = ri_before ri.
Proof.
  unfold main_arches. destruct (archopt l) as [a|].
  - intros H. apply bind_Ret_inv in H.
    destruct H as (? & ? & ? & _ & H & _).
    apply bind_Ret_inv in H. destruct H as (? & ? & ? & _ & H & _).
    injection H as <- _. now repeat split.
  - intros H. injection H as <- _. now repeat split.
Qed.

Lemma main_workdir_outcome w ri : setup_outcome false (main_workdir w ri).
Proof.
  unfold main_workdir.
  destruct (mkdirp w (ri_workdir ri) mode =? 0)%Z; outcome_done.
Qed.

Lemma main_workdir_Ret w ri u t :
  main_workdir w ri = (Ret u, t) -> t = [CallMkdirp (ri_workdir ri) mode].
Proof.
  unfold main_workdir.
  destruct (mkdirp w (ri_workdir ri) mode =? 0)%Z; simpl; [|discriminate].
  intros H. now injection H.
Qed.

(** In the model the set-up goes on, exits with 0 or 1, or is undefined,
    and does set-up things only. *)
Lemma main_setup_outcome w opts args :
  setup_outcome true (main_setup w opts args).
Proof.
  unfold main_setup.
  apply setup_outcome_bind;
    [apply setup_outcome_weaken, getopt_loop_outcome|]. intros l _ _.
  apply setup_outcome_bind;
    [apply setup_outcome_weaken, main_config_outcome|]. intros ri _ _.
  apply setup_outcome_bind;
    [apply setup_outcome_weaken, main_builds_outcome|]. intros ri1 t1 B.
  apply main_builds_Ret in B. destruct B as (_ & A & _).
  apply setup_outcome_bind; [now apply main_release_outcome|].
  intros ri2 _ _.
  apply setup_outcome_bind;
    [apply setup_outcome_weaken, main_librpm_outcome|]. intros _ _ _.
  apply setup_outcome_bind;
    [apply setup_outcome_weaken, main_arches_outcome|]. intros ri3 _ _.
  apply setup_outcome_bind;
    [apply setup_outcome_weaken, main_workdir_outcome|]. intros _ _ _.
  outcome_done.
Qed.

(** What is known of a set-up that went through. *)
Lemma main_setup_Ret w opts args l ri t :
  main_setup w opts args = (Ret (l, ri), t) ->
  getopt_loop w opts initial_locals = (Ret l, [])
  /\ exists t1,
       t = t1 ++ [CallMkdirp (ri_workdir ri) mode]
       /\ Forall (fun e => is_setup_event e = true) t1.
Proof.
  intros H. pose proof (main_setup_outcome w opts args) as [F _].
  rewrite H in F. simpl in F.
  unfold main_setup in H.
  apply bind_Ret_inv in H. destruct H as (l0 & tg & ? & G & H & ->).
  apply bind_Ret_inv in H. destruct H as (r0 & tc & ? & _ & H & ->).
  apply bind_Ret_inv in H. destruct H as (r1 & tb & ? & _ & H & ->).
  apply bind_Ret_inv in H. destruct H as (r2 & tr & ? & _ & H & ->).
  apply bind_Ret_inv in H. destruct H as (? & tl & ? & _ & H & ->).
  apply bind_Ret_inv in H. destruct H as (r3 & ta & ? & _ & H & ->).
  apply bind_Ret_inv in H. destruct H as (? & tw & ? & W & H & ->).
  injection H as <- <- <-. apply main_workdir_Ret in W. subst tw.
  assert (tg = []) as -> by (apply getopt_loop_Ret in G; tauto).
  split; [exact G|].
  exists (tc ++ tb ++ tr ++ tl ++ ta). split.
  - simpl. rewrite ?app_nil_r, <- ?app_assoc. reflexivity.
  - simpl in F. rewrite ?app_nil_r in F.
    rewrite !Forall_app in F. rewrite !Forall_app. tauto.
Qed.

Lemma setup_events_quiet t :
  Forall (fun e => is_setup_event e = true) t ->
  existsb is_driver_call t = false
  /\ existsb is_format_call t = false
  /\ existsb is_rmtree t = false.
Proof.
  induction 1 as [|e t He _ (I1 & I2 & I3)]; simpl; [auto|].
  rewrite I1, I2, I3. now destruct e.
Qed.

(** [main] is its set-up, and, when that went through, what follows. *)
Lemma main_cases w opts args :
  (exists l ri t,
      main_setup w opts args = (Ret (l, ri), t)
      /\ main w opts args
         = (fst (main_run w l ri), t ++ snd (main_run w l ri)))
  \/ (Forall (fun e => is_setup_event e = true) (snd (main w opts args))
      /\ (fst (main w opts args) = Exit EXIT_SUCCESS
          \/ fst (main w opts args) = Exit EXIT_FAILURE
          \/ fst (main w opts args) = Undefined)
      /\ forall x, fst (main_setup w opts args) <> Ret x).
Proof.
  pose proof (main_setup_outcome w opts args) as [F O].
  unfold main. destruct (main_setup w opts args) as [[[l ri]|s| |] t];
    simpl in *.
  - left. now exists l, ri, t.
  - right. split; [exact F|]. split; [|discriminate].
    destruct O as [-> | ->]; auto.
  - contradiction.
  - right. split; [exact F|]. split; [auto|discriminate].
Qed.

(** After the set-up the process exits, with 1 when the builds cannot be
    gathered and with 0 otherwise. *)
Lemma main_run_status w l ri :
  fst (main_run w l ri)
  = if (fst (gather_builds w ri (fetch_only l)) =? 0)%Z
    then Exit EXIT_SUCCESS else Exit EXIT_FAILURE.
Proof.
  destruct (fst (gather_builds w ri (fetch_only l)) =? 0)%Z eqn:G.
  - apply Z.eqb_eq in G. destruct (main_run_completes w l ri G) as (t & E & _).
    now rewrite E.
  - apply Z.eqb_neq in G. now rewrite (main_run_gather_failed w l ri G).
Qed.

(* ================================================================= *)
(** ** Every run of main *)

Lemma main_run_gather_first w l ri :
  exists t, snd (main_run w l ri) = CallGatherBuilds (fetch_only l) :: t.
Proof.
  unfold main_run, main_gather.
  destruct (gather_builds w ri (fetch_only l)) as [rc ri1].
  destruct (rc =? 0)%Z; simpl; eauto.
Qed.

(** X12. A run that does not end with exit status 0 has called no
    inspection driver and no output format driver. *)
Theorem X12_failed_run_inspects_nothing
        (w : collaborators) (opts : list getopt_result) (args : list cstr) :
  fst (main w opts args) <> Exit EXIT_SUCCESS ->
  existsb is_driver_call (snd (main w opts args)) = false
  /\ existsb is_format_call (snd (main w opts args)) = false.
Proof.
  intros N.
  destruct (main_cases w opts args) as [(l & ri & t & S & E)|(F & _ & _)].
  - rewrite E in *. simpl in *. rewrite main_run_status in N.
    destruct (fst (gather_builds w ri (fetch_only l)) =? 0)%Z eqn:G;
      [contradiction|].
    apply Z.eqb_neq in G. rewrite (main_run_gather_failed w l ri G). simpl.
    apply main_setup_Ret in S. destruct S as (_ & t1 & -> & F).
    pose proof (setup_events_quiet F) as (Q1 & Q2 & _).
    rewrite !existsb_app, Q1, Q2. now split.
  - pose proof (setup_events_quiet F) as (Q1 & Q2 & _). now split.
Qed.

Lemma X12_failed_run_inspects_nothing_witness :
  existsb is_driver_call
          (snd (main Sample.world_no_builds [] [cs "pkg-1.0-1.fc30"])) = false
  /\ existsb is_format_call
             (snd (main Sample.world_no_builds [] [cs "pkg-1.0-1.fc30"]))
     = false.
Proof.
  apply (@X12_failed_run_inspects_nothing Sample.world_no_builds []
           [cs "pkg-1.0-1.fc30"]).
  discriminate.
Defined.

Lemma is_driver_call_not_setup t :
  existsb is_driver_call t = true ->
  ~ Forall (fun e => is_setup_event e = true) t.
Proof.
  intros H F. apply setup_events_quiet in F. destruct F as (Q & _).
  congruence.
Qed.

(** X13. In a run that calls an inspection driver, the working directory
    was made and the builds were gathered, in this order and right after
    one another, before the first driver was called; the run is not
    fetch-only and ends with exit status 0. *)
Theorem X13_drivers_after_gathering
        (w : collaborators) (opts : list getopt_result) (args : list cstr) :
  existsb is_driver_call (snd (main w opts args)) = true ->
  fst (main w opts args) = Exit EXIT_SUCCESS
  /\ exists t1 d t2,
       snd (main w opts args)
       = t1 ++ CallMkdirp d mode :: CallGatherBuilds false :: t2
       /\ Forall (fun e => is_setup_event e = true) t1.
Proof.
  intros D.
  destruct (main_cases w opts args) as [(l & ri & t & S & E)|(F & _ & _)].
  - apply main_setup_Ret in S. destruct S as (_ & t1 & -> & F).
    destruct (main_run_gather_first w l ri) as [t2 T].
    rewrite E in *. simpl in *. rewrite T in *.
    assert (Fo : fetch_only l = false /\
                 fst (gather_builds w ri (fetch_only l)) = 0%Z).
    { rewrite !existsb_app in D. simpl in D.
      destruct (setup_events_quiet F) as (Q & _). rewrite Q in D.
      simpl in D. clear E.
      unfold main_run, main_gather in T.
      destruct (gather_builds w ri (fetch_only l)) as [rc ri1].
      destruct (rc =? 0)%Z eqn:G; simpl in T.
      - apply Z.eqb_eq in G. split; [|exact G].
        destruct (fetch_only l) eqn:Fo; [|reflexivity].
        unfold main_inspect, main_cleanup in T. rewrite Fo in T.
        simpl in T. injection T as <-.
        destruct (keep l); simpl in D; [discriminate|].
        destruct (rmtree w (ri_workdir ri1) =? 0)%Z; discriminate.
      - injection T as <-. discriminate. }
    destruct Fo as [Fo G]. split.
    + rewrite main_run_status, G. reflexivity.
    + exists t1, (ri_workdir ri), t2. rewrite Fo, <- app_assoc. now split.
  - apply is_driver_call_not_setup in D. contradiction.
Qed.

Lemma X13_drivers_after_gathering_witness :
  fst (main Sample.world [] [cs "pkg-1.0-1.fc30"]) = Exit EXIT_SUCCESS
  /\ exists t1 d t2,
       snd (main Sample.world [] [cs "pkg-1.0-1.fc30"])
       = t1 ++ CallMkdirp d mode :: CallGatherBuilds false :: t2
       /\ Forall (fun e => is_setup_event e = true) t1.
Proof.
  apply (@X13_drivers_after_gathering Sample.world []
           [cs "pkg-1.0-1.fc30"]).
  reflexivity.
Defined.

Lemma fst_bind_Undefined {A B} (m : M A) (f : A -> M B) :
  fst (bind m f) = Undefined ->
  fst m = Undefined
  \/ exists a t, m = (Ret a, t) /\ fst (f a) = Undefined.
Proof.
  destruct m as [[a|s| |] t]; simpl; try discriminate; [|now left].
  intros H. right. now exists a, t.
Qed.

Lemma setup_outcome_defined {A} (m : M A) :
  setup_outcome false m -> fst m <> Undefined.
Proof. intros [_ O] E. rewrite E in O. discriminate. Qed.

Lemma getopt_loop_release w opts l t :
  getopt_loop w opts initial_locals = (Ret l, t) ->
  release l = None -> forall r, ~ In (Opt_r r) opts.
Proof.
  intros G N r I.
  assert (P : release l <> None).
  { eapply (getopt_loop_brings w (fun l => release l <> None) (Opt_r r));
      [| |exact G|exact I].
    - intros c l0 l1 t0 H. now apply option_case_release in H.
    - intros l0 l1 t0 H. apply option_case_release in H.
      destruct H as [_ H]. now apply (H r). }
  contradiction.
Qed.

(** X14. [main] runs into the undefined behaviour of
    [get_product_release] only when there is no -r option and the before
    build of the context has an identifier without a period: the first of
    two builds on the command line, or what [init_rpminspect] left there
    when a single build is given. *)
Theorem X14_main_undefined_only_without_release
        (w : collaborators) (opts : list getopt_result) (args : list cstr) :
  fst (main w opts args) = Undefined ->
  (forall r, ~ In (Opt_r r) opts)
  /\ ((exists b a, args = [b; a] /\ ~ In "."%char b)
      \/ (exists a cfg b,
             args = [a]
             /\ ri_before (snd (init_rpminspect w cfg)) = Some b
             /\ ~ In "."%char b)).
Proof.
  intros U.
  destruct (main_cases w opts args) as [(l & ri & t & _ & E)|(_ & _ & N)].
  { rewrite E in U. simpl in U. rewrite main_run_status in U.
    destruct (_ =? 0)%Z; discriminate. }
  assert (S : fst (main_setup w opts args) = Undefined).
  { unfold main in U. destruct (main_setup w opts args) as [[x|s| |] t];
      simpl in *; try discriminate; [|reflexivity].
    now destruct (N x). }
  clear U N. unfold main_setup in S.
  apply fst_bind_Undefined in S.
  destruct S as [S|(l & tg & G & S)];
    [now apply (setup_outcome_defined (getopt_loop_outcome w opts _)) in S|].
  apply fst_bind_Undefined in S.
  destruct S as [S|(ri & tc & C & S)];
    [now apply (setup_outcome_defined (main_config_outcome w l)) in S|].
  apply fst_bind_Undefined in S.
  destruct S as [S|(ri1 & tb & B & S)];
    [now apply (setup_outcome_defined (main_builds_outcome l args ri)) in S|].
  apply fst_bind_Undefined in S.
  destruct S as [S|(ri2 & tr & _ & S)].
  - destruct (main_release w ri1) as [r t] eqn:R. simpl in S. subst r.
    apply main_release_undefined in R. destruct R as (P & b & Bf & Nb).
    apply main_builds_Ret in B. destruct B as (_ & _ & Pr & Cases & _).
    destruct (main_config_result _ _ C) as (cfg & _ & _ & _ & _ & Rl & _ & _ & Cb & _).
    split.
    + apply (getopt_loop_release _ _ G). congruence.
    + destruct Cases as [(a & -> & Eb)|(b' & a & -> & Eb)].
      * right. exists a, cfg, b. repeat split; auto. congruence.
      * left. exists b', a. split; [reflexivity|]. congruence.
  - exfalso. apply fst_bind_Undefined in S.
    destruct S as [S|(? & ? & _ & S)];
      [now apply (setup_outcome_defined (main_librpm_outcome w)) in S|].
    apply fst_bind_Undefined in S.
    destruct S as [S|(ri3 & ? & _ & S)];
      [now apply (setup_outcome_defined (main_arches_outcome w l ri2)) in S|].
    apply fst_bind_Undefined in S.
    destruct S as [S|(? & ? & _ & S)];
      [now apply (setup_outcome_defined (main_workdir_outcome w ri3)) in S|].
    discriminate.
Qed.

Lemma X14_main_undefined_only_without_release_witness :
  (forall r, ~ In (Opt_r r) [Opt_v])
  /\ ((exists b a, [cs "pkg"; cs "pkg-1.0-1.fc30"] = [b; a]
                   /\ ~ In "."%char b)
      \/ (exists a cfg b,
             [cs "pkg"; cs "pkg-1.0-1.fc30"] = [a]
             /\ ri_before (snd (init_rpminspect Sample.world cfg)) = Some b
             /\ ~ In "."%char b)).
Proof.
  apply (@X14_main_undefined_only_without_release Sample.world [Opt_v]
           [cs "pkg"; cs "pkg-1.0-1.fc30"]).
  reflexivity.
Defined.

(* ================================================================= *)
(** ** Keeping and removing the working directory *)

Lemma getopt_loop_fetch_keeps w opts l t :
  getopt_loop w opts initial_locals = (Ret l, t) ->
  (fetch_only l = true -> keep l = true)
  /\ (In Opt_k opts \/ In Opt_f opts -> keep l = true).
Proof.
  intros G. split.
  - eapply (getopt_loop_keeps w
              (fun l => fetch_only l = true -> keep l = true));
      [|exact G|discriminate].
    intros c l0 l1 t0 H. now apply option_case_keep in H.
  - intros [I|I].
    + eapply (getopt_loop_brings w (fun l => keep l = true) Opt_k);
        [| |exact G|exact I].
      * intros c l0 l1 t0 H. now apply option_case_keep in H.
      * intros l0 l1 t0 H. now injection H as <- _.
    + eapply (getopt_loop_brings w (fun l => keep l = true) Opt_f);
        [| |exact G|exact I].
      * intros c l0 l1 t0 H. now apply option_case_keep in H.
      * intros l0 l1 t0 H. now injection H as <- _.
Qed.

(** X15. A run with -f whose set-up went through and whose single build
    was gathered does nothing more than gather: no inspection, no output,
    no removal. It tells where the working directory is kept and exits
    with status 0. *)
Theorem X15_fetch_only_run
        (w : collaborators) (opts : list getopt_result) (args : list cstr)
        (l : locals) (ri : rpminspect) (t : list event) :
  In Opt_f opts ->
  main_setup w opts args = (Ret (l, ri), t) ->
  fst (gather_builds w ri true) = 0%Z ->
  main w opts args
  = (Exit EXIT_SUCCESS,
     t ++ [CallGatherBuilds true;
           PrintKeeping (ri_worksubdir (snd (gather_builds w ri true)));
           CallFreeRpminspect]).
Proof.
  intros I S G. unfold main. rewrite S, bind_Ret. cbn [fst snd].
  apply main_setup_Ret in S. destruct S as (L & _).
  pose proof (getopt_loop_fetch_keeps _ _ L) as (K & _).
  apply getopt_loop_Ret in L. destruct L as (_ & Fo & _).
  assert (F : fetch_only l = true) by auto. specialize (K F).
  unfold main_run, main_gather, main_inspect, main_cleanup.
  rewrite F, K. destruct (gather_builds w ri true) as [rc ri1].
  simpl in G. subst rc. reflexivity.
Qed.

Lemma X15_fetch_only_run_witness :
  exists l ri t,
    main_setup Sample.world [Opt_f] [cs "pkg-1.0-1.fc30"] = (Ret (l, ri), t)
    /\ main Sample.world [Opt_f] [cs "pkg-1.0-1.fc30"]
       = (Exit EXIT_SUCCESS,
          t ++ [CallGatherBuilds true;
                PrintKeeping
                  (ri_worksubdir (snd (gather_builds Sample.world ri true)));
                CallFreeRpminspect]).
Proof.
  do 3 eexists. split; [reflexivity|].
  eapply (@X15_fetch_only_run Sample.world [Opt_f] [cs "pkg-1.0-1.fc30"]).
  - in_list.
  - reflexivity.
  - reflexivity.
Defined.

Lemma release_free_no_rmtree t :
  Forall (fun e => is_release_step e = false) t ->
  existsb is_rmtree t = false.
Proof.
  induction 1 as [|e t He _ IH]; simpl; [reflexivity|].
  rewrite IH. now destruct e.
Qed.

Lemma main_run_keep w l ri :
  keep l = true -> existsb is_rmtree (snd (main_run w l ri)) = false.
Proof.
  intros K. unfold main_run, main_gather.
  destruct (gather_builds w ri (fetch_only l)) as [rc ri1].
  destruct (rc =? 0)%Z; simpl; [|reflexivity].
  destruct (main_inspect_returns w l ri1 rc) as (r & ti & E & F).
  rewrite E. simpl. unfold main_cleanup. rewrite K. simpl.
  rewrite existsb_app, (release_free_no_rmtree F). reflexivity.
Qed.

(** X16. With -k or -f among the options, no run removes the working
    directory, however it ends. *)
Theorem X16_keep_never_removes
        (w : collaborators) (opts : list getopt_result) (args : list cstr) :
  In Opt_k opts \/ In Opt_f opts ->
  existsb is_rmtree (snd (main w opts args)) = false.
Proof.
  intros I.
  destruct (main_cases w opts args) as [(l & ri & t & S & E)|(F & _ & _)].
  - rewrite E. simpl. apply main_setup_Ret in S.
    destruct S as (L & t1 & -> & F).
    pose proof (getopt_loop_fetch_keeps _ _ L) as (_ & K).
    destruct (setup_events_quiet F) as (_ & _ & Q).
    rewrite !existsb_app, Q, (main_run_keep w l ri (K I)). reflexivity.
  - now destruct (setup_events_quiet F) as (_ & _ & Q).
Qed.

Lemma X16_keep_never_removes_witness :
  existsb is_rmtree
          (snd (main Sample.world [Opt_T (cs "license"); Opt_k]
                     [cs "pkg-1.0-1.fc30"])) = false.
Proof.
  apply (@X16_keep_never_removes Sample.world [Opt_T (cs "license"); Opt_k]
           [cs "pkg-1.0-1.fc30"]).
  left. in_list.
Defined.

(** X17. Without [keep], a run whose builds were gathered removes the
    working directory of the context once, after the inspections and the
    output; when the removal fails this is reported, and the exit status
    is 0 all the same. *)
Theorem X17_removal_after_inspections
        (w : collaborators) (l : locals) (ri : rpminspect) :
  keep l = false ->
  fst (gather_builds w ri (fetch_only l)) = 0%Z ->
  exists r ti,
    main_inspect w l (snd (gather_builds w ri (fetch_only l))) 0 = (Ret r, ti)
    /\ existsb is_rmtree ti = false
    /\ main_run w l ri
       = (Exit EXIT_SUCCESS,
          CallGatherBuilds (fetch_only l) :: ti
          ++ CallRmtree (ri_workdir (snd r))
          :: (if (rmtree w (ri_workdir (snd r)) =? 0)%Z then []
              else [Stderr (RmtreeFailed (ri_workdir (snd r)))])
          ++ [CallFreeRpminspect]).
Proof.
  intros K G. unfold main_run, main_gather.
  destruct (gather_builds w ri (fetch_only l)) as [rc ri1]. simpl in G.
  subst rc. simpl.
  destruct (main_inspect_returns w l ri1 0) as (r & ti & E & F).
  exists r, ti. split; [exact E|].
  split; [now apply release_free_no_rmtree|].
  rewrite E. simpl. unfold main_cleanup. rewrite K.
  destruct (rmtree w (ri_workdir (snd r)) =? 0)%Z; reflexivity.
Qed.

Lemma X17_removal_after_inspections_witness :
  exists r ti,
    main_inspect Sample.world initial_locals
      (snd (gather_builds Sample.world Sample.ri0 (fetch_only initial_locals)))
      0 = (Ret r, ti)
    /\ existsb is_rmtree ti = false
    /\ main_run Sample.world initial_locals Sample.ri0
       = (Exit EXIT_SUCCESS,
          CallGatherBuilds (fetch_only initial_locals) :: ti
          ++ CallRmtree (ri_workdir (snd r))
          :: (if (rmtree Sample.world (ri_workdir (snd r)) =? 0)%Z then []
              else [Stderr (RmtreeFailed (ri_workdir (snd r)))])
          ++ [CallFreeRpminspect]).
Proof.
  apply (@X17_removal_after_inspections Sample.world initial_locals
           Sample.ri0).
  - reflexivity.
  - reflexivity.
Defined.

(* ================================================================= *)
(** ** An empty selection *)

Lemma inspection_loop_nothing_selected table : forall i ri ret,
  ri_tests ri = 0%Z ->
  inspection_loop table i ri ret = (Ret (ret, ri), []).
Proof.
  induction table as [|e rest IH]; intros i ri ret Z0; simpl;
    [reflexivity|].
  destruct (insp_flag e =? 0)%Z; [reflexivity|].
  rewrite Z0, Z.land_0_l. simpl. now apply IH.
Qed.

(** X18. With an empty bitmap in the context (as -E ALL leaves it), the
    inspection step calls no driver, whatever the table holds; when the
    context has no results either, it does nothing at all: no output format
    driver is called, and the context and [ret] are as before. *)
Theorem X18_empty_selection_runs_nothing
        (w : collaborators) (l : locals) (ri : rpminspect) (ret : Z) :
  ri_tests ri = 0%Z ->
  existsb is_driver_call (snd (main_inspect w l ri ret)) = false
  /\ fst (main_inspect w l ri ret) = Ret (ret, ri)
  /\ (ri_results ri = [] -> main_inspect w l ri ret = (Ret (ret, ri), [])).
Proof.
  intros Z0. unfold main_inspect. destruct (fetch_only l); simpl.
  - now repeat split.
  - rewrite (inspection_loop_nothing_selected (inspections w) 0 ri ret Z0).
    simpl. destruct (ri_results ri); simpl; repeat split; discriminate.
Qed.

Lemma X18_empty_selection_runs_nothing_witness :
  existsb is_driver_call
          (snd (main_inspect Sample.world initial_locals
                             (set_tests Sample.ri0 0) 0)) = false
  /\ fst (main_inspect Sample.world initial_locals (set_tests Sample.ri0 0) 0)
     = Ret (0%Z, set_tests Sample.ri0 0)
  /\ (ri_results (set_tests Sample.ri0 0) = [] ->
      main_inspect Sample.world initial_locals (set_tests Sample.ri0 0) 0
      = (Ret (0%Z, set_tests Sample.ri0 0), [])).
Proof.
  apply (@X18_empty_selection_runs_nothing Sample.world initial_locals
           (set_tests Sample.ri0 0) 0).
  reflexivity.
Defined.

(* ================================================================= *)
(** ** Which lists are accepted *)

Lemma entries_app_first_named table tok e :
  first_named table tok e -> In e (entries table).
Proof.
  intros (pre & post & -> & F & Z0 & _).
  induction pre as [|x pre IH]; simpl.
  - apply Z.eqb_neq in Z0. rewrite Z0. now left.
  - inversion F as [|? ? [Zx _] F']; subst. apply Z.eqb_neq in Zx.
    rewrite Zx. right. now apply IH.
Qed.

Lemma find_inspection_finds table tok e :
  In e (entries table) -> names tok e = true ->
  fst (find_inspection table tok false 0) = true.
Proof.
  unfold names. induction table as [|x rest IH]; simpl; [easy|].
  destruct (insp_flag x =? 0)%Z; [easy|].
  intros [->|I] N.
  - now rewrite N.
  - destruct (strcasecmp tok (insp_name x) =? 0)%Z; [reflexivity|].
    now apply IH.
Qed.

(** A token is found when it is ALL or the name of an entry of the table
    before the terminating entry, in any case. *)
Lemma is_known_iff w tok :
  is_known w tok = true <->
  is_ALL tok = true
  \/ exists e, In e (entries (inspections w)) /\ names tok e = true.
Proof.
  split.
  - intros K. apply is_known_token_flag in K.
    destruct K as [f [[A _]|[_ (e & H & _)]]]; [now left|right].
    exists e. split; [now apply entries_app_first_named with (tok := tok)|].
    now destruct H as (_ & _ & _ & _ & _ & N).
  - unfold is_known, process_inspection_flag. fold (is_ALL tok).
    intros [A|(e & I & N)]; [now rewrite A|].
    destruct (is_ALL tok); [reflexivity|].
    now apply find_inspection_finds with (e := e).
Qed.

Lemma selection_loop_Ret_known w tokens exclude : forall selected s t,
  selection_loop w tokens exclude selected = (Ret s, t) ->
  forall tok, In tok tokens -> is_known w tok = true.
Proof.
  induction tokens as [|x rest IH]; intros selected s t H tok; [easy|].
  apply selection_loop_cons_Ret in H. destruct H as [K H].
  intros [<-|I]; [exact K|]. eapply IH; eauto.
Qed.

(** X19. A -T or -E option goes through exactly when no -T or -E option
    came before it and each of its comma-separated tokens is ALL or the
    name of an inspection of the table, in any case. *)
Theorem X19_selection_accepted_iff
        (w : collaborators) (is_E : bool) (optarg : cstr) (l : locals) :
  (exists l', selection_option w is_E optarg l = (Ret l', []))
  <->
  inspection_opt l = false
  /\ forall tok, In tok (strsep_all optarg (cs ",")) ->
       is_ALL tok = true
       \/ exists e, In e (entries (inspections w)) /\ names tok e = true.
Proof.
  split.
  - intros [l' H]. apply selection_option_result in H.
    destruct H as (I & s & L & _). split; [exact I|].
    intros tok Ht. apply is_known_iff.
    eapply selection_loop_Ret_known; eauto.
  - intros [I K]. unfold selection_option, check_inspection_options.
    rewrite I, bind_pure.
    destruct (selection_loop_known w (strsep_all optarg (cs ",")) is_E
                (if is_E then UINT64_MAX else 0%Z)) as [s L].
    + intros tok Ht. apply is_known_iff. now apply K.
    + rewrite L. eexists. reflexivity.
Qed.

(* ================================================================= *)
(** ** Empty pieces and the pieces of a list *)

Lemma strsep_all_trailing_comma s :
  strsep_all (s ++ [","%char]) (cs ",") = strsep_all s (cs ",") ++ [[]].
Proof.
  induction s as [|x s IH]; [reflexivity|].
  rewrite <- app_comm_cons. cbn [strsep_all]. rewrite comma_reject, IH.
  destruct (Ascii.eqb x ","); [reflexivity|].
  destruct (strsep_all s (cs ",")) as [|tok toks] eqn:E;
    [now apply strsep_all_nonempty in E|reflexivity].
Qed.

Lemma first_unsupported (valid tokens : list cstr) :
  (exists t, In t tokens /\ ~ In t valid) ->
  exists pre tok post,
    tokens = pre ++ tok :: post
    /\ (forall t, In t pre -> In t valid) /\ ~ In tok valid.
Proof.
  induction tokens as [|x rest IH]; intros (t & I & N); [easy|].
  destruct (in_dec cstr_eq_dec x valid) as [Hx|Hx].
  - destruct I as [->|I]; [contradiction|].
    destruct IH as (pre & tok & post & -> & P & Nt); [now exists t|].
    exists (x :: pre), tok, post. repeat split; auto.
    intros y [<-|Hy]; auto.
  - exists [], x, rest. repeat split; easy.
Qed.

(** The tokens of two lists put together with a comma are the tokens of
    the first, then the tokens of the second. *)
Lemma strsep_all_comma_app u r :
  strsep_all (u ++ ","%char :: r) (cs ",")
  = strsep_all u (cs ",") ++ strsep_all r (cs ",").
Proof.
  induction u as [|x u IH].
  - cbn [app strsep_all]. now rewrite comma_reject, Ascii.eqb_refl.
  - rewrite <- app_comm_cons. cbn [strsep_all]. rewrite comma_reject, IH.
    destruct (Ascii.eqb x ","); [reflexivity|].
    destruct (strsep_all u (cs ",")) as [|tok toks] eqn:E;
      [now apply strsep_all_nonempty in E|reflexivity].
Qed.

Lemma join_commas_app p q :
  p <> [] -> q <> [] ->
  join_commas (p ++ q) = join_commas p ++ ","%char :: join_commas q.
Proof.
  intros Np Nq. induction p as [|t p IH]; [contradiction|].
  destruct p as [|u p].
  - destruct q as [|v q]; [contradiction|]. reflexivity.
  - rewrite <- !app_comm_cons, !join_commas_cons.
    rewrite app_comm_cons, IH by discriminate.
    now rewrite <- app_assoc, <- app_comm_cons.
Qed.

(** An argument has an empty piece when it is empty, begins or ends with
    a comma, or has two commas in a row; and then only. *)
Lemma empty_piece_iff s :
  In [] (strsep_all s (cs ",")) <->
  s = []
  \/ (exists u, s = ","%char :: u)
  \/ (exists u, s = u ++ [","%char])
  \/ (exists u v, s = u ++ ","%char :: ","%char :: v).
Proof.
  split.
  - intros I. apply in_split in I. destruct I as (p & q & E).
    pose proof (strsep_all_join s) as J. rewrite E in J.
    destruct p as [|t p], q as [|v q].
    + left. now rewrite <- J.
    + right. left. exists (join_commas (v :: q)). now rewrite <- J.
    + right. right. left. exists (join_commas (t :: p)).
      rewrite <- J.
      change ((t :: p) ++ [[]]) with ((t :: p) ++ [@nil ascii]).
      now rewrite join_commas_app by discriminate.
    + right. right. right.
      exists (join_commas (t :: p)), (join_commas (v :: q)).
      rewrite <- J. now rewrite join_commas_app by discriminate.
  - intros [->|[(u & ->)|[(u & ->)|(u & v & ->)]]].
    + now left.
    + cbn [strsep_all]. rewrite comma_reject, Ascii.eqb_refl. now left.
    + rewrite strsep_all_comma_app. apply in_or_app. right. now left.
    + rewrite strsep_all_comma_app. apply in_or_app. right.
      cbn [strsep_all]. rewrite comma_reject, Ascii.eqb_refl. now left.
Qed.

(** X20. Unless the empty string is a supported architecture, every
    architecture option with an empty piece (the empty option, a comma at
    its beginning or at its end, two commas in a row) is refused, and the
    token that is reported is the first token of the option that is not
    supported; it is the empty token itself for the empty option and for
    an option that begins with a comma. *)
Theorem X20_empty_architecture_refused
        (valid_arches : list cstr) (archopt : cstr) :
  ~ In [] valid_arches ->
  archopt = []
  \/ (exists u, archopt = ","%char :: u)
  \/ (exists u, archopt = u ++ [","%char])
  \/ (exists u v, archopt = u ++ ","%char :: ","%char :: v) ->
  (exists pre tok post,
      strsep_all archopt (cs ",") = pre ++ tok :: post
      /\ (forall t, In t pre -> In t valid_arches)
      /\ ~ In tok valid_arches
      /\ validate_arches valid_arches archopt
         = (Exit EXIT_FAILURE, [Stderr (UnsupportedArch tok); Stderr SeeHelp]))
  /\ (archopt = [] \/ (exists u, archopt = ","%char :: u) ->
      validate_arches valid_arches archopt
      = (Exit EXIT_FAILURE, [Stderr (UnsupportedArch []); Stderr SeeHelp])).
Proof.
  intros N Shape. apply empty_piece_iff in Shape. split.
  - destruct (first_unsupported valid_arches (strsep_all archopt (cs ",")))
      as (pre & tok & post & E & P & Nt); [now exists []|].
    exists pre, tok, post. repeat split; try assumption.
    unfold validate_arches. rewrite E.
    now apply collect_arches_first_unsupported.
  - assert (F : arch_found [] valid_arches = false).
    { destruct (arch_found [] valid_arches) eqn:F; [|reflexivity].
      apply arch_found_In in F. contradiction. }
    intros [->|(u & ->)]; unfold validate_arches.
    + simpl. now rewrite F.
    + cbn [strsep_all]. rewrite comma_reject. simpl. now rewrite F.
Qed.

Lemma X20_empty_architecture_refused_witness :
  (exists pre tok post,
      strsep_all (cs "x86_64,,noarch") (cs ",") = pre ++ tok :: post
      /\ (forall t, In t pre -> In t [cs "x86_64"; cs "noarch"])
      /\ ~ In tok [cs "x86_64"; cs "noarch"]
      /\ validate_arches [cs "x86_64"; cs "noarch"] (cs "x86_64,,noarch")
         = (Exit EXIT_FAILURE, [Stderr (UnsupportedArch tok); Stderr SeeHelp]))
  /\ validate_arches [cs "x86_64"; cs "noarch"] (cs "x86_64,,noarch")
     = (Exit EXIT_FAILURE, [Stderr (UnsupportedArch []); Stderr SeeHelp]).
Proof.
  split; [|reflexivity].
  apply (@X20_empty_architecture_refused [cs "x86_64"; cs "noarch"]
           (cs "x86_64,,noarch")).
  - not_in_list.
  - right. right. right. now exists (cs "x86_64"), (cs "noarch").
Defined.

Lemma strsep_all_plain t :
  ~ In ","%char t -> strsep_all t (cs ",") = [t].
Proof.
  induction t as [|x t IH]; [reflexivity|]. intros N.
  cbn [strsep_all]. rewrite comma_reject.
  destruct (Ascii.eqb x ",") eqn:E.
  - apply Ascii.eqb_eq in E. subst x. exfalso. apply N. now left.
  - rewrite IH; [reflexivity|]. intros H. apply N. now right.
Qed.

Lemma strsep_all_piece t s :
  ~ In ","%char t ->
  strsep_all (t ++ ","%char :: s) (cs ",") = t :: strsep_all s (cs ",").
Proof.
  induction t as [|x t IH]; intros N.
  - cbn [app strsep_all]. now rewrite comma_reject, Ascii.eqb_refl.
  - rewrite <- app_comm_cons. cbn [strsep_all]. rewrite comma_reject.
    destruct (Ascii.eqb x ",") eqn:E.
    + apply Ascii.eqb_eq in E. subst x. exfalso. apply N. now left.
    + rewrite IH; [reflexivity|]. intros H. apply N. now right.
Qed.

(** X21. The tokens that the loops over a -T, -E or -a argument see are
    the pieces between its commas, nothing more and nothing less: joined by
    commas they give the argument back, and any list of pieces without
    commas, one at least, is what the loop sees of its join. *)
Theorem X21_tokens_are_the_pieces (tokens : list cstr) (s : cstr) :
  join_commas (strsep_all s (cs ",")) = s
  /\ Forall (fun t => ~ In ","%char t) (strsep_all s (cs ","))
  /\ (tokens <> [] -> Forall (fun t => ~ In ","%char t) tokens ->
      strsep_all (join_commas tokens) (cs ",") = tokens).
Proof.
  split; [apply strsep_all_join|]. split; [apply strsep_all_no_comma|].
  intros N F. induction F as [|t rest Ht F IH]; [contradiction|].
  destruct rest as [|u rest].
  - simpl. now apply strsep_all_plain.
  - rewrite join_commas_cons, strsep_all_piece by exact Ht.
    f_equal. apply IH. discriminate.
Qed.

Lemma X21_tokens_are_the_pieces_witness :
  join_commas (strsep_all (cs "a,,b,") (cs ",")) = cs "a,,b,"
  /\ Forall (fun t => ~ In ","%char t) (strsep_all (cs "a,,b,") (cs ","))
  /\ strsep_all (join_commas [cs "x86_64"; []; cs "noarch"]) (cs ",")
     = [cs "x86_64"; []; cs "noarch"].
Proof.
  destruct (@X21_tokens_are_the_pieces [cs "x86_64"; []; cs "noarch"]
              (cs "a,,b,")) as (J & F & R).
  split; [exact J|]. split; [exact F|]. apply R.
  - discriminate.
  - repeat constructor; not_in_list.
Defined.

(* ================================================================= *)
(** ** The context that the builds are gathered with *)

Lemma main_release_Ret w ri ri' t :
  main_release w ri = (Ret ri', t) ->
  t = []
  /\ ri_product_release ri' <> None
  /\ (ri_product_release ri <> None -> ri' = ri)
  /\ ri_workdir ri' = ri_workdir ri /\ ri_tests ri' = ri_tests ri
  /\ ri_before ri' = ri_before ri /\ ri_after ri' = ri_after ri.
Proof.
  unfold main_release. destruct (ri_product_release ri) as [p|] eqn:P.
  - intros H. injection H as <- <-. rewrite P.
    repeat split; congruence.
  - destruct (ri_after ri) as [after|] eqn:A; [|discriminate].
    destruct (get_product_release (strdup w) (ri_before ri) after);
      try discriminate.
    intros H. injection H as <- <-. simpl.
    repeat split; congruence.
Qed.

Lemma main_arches_context w l ri ri' t :
  main_arches w l ri = (Ret ri', t) ->
  ri_after ri' = ri_after ri
  /\ ri_product_release ri' = ri_product_release ri
  /\ forall a, archopt l = Some a ->
       ri_arches ri' = Some (strsep_all a (cs ","))
       /\ forall tok, In tok (strsep_all a (cs ",")) ->
            In tok (get_all_arches w (set_arches ri (Some []))).
Proof.
  unfold main_arches. destruct (archopt l) as [a|].
  - intros H. apply bind_Ret_inv in H.
    destruct H as (? & ? & ? & _ & H & _).
    apply bind_Ret_inv in H. destruct H as (arches & ? & ? & V & H & _).
    injection H as <- _. simpl.
    split; [reflexivity|]. split; [reflexivity|].
    intros a' E. injection E as <-.
    set (valid := get_all_arches w (set_arches ri (Some []))) in *.
    assert (All : forall tok, In tok (strsep_all a (cs ",")) ->
                              In tok valid).
    { intros tok Ht.
      destruct (in_dec cstr_eq_dec tok valid) as [Hv|Hv]; [exact Hv|].
      exfalso.
      destruct (first_unsupported valid (strsep_all a (cs ",")))
        as (pre & u & post & E & P & Nu); [now exists tok|].
      unfold validate_arches in V. rewrite E in V.
      rewrite (@collect_arches_first_unsupported valid pre u post [] P Nu)
        in V.
      discriminate. }
    split; [|exact All].
    unfold validate_arches in V.
    rewrite (collect_arches_all valid _ [] All) in V.
    now injection V as <- _.
  - intros H. injection H as <- _.
    split; [reflexivity|]. split; [reflexivity|]. discriminate.
Qed.

Lemma main_builds_workdir l args ri ri' t :
  main_builds l args ri = (Ret ri', t) -> ri_workdir ri' = ri_workdir ri.
Proof.
  unfold main_builds. intros H. apply bind_Ret_inv in H.
  destruct H as (r & t1 & t2 & B & F & _).
  assert (R : ri_workdir r = ri_workdir ri).
  { destruct args as [|a [|b [|c rest]]]; try discriminate;
      now injection B as <- _. }
  destruct (fetch_only l), (ri_before r); try discriminate;
    now injection F as <- _.
Qed.

Lemma main_workdir_made w ri u t :
  main_workdir w ri = (Ret u, t) -> mkdirp w (ri_workdir ri) mode = 0%Z.
Proof.
  unfold main_workdir.
  destruct (mkdirp w (ri_workdir ri) mode =? 0)%Z eqn:E; simpl;
    [|discriminate].
  intros _. now apply Z.eqb_eq.
Qed.

(** The parts of a set-up that went through. *)
Lemma main_setup_chain w opts args l ri t :
  main_setup w opts args = (Ret (l, ri), t) ->
  exists r0 tc r1 r2 ta,
    main_config w l = (Ret r0, tc)
    /\ main_builds l args r0 = (Ret r1, [])
    /\ main_release w r1 = (Ret r2, [])
    /\ main_arches w l r2 = (Ret ri, ta)
    /\ mkdirp w (ri_workdir ri) mode = 0%Z.
Proof.
  unfold main_setup. intros H.
  apply bind_Ret_inv in H. destruct H as (l0 & tg & ? & G & H & _).
  apply bind_Ret_inv in H. destruct H as (r0 & tc & ? & C & H & _).
  apply bind_Ret_inv in H. destruct H as (r1 & tb & ? & B & H & _).
  apply bind_Ret_inv in H. destruct H as (r2 & tr & ? & R & H & _).
  apply bind_Ret_inv in H. destruct H as (? & tl & ? & _ & H & _).
  apply bind_Ret_inv in H. destruct H as (r3 & ta & ? & A & H & _).
  apply bind_Ret_inv in H. destruct H as (? & tw & ? & W & H & _).
  injection H as <- <- _.
  assert (tb = []) as -> by (apply main_builds_Ret in B; tauto).
  assert (tr = []) as -> by (apply main_release_Ret in R; tauto).
  apply main_workdir_made in W.
  now exists r0, tc, r1, r2, ta.
Qed.

(* ================================================================= *)
(** ** Options given more than once *)

Lemma option_case_arguments w c l l' t :
  option_case w c l = (Ret l', t) ->
  ((forall b, c <> Opt_c b) -> cfgfile l' = cfgfile l)
  /\ ((forall b, c <> Opt_a b) -> archopt l' = archopt l)
  /\ ((forall b, c <> Opt_r b) -> release l' = release l)
  /\ ((forall b, c <> Opt_o b) -> output l' = output l)
  /\ (forall a, c = Opt_c a -> cfgfile l' = Some a)
  /\ (forall a, c = Opt_a a -> archopt l' = Some a)
  /\ (forall a, c = Opt_r a -> release l' = Some a)
  /\ (forall a, c = Opt_o a -> output l' = Some a).
Proof.
  intros H. apply option_case_Ret_cases in H.
  destruct H as [(a0 & -> & ->)|[(? & -> & H)|[(? & -> & H)|[(a0 & -> & ->)|
                [(a0 & -> & ->)|[(a0 & -> & ->)|[(? & -> & ? & ->)|
                [(? & ? & -> & ->)|[(-> & ->)|[(-> & ->)|(-> & ->)]]]]]]]]]];
    try (apply selection_option_fields in H;
         destruct H as (E1 & E2 & _ & E3 & E4 & _); rewrite E1, E2, E3, E4);
    simpl;
    repeat split;
    try reflexivity; try discriminate;
    try (intros N; now destruct (N a0));
    try (intros a E; now injection E as <-).
Qed.

Lemma getopt_loop_arguments w opts : forall l l' t,
  getopt_loop w opts l = (Ret l', t) ->
  ((forall b, ~ In (Opt_c b) opts) -> cfgfile l' = cfgfile l)
  /\ ((forall b, ~ In (Opt_a b) opts) -> archopt l' = archopt l)
  /\ ((forall b, ~ In (Opt_r b) opts) -> release l' = release l)
  /\ ((forall b, ~ In (Opt_o b) opts) -> output l' = output l).
Proof.
  induction opts as [|c rest IH]; intros l l' t; simpl.
  - intros H. injection H as <- _. now repeat split.
  - intros H. apply bind_Ret_inv in H.
    destruct H as (l1 & t1 & t2 & C & R & _).
    apply option_case_arguments in C.
    destruct C as (C1 & C2 & C3 & C4 & _).
    destruct (IH _ _ _ R) as (I1 & I2 & I3 & I4).
    repeat split; intros N.
    + rewrite I1, C1; [reflexivity| |]; intros b E;
        apply (N b); [left; now rewrite E|now right].
    + rewrite I2, C2; [reflexivity| |]; intros b E;
        apply (N b); [left; now rewrite E|now right].
    + rewrite I3, C3; [reflexivity| |]; intros b E;
        apply (N b); [left; now rewrite E|now right].
    + rewrite I4, C4; [reflexivity| |]; intros b E;
        apply (N b); [left; now rewrite E|now right].
Qed.

(** X23. Of several -c, -a, -r or -o options the last one counts: after the
    option loop, the local variable holds the argument of the last option
    of its kind. *)
Theorem X23_last_option_counts
        (w : collaborators) (pre : list getopt_result) (c : getopt_result)
        (post : list getopt_result) (a : cstr) (l : locals)
        (t : list event) :
  getopt_loop w (pre ++ c :: post) initial_locals = (Ret l, t) ->
  (c = Opt_c a -> (forall b, ~ In (Opt_c b) post) -> cfgfile l = Some a)
  /\ (c = Opt_a a -> (forall b, ~ In (Opt_a b) post) -> archopt l = Some a)
  /\ (c = Opt_r a -> (forall b, ~ In (Opt_r b) post) -> release l = Some a)
  /\ (c = Opt_o a -> (forall b, ~ In (Opt_o b) post) -> output l = Some a).
Proof.
  rewrite getopt_loop_app. intros H. apply bind_Ret_inv in H.
  destruct H as (l1 & t1 & t2 & _ & H & _). cbn [getopt_loop] in H.
  apply bind_Ret_inv in H. destruct H as (l2 & t3 & t4 & C & R & _).
  apply option_case_arguments in C.
  destruct C as (_ & _ & _ & _ & C1 & C2 & C3 & C4).
  destruct (getopt_loop_arguments _ _ _ R) as (I1 & I2 & I3 & I4).
  repeat split; intros E N.
  - rewrite I1 by exact N. now apply C1.
  - rewrite I2 by exact N. now apply C2.
  - rewrite I3 by exact N. now apply C3.
  - rewrite I4 by exact N. now apply C4.
Qed.

Lemma X23_last_option_counts_witness :
  release (set_release (set_keep (set_release initial_locals
                                    (Some (cs "fc30"))) true)
                       (Some (cs "el8")))
  = Some (cs "el8").
Proof.
  refine (proj1 (proj2 (proj2
            (@X23_last_option_counts Sample.world
               [Opt_r (cs "fc30"); Opt_k] (Opt_r (cs "el8")) [] (cs "el8")
               _ [] _))) eq_refl _).
  - reflexivity.
  - intros b [].
Defined.

(* ================================================================= *)
(** ** Options that end the run *)

(** X24. When the options before it went through, -l, -V and '?' (which
    is also what [getopt_long] returns for an option it does not know) end
    the run at once with exit status 0, after the list, the version or the
    usage text; any other code that [getopt_long] returns ends it with
    exit status 1. No configuration is read and no build is looked at. *)
Theorem X24_options_that_exit
        (w : collaborators) (pre : list getopt_result) (c : getopt_result)
        (post : list getopt_result) (args : list cstr)
        (l : locals) (t : list event) :
  getopt_loop w pre initial_locals = (Ret l, t) ->
  (c = Opt_l -> main w (pre ++ c :: post) args
                = (Exit EXIT_SUCCESS, [PrintList]))
  /\ (c = Opt_help -> main w (pre ++ c :: post) args
                      = (Exit EXIT_SUCCESS, [PrintUsage]))
  /\ (c = Opt_V -> main w (pre ++ c :: post) args
                   = (Exit EXIT_SUCCESS, [PrintVersion]))
  /\ (forall n, c = Opt_other n ->
        main w (pre ++ c :: post) args
        = (Exit EXIT_FAILURE, [Stderr (GetoptCode n)])).
Proof.
  intros G.
  assert (T : t = []) by (apply getopt_loop_Ret in G; tauto). subst t.
  repeat split; intros; subst c; apply main_exits_in_options;
    rewrite getopt_loop_app, G; reflexivity.
Qed.

Lemma X24_options_that_exit_witness :
  main Sample.world [Opt_T (cs "license"); Opt_help; Opt_E (cs "elf")] []
  = (Exit EXIT_SUCCESS, [PrintUsage]).
Proof.
  refine (proj1 (proj2
            (@X24_options_that_exit Sample.world [Opt_T (cs "license")]
               Opt_help [Opt_E (cs "elf")] [] _ [] _)) eq_refl).
  reflexivity.
Defined.

(* ================================================================= *)
(** ** The command line and the context of the gathering *)

Lemma option_case_workdir w c l l' t :
  option_case w c l = (Ret l', t) ->
  ((forall b, c <> Opt_w b) -> workdir l' = workdir l)
  /\ (forall a, c = Opt_w a ->
        match index a "~" with
        | None => workdir l' = Some a
        | Some _ =>
            fst (glob w a) = 0%Z
            /\ exists d, snd (glob w a) = [d] /\ workdir l' = Some d
        end).
Proof.
  intros H. split.
  - apply option_case_Ret_cases in H.
    destruct H as [(? & -> & ->)|[(? & -> & H)|[(? & -> & H)|[(? & -> & ->)|
                  [(? & -> & ->)|[(? & -> & ->)|[(? & -> & ? & ->)|
                  [(a0 & ? & -> & ->)|[(-> & ->)|[(-> & ->)|(-> & ->)]]]]]]]]]];
      try (apply selection_option_fields in H;
           destruct H as (_ & _ & E & _); rewrite E);
      try reflexivity.
    intros N. now destruct (N a0).
  - intros a ->. cbn [option_case] in H.
    destruct (index a "~").
    + destruct (glob w a) as [j pv]. simpl.
      destruct (j =? 0)%Z eqn:J; simpl in H; [|discriminate].
      destruct pv as [|d [|d' pv]]; simpl in H; try discriminate.
      apply Z.eqb_eq in J. injection H as <- _. split; [exact J|].
      now exists d.
    + now injection H as <- _.
Qed.

Lemma getopt_loop_workdir w opts : forall l l' t,
  getopt_loop w opts l = (Ret l', t) ->
  (forall b, ~ In (Opt_w b) opts) -> workdir l' = workdir l.
Proof.
  induction opts as [|c rest IH]; intros l l' t; simpl.
  - intros H _. now injection H as <- _.
  - intros H N. apply bind_Ret_inv in H.
    destruct H as (l1 & t1 & t2 & C & R & _).
    apply option_case_workdir in C. destruct C as [C _].
    rewrite (IH _ _ _ R), C; [reflexivity| |].
    + intros b E. apply (N b). left. now rewrite E.
    + intros b I. apply (N b). now right.
Qed.

(** The loop at one of its options. *)
Lemma getopt_loop_split w pre c post l0 l t :
  getopt_loop w (pre ++ c :: post) l0 = (Ret l, t) ->
  exists l1 l2 t1 t2,
    option_case w c l1 = (Ret l2, t1)
    /\ getopt_loop w post l2 = (Ret l, t2).
Proof.
  rewrite getopt_loop_app. intros H. apply bind_Ret_inv in H.
  destruct H as (l1 & ? & ? & _ & H & _). cbn [getopt_loop] in H.
  apply bind_Ret_inv in H. destruct H as (l2 & t1 & t2 & C & R & _).
  now exists l1, l2, t1, t2.
Qed.

Lemma main_arches_exact w l ri ri' t a :
  main_arches w l ri = (Ret ri', t) -> archopt l = Some a ->
  ri' = set_arches (set_arches ri (Some [])) (Some (strsep_all a (cs ","))).
Proof.
  intros H E. pose proof H as H0. apply main_arches_context in H0.
  destruct H0 as (_ & _ & C).
  destruct (C a E) as [Ar _]. clear C.
  unfold main_arches in H. rewrite E in H.
  apply bind_Ret_inv in H. destruct H as (? & ? & ? & _ & H & _).
  apply bind_Ret_inv in H. destruct H as (arches & ? & ? & _ & H & _).
  injection H as <- _. simpl in Ar. injection Ar as ->. reflexivity.
Qed.

(** X22. When [gather_builds] is called, the context has an after build
    and a product release, which is the argument of the last -r option
    when there is one; with -f it has no before build; its working
    directory has just been made, and it is, for the last -w option, the
    argument itself when this has no '~' and otherwise the one path that
    [glob] expanded it to; with -a, its list of architectures is the list
    of the tokens of the last -a option, in their order, and each of them
    is among the architectures [get_all_arches] found. *)
Theorem X22_context_for_gathering
        (w : collaborators) (opts : list getopt_result) (args : list cstr)
        (l : locals) (ri : rpminspect) (t : list event) :
  main_setup w opts args = (Ret (l, ri), t) ->
  ri_after ri <> None
  /\ ri_product_release ri <> None
  /\ (forall pre a post,
        opts = pre ++ Opt_r a :: post -> (forall b, ~ In (Opt_r b) post) ->
        ri_product_release ri = Some a)
  /\ (In Opt_f opts -> ri_before ri = None)
  /\ mkdirp w (ri_workdir ri) mode = 0%Z
  /\ (forall pre a post,
        opts = pre ++ Opt_w a :: post -> (forall b, ~ In (Opt_w b) post) ->
        match index a "~" with
        | None => ri_workdir ri = a
        | Some _ => fst (glob w a) = 0%Z /\ snd (glob w a) = [ri_workdir ri]
        end)
  /\ (forall pre a post,
        opts = pre ++ Opt_a a :: post -> (forall b, ~ In (Opt_a b) post) ->
        ri_arches ri = Some (strsep_all a (cs ","))
        /\ forall tok, In tok (strsep_all a (cs ",")) ->
             In tok (get_all_arches w (set_arches ri (Some [])))).
Proof.
  intros S. destruct (@main_setup_Ret w opts args l ri t S) as (G & _).
  apply main_setup_chain in S.
  destruct S as (r0 & tc & r1 & r2 & ta & C & B & R & A & W).
  destruct (main_config_result _ _ C)
    as (cfg & _ & _ & _ & _ & Pr & _ & Wd & _).
  pose proof (main_builds_workdir _ _ _ B) as Wb.
  apply main_builds_Ret in B. destruct B as (_ & Af & Pb & _ & Fo).
  apply main_release_Ret in R.
  destruct R as (_ & Pn & Same & Wr & _ & Br & Ar).
  pose proof (main_arches_Ret _ _ _ A) as (Wa & _ & Ba).
  pose proof A as A0. apply main_arches_context in A0.
  destruct A0 as (Aa & Pa & Arch).
  split; [congruence|]. split; [congruence|].
  split; [|split; [|split; [exact W|split]]].
  - intros pre a post -> N.
    apply getopt_loop_split in G.
    destruct G as (l1 & l2 & t1 & t2 & Oc & Rest).
    apply option_case_arguments in Oc.
    destruct Oc as (_ & _ & _ & _ & _ & _ & O & _).
    apply getopt_loop_arguments in Rest. destruct Rest as (_ & _ & I & _).
    assert (E : release l = Some a) by (rewrite I by exact N; now apply O).
    rewrite Pa. rewrite Same by congruence. congruence.
  - intros I. apply getopt_loop_Ret in G. destruct G as (_ & F & _).
    rewrite Ba, Br. auto.
  - intros pre a post -> N.
    apply getopt_loop_split in G.
    destruct G as (l1 & l2 & t1 & t2 & Oc & Rest).
    apply option_case_workdir in Oc. destruct Oc as [_ O].
    specialize (O a eq_refl).
    assert (I : workdir l = workdir l2)
      by (eapply getopt_loop_workdir; eauto).
    assert (Wf : forall d, workdir l = Some d -> ri_workdir ri = d)
      by (intros d E; rewrite Wa, Wr, Wb, Wd, E; reflexivity).
    destruct (index a "~").
    + destruct O as (J & d & P & E). split; [exact J|].
      rewrite P. f_equal. symmetry. apply Wf. congruence.
    + apply Wf. congruence.
  - intros pre a post -> N.
    apply getopt_loop_split in G.
    destruct G as (l1 & l2 & t1 & t2 & Oc & Rest).
    apply option_case_arguments in Oc.
    destruct Oc as (_ & _ & _ & _ & _ & O & _).
    apply getopt_loop_arguments in Rest. destruct Rest as (_ & I & _).
    assert (E : archopt l = Some a) by (rewrite I by exact N; now apply O).
    destruct (Arch a E) as [Ar' In']. split; [exact Ar'|].
    assert (Er : ri = set_arches (set_arches r2 (Some []))
                                 (Some (strsep_all a (cs ","))))
      by (eapply main_arches_exact; eauto).
    rewrite Er. exact In'.
Qed.

Lemma X22_context_for_gathering_witness :
  exists l ri t,
    main_setup Sample.world_tilde
               [Opt_r (cs "fc30"); Opt_w (cs "~/w"); Opt_r (cs "el8");
                Opt_a (cs "noarch")]
               [cs "pkg"] = (Ret (l, ri), t)
    /\ ri_workdir ri = cs "/home/user/w"
    /\ ri_after ri <> None
    /\ ri_product_release ri <> None
    /\ (forall pre a post,
          [Opt_r (cs "fc30"); Opt_w (cs "~/w"); Opt_r (cs "el8");
           Opt_a (cs "noarch")] = pre ++ Opt_r a :: post ->
          (forall b, ~ In (Opt_r b) post) ->
          ri_product_release ri = Some a)
    /\ (In Opt_f [Opt_r (cs "fc30"); Opt_w (cs "~/w"); Opt_r (cs "el8");
                  Opt_a (cs "noarch")] -> ri_before ri = None)
    /\ mkdirp Sample.world_tilde (ri_workdir ri) mode = 0%Z
    /\ (forall pre a post,
          [Opt_r (cs "fc30"); Opt_w (cs "~/w"); Opt_r (cs "el8");
           Opt_a (cs "noarch")] = pre ++ Opt_w a :: post ->
          (forall b, ~ In (Opt_w b) post) ->
          match index a "~" with
          | None => ri_workdir ri = a
          | Some _ =>
              fst (glob Sample.world_tilde a) = 0%Z
              /\ snd (glob Sample.world_tilde a) = [ri_workdir ri]
          end)
    /\ (forall pre a post,
          [Opt_r (cs "fc30"); Opt_w (cs "~/w"); Opt_r (cs "el8");
           Opt_a (cs "noarch")] = pre ++ Opt_a a :: post ->
          (forall b, ~ In (Opt_a b) post) ->
          ri_arches ri = Some (strsep_all a (cs ","))
          /\ forall tok, In tok (strsep_all a (cs ",")) ->
               In tok (get_all_arches Sample.world_tilde
                                      (set_arches ri (Some [])))).
Proof.
  do 3 eexists. split; [reflexivity|]. split; [reflexivity|].
  eapply (@X22_context_for_gathering Sample.world_tilde
            [Opt_r (cs "fc30"); Opt_w (cs "~/w"); Opt_r (cs "el8");
             Opt_a (cs "noarch")]
            [cs "pkg"]).
  reflexivity.
Defined.
